(** * Gaze heatmap renderer

    A shallow embedding of [server/api/render-web-page/index.post.ts]:
    the density accumulator and colour mapper of [createHeatmapOverlay],
    the canvas operations it drives, and the request handler that owns the
    browser process.

    Numbers.  A JavaScript [number] is a binary64 floating-point number.
    The arithmetic of the source ([+], [-], [*], [/], [Math.sqrt], [<]) is
    read in two ways.  In the first it is exact arithmetic on [R]: this is
    the reading of the definitions of Part I that carry the source's names
    at top level, and it is used for the properties that rounding does not
    touch.  In the second every operation is followed by the rounding to
    the nearest binary64 number, a tie going to the even mantissa
    ([binary64]), and a store into the [Float32Array] by the rounding to
    binary32 ([Math_fround]): this is the reading of [Module Rounded], of
    the countdown and of the statistics of the page, and it is used where
    the result depends on the rounding.  Infinities and NaN are outside
    both readings.  The conversions the source relies on to leave the
    numbers are kept in both: [Math.floor], [Math.round] and the
    [Uint8ClampedArray] store.  Loop counters and array indices, which
    only ever hold integers, are in [Z].

    The density accumulator is given a third time on machine numbers
    ([Module IEEE]), so that it runs, bit for bit, on concrete inputs. *)

From Stdlib Require Import Reals ZArith List Lia Lra Bool String Permutation.
From Stdlib Require PrimFloat SpecFloat FloatOps.
From Stdlib Require DecimalString DecimalZ.
Import ListNotations.

Local Open Scope Z_scope.
Local Open Scope R_scope.

Set Implicit Arguments.

(* ================================================================== *)
(** * Part I: the program *)
(* ================================================================== *)

(** ** JavaScript primitives *)

(** [Math.floor]. *)
Definition Math_floor (v : R) : Z := Zfloor v.

(** [Math.round]: the nearest integer, a tie going up. *)
Definition Math_round (v : R) : Z := Zfloor (v + 0.5).

(** [Math.min] on numbers. *)
Definition Math_min (a b : R) : R := Rmin a b.

(** The conversion applied by a store into a [Uint8ClampedArray]
    (ECMAScript [ToUint8Clamp]): clamp to [0, 255], then round to the
    nearest integer, a tie going to the even neighbour. *)
Definition ToUint8Clamp (v : R) : Z :=
  if Rle_dec v 0 then 0%Z
  else if Rle_dec 255 v then 255%Z
  else
    let f := Zfloor v in
    if Rlt_dec v (IZR f + 0.5) then f
    else if Rlt_dec (IZR f + 0.5) v then (f + 1)%Z
    else if Z.even f then f else (f + 1)%Z.

(** Rounding to the nearest integer, a tie going to the even neighbour. *)
Definition round_half_even (v : R) : Z :=
  let f := Zfloor v in
  if Rlt_dec (v - IZR f) 0.5 then f
  else if Rlt_dec 0.5 (v - IZR f) then (f + 1)%Z
  else if Z.even f then f else (f + 1)%Z.

(** *** The rounding of a [number]

    A finite binary floating-point number of precision [prec] and least
    exponent [emin] is [n * 2^e] with [|n| < 2^prec] and [emin <= e].  The
    rounding of a real [x] keeps [prec] binary digits from the leading one
    of [x] on (or the digits down to [2^emin], for a subnormal [x]) and
    rounds to the nearest, a tie going to the even mantissa. *)

Definition bpow (e : Z) : R := powerRZ 2 e.

(** The magnitude of [x <> 0]: the exponent [m] with
    [2^(m-1) <= |x| < 2^m]. *)
Definition mag (x : R) : Z := (Zfloor (ln (Rabs x) / ln 2) + 1)%Z.

(** The exponent of the last digit kept for [x]. *)
Definition cexp (prec emin : Z) (x : R) : Z := Z.max (mag x - prec) emin.

Definition round_to_format (prec emin : Z) (x : R) : R :=
  if Req_dec_T x 0 then 0
  else
    let e := cexp prec emin x in
    IZR (round_half_even (x * bpow (- e))) * bpow e.

(** The result of an arithmetic operation on [number]s: binary64, 53
    digits, least exponent -1074. *)
Definition binary64 : R -> R := round_to_format 53 (-1074).

(** [Math.fround], the conversion applied by a store into a
    [Float32Array]: binary32, 24 digits, least exponent -149. *)
Definition Math_fround : R -> R := round_to_format 24 (-149).

(** [for (let i = lo; i < hi; i++) body(i)], threading the state [s]. *)
Fixpoint for_steps {S : Type} (n : nat) (i : Z) (body : Z -> S -> S) (s : S) : S :=
  match n with
  | O => s
  | Datatypes.S k => for_steps k (i + 1)%Z body (body i s)
  end.

Definition for_range {S : Type} (lo hi : Z) (body : Z -> S -> S) (s : S) : S :=
  for_steps (Z.to_nat (hi - lo)) lo body s.

(** ** Arrays

    A typed array is a list of fixed length.  A read is [arr[i]]; a write
    [arr[i] = v] outside the array is ignored, as typed arrays do. *)

Definition array_get {A : Type} (d : A) (a : list A) (i : Z) : A :=
  nth (Z.to_nat i) a d.

Fixpoint list_set {A : Type} (a : list A) (n : nat) (v : A) : list A :=
  match a, n with
  | [], _ => []
  | _ :: t, O => v :: t
  | h :: t, Datatypes.S k => h :: list_set t k v
  end.

Definition array_set {A : Type} (a : list A) (i : Z) (v : A) : list A :=
  if (i <? 0)%Z then a else list_set a (Z.to_nat i) v.

(** [new Float32Array(n)]: [n] zeros. *)
Definition new_Float32Array (n : Z) : list R := repeat 0 (Z.to_nat n).

(** ** Data *)

(** A gaze sample [{x, y}]. *)
Record Point := mkPoint { point_x : R; point_y : R }.

(** One pixel, four channels in [0, 255]. *)
Record RGBA := mkRGBA { red : Z; green : Z; blue : Z; alpha : Z }.

Definition transparent : RGBA := mkRGBA 0 0 0 0.
Definition black : RGBA := mkRGBA 0 0 0 255.

(** ** [hslToRgb] *)

Definition hue2rgb (p q t : R) : R :=
  let t := if Rlt_dec t 0 then t + 1 else t in
  let t := if Rlt_dec 1 t then t - 1 else t in
  if Rlt_dec t (1 / 6) then p + (q - p) * 6 * t
  else if Rlt_dec t (1 / 2) then q
  else if Rlt_dec t (2 / 3) then p + (q - p) * (2 / 3 - t) * 6
  else p.

Definition hslToRgb (h s l : R) : Z * Z * Z :=
  let '(r, g, b) :=
    if Req_dec_T s 0 then (l, l, l)
    else
      let q := if Rlt_dec l 0.5 then l * (1 + s) else l + s - l * s in
      let p := 2 * l - q in
      (hue2rgb p q (h + 1 / 3), hue2rgb p q h, hue2rgb p q (h - 1 / 3)) in
  (Math_round (r * 255), Math_round (g * 255), Math_round (b * 255)).

(** ** [createHeatmapOverlay]: the density accumulator (lines 45-68) *)

Definition radius : R := 30.
Definition maxPointsPerPixel : R := 5.

(** The body of the inner loop, at pixel [(x, y)]. *)
Definition accumulate_pixel (point : Point) (width : Z) (y x : Z)
    (intensityMap : list R) : list R :=
  let dx := point_x point - IZR x in
  let dy := point_y point - IZR y in
  let distance := sqrt (dx * dx + dy * dy) in
  if Rlt_dec distance radius then
    let intensity := (1 - distance / radius) * 0.4 in
    let index := (y * width + x)%Z in
    array_set intensityMap index
      (Math_min (array_get 0 intensityMap index + intensity) maxPointsPerPixel)
  else intensityMap.

Definition box_x0 (point : Point) : Z :=
  Z.max 0 (Math_floor (point_x point - radius)).
Definition box_x1 (point : Point) (width : Z) : Z :=
  Z.min width (Math_floor (point_x point + radius)).
Definition box_y0 (point : Point) : Z :=
  Z.max 0 (Math_floor (point_y point - radius)).
Definition box_y1 (point : Point) (height : Z) : Z :=
  Z.min height (Math_floor (point_y point + radius)).

(** The body of [points.forEach]. *)
Definition accumulate_point (width height : Z) (intensityMap : list R)
    (point : Point) : list R :=
  let x0 := box_x0 point in
  let x1 := box_x1 point width in
  let y0 := box_y0 point in
  let y1 := box_y1 point height in
  for_range y0 y1
    (fun y => for_range x0 x1 (fun x => accumulate_pixel point width y x))
    intensityMap.

(** The intensity map after [points.forEach]. *)
Definition accumulate (points : list Point) (width height : Z) : list R :=
  fold_left (accumulate_point width height) points
    (new_Float32Array (width * height)).

(** ** [createHeatmapOverlay]: the density accumulator with its roundings

    Lines 45-68 once more: every arithmetic operation is followed by the
    rounding to binary64, and the store into the [Float32Array] by the
    rounding to binary32.  The constants 30, 5 and 1 are binary64 numbers;
    the literal [0.4] stands for the binary64 number nearest to it.  A
    value read from the [Float32Array] is a binary64 number as it is. *)
Module Rounded.

Definition accumulate_pixel (point : Point) (width : Z) (y x : Z)
    (intensityMap : list R) : list R :=
  let dx := binary64 (point_x point - IZR x) in
  let dy := binary64 (point_y point - IZR y) in
  let distance :=
    binary64 (sqrt (binary64 (binary64 (dx * dx) + binary64 (dy * dy)))) in
  if Rlt_dec distance radius then
    let intensity :=
      binary64 (binary64 (1 - binary64 (distance / radius)) * binary64 0.4) in
    let index := (y * width + x)%Z in
    array_set intensityMap index
      (Math_fround
         (Math_min (binary64 (array_get 0 intensityMap index + intensity))
            maxPointsPerPixel))
  else intensityMap.

Definition box_x0 (point : Point) : Z :=
  Z.max 0 (Math_floor (binary64 (point_x point - radius))).
Definition box_x1 (point : Point) (width : Z) : Z :=
  Z.min width (Math_floor (binary64 (point_x point + radius))).
Definition box_y0 (point : Point) : Z :=
  Z.max 0 (Math_floor (binary64 (point_y point - radius))).
Definition box_y1 (point : Point) (height : Z) : Z :=
  Z.min height (Math_floor (binary64 (point_y point + radius))).

Definition accumulate_point (width height : Z) (intensityMap : list R)
    (point : Point) : list R :=
  let x0 := box_x0 point in
  let x1 := box_x1 point width in
  let y0 := box_y0 point in
  let y1 := box_y1 point height in
  for_range y0 y1
    (fun y => for_range x0 x1 (fun x => accumulate_pixel point width y x))
    intensityMap.

Definition accumulate (points : list Point) (width height : Z) : list R :=
  fold_left (accumulate_point width height) points
    (new_Float32Array (width * height)).

End Rounded.

(** ** [createHeatmapOverlay]: the colour mapper (lines 70-83) *)

(** The four bytes stored into [data[j .. j+3]] for a positive display
    intensity; every store goes through [ToUint8Clamp]. *)
Definition heat_color (intensity : R) : RGBA :=
  let hue := (1 - intensity) * (240 / 360) in
  let '(r, g, b) := hslToRgb hue 1 0.5 in
  mkRGBA (ToUint8Clamp (IZR r)) (ToUint8Clamp (IZR g)) (ToUint8Clamp (IZR b))
    (ToUint8Clamp (intensity * 180)).

(** [ImageData]: [width * height] pixels, row-major, straight alpha; pixel
    [i] stands for the four bytes at [j = 4 * i]. *)
Record ImageData := mkImageData
  { image_width : Z; image_height : Z; image_data : list RGBA }.

(** [ctx.createImageData(width, height)]: transparent black. *)
Definition createImageData (width height : Z) : ImageData :=
  mkImageData width height (repeat transparent (Z.to_nat (width * height))).

(** The body of the loop over [intensityMap]. *)
Definition colorize_pixel (intensityMap : list R) (i : Z) (data : list RGBA)
    : list RGBA :=
  let intensity := Math_min (array_get 0 intensityMap i) 1 in
  if Rlt_dec 0 intensity then array_set data i (heat_color intensity)
  else data.

Definition colorize (intensityMap : list R) (imageData : ImageData) : ImageData :=
  mkImageData (image_width imageData) (image_height imageData)
    (for_range 0 (Z.of_nat (List.length intensityMap))
       (colorize_pixel intensityMap) (image_data imageData)).

(** ** The canvas

    The drawing surface of node-canvas, as the source uses it.  A surface
    holds [width * height] pixels with premultiplied alpha.  [fillRect] and
    [drawImage] composite onto the surface with the context's current
    [globalCompositeOperation]; [putImageData] replaces the pixels it covers
    and ignores the compositing state, as the Canvas standard says. *)

Inductive CompositeOperation := source_over | lighter.

Record Image := mkImage
  { img_width : Z; img_height : Z; img_pixels : list RGBA }.

(** An encoded PNG is identified with the raster it decodes to. *)
Definition Buffer := Image.

Record Context2D := mkContext
  { canvas_width : Z;
    canvas_height : Z;
    surface : list RGBA;
    fillStyle : RGBA;
    globalCompositeOperation : CompositeOperation }.

Definition createCanvas (width height : Z) : Context2D :=
  mkContext width height (repeat transparent (Z.to_nat (width * height)))
    black source_over.

Definition set_fillStyle (ctx : Context2D) (style : RGBA) : Context2D :=
  mkContext (canvas_width ctx) (canvas_height ctx) (surface ctx) style
    (globalCompositeOperation ctx).

Definition set_globalCompositeOperation (ctx : Context2D)
    (op : CompositeOperation) : Context2D :=
  mkContext (canvas_width ctx) (canvas_height ctx) (surface ctx)
    (fillStyle ctx) op.

Definition with_surface (ctx : Context2D) (pixels : list RGBA) : Context2D :=
  mkContext (canvas_width ctx) (canvas_height ctx) pixels (fillStyle ctx)
    (globalCompositeOperation ctx).

(** Division by 255, rounded. *)
Definition div255 (v : Z) : Z := ((v + 127) / 255)%Z.

Definition premultiply (p : RGBA) : RGBA :=
  mkRGBA (div255 (red p * alpha p)) (div255 (green p * alpha p))
    (div255 (blue p * alpha p)) (alpha p).

Definition blend_channel (op : CompositeOperation) (src_alpha src dst : Z) : Z :=
  match op with
  | source_over => Z.min 255 (src + div255 (dst * (255 - src_alpha)))
  | lighter => Z.min 255 (src + dst)
  end.

(** Compositing one premultiplied source pixel onto a destination pixel. *)
Definition blend (op : CompositeOperation) (src dst : RGBA) : RGBA :=
  mkRGBA (blend_channel op (alpha src) (red src) (red dst))
    (blend_channel op (alpha src) (green src) (green dst))
    (blend_channel op (alpha src) (blue src) (blue dst))
    (blend_channel op (alpha src) (alpha src) (alpha dst)).

Fixpoint map_indexed {A B : Type} (f : Z -> A -> B) (i : Z) (l : list A) : list B :=
  match l with
  | [] => []
  | a :: t => f i a :: map_indexed f (i + 1)%Z t
  end.

(** Apply [f x y] to the pixel at column [x] and row [y]. *)
Definition map_pixels (width : Z) (f : Z -> Z -> RGBA -> RGBA)
    (pixels : list RGBA) : list RGBA :=
  map_indexed (fun i p => f (i mod width)%Z (i / width)%Z p) 0%Z pixels.

Definition in_rect (x y left top w h : Z) : bool :=
  ((left <=? x) && (x <? left + w) && (top <=? y) && (y <? top + h))%Z.

Definition fillRect (ctx : Context2D) (left top w h : Z) : Context2D :=
  with_surface ctx
    (map_pixels (canvas_width ctx)
       (fun x y old =>
          if in_rect x y left top w h
          then blend (globalCompositeOperation ctx) (premultiply (fillStyle ctx)) old
          else old)
       (surface ctx)).

Definition putImageData (ctx : Context2D) (imageData : ImageData) (dx dy : Z)
    : Context2D :=
  with_surface ctx
    (map_pixels (canvas_width ctx)
       (fun x y old =>
          if in_rect x y dx dy (image_width imageData) (image_height imageData)
          then premultiply
                 (array_get transparent (image_data imageData)
                    ((y - dy) * image_width imageData + (x - dx))%Z)
          else old)
       (surface ctx)).

Definition drawImage (ctx : Context2D) (image : Image) (dx dy : Z) : Context2D :=
  with_surface ctx
    (map_pixels (canvas_width ctx)
       (fun x y old =>
          if in_rect x y dx dy (img_width image) (img_height image)
          then blend (globalCompositeOperation ctx)
                 (array_get transparent (img_pixels image)
                    ((y - dy) * img_width image + (x - dx))%Z)
                 old
          else old)
       (surface ctx)).

(** A canvas used as the source of [drawImage], and [canvas.toBuffer()]. *)
Definition canvas_image (ctx : Context2D) : Image :=
  mkImage (canvas_width ctx) (canvas_height ctx) (surface ctx).

Definition toBuffer (ctx : Context2D) : Buffer := canvas_image ctx.

(** [loadImage] of a buffer. *)
Definition loadImage (buffer : Buffer) : Image := buffer.

(** ** [createHeatmapOverlay] *)

Definition createHeatmapOverlay (points : list Point) (width height : Z) : Buffer :=
  let ctx := createCanvas width height in
  let ctx := set_fillStyle ctx black in
  let ctx := fillRect ctx 0 0 width height in
  let ctx := set_globalCompositeOperation ctx lighter in
  let intensityMap := accumulate points width height in
  let imageData := createImageData width height in
  let imageData := colorize intensityMap imageData in
  let ctx := putImageData ctx imageData 0 0 in
  let bCtx := createCanvas width height in
  let bCtx := drawImage bCtx (canvas_image ctx) 0 0 in
  toBuffer bCtx.

(** The same construction with lines 41-43 (the background fill and the
    blend mode) left out: the colour mapper writing the overlay directly. *)
Definition createHeatmapOverlay_direct (points : list Point) (width height : Z)
    : Buffer :=
  let ctx := createCanvas width height in
  let intensityMap := accumulate points width height in
  let imageData := createImageData width height in
  let imageData := colorize intensityMap imageData in
  let ctx := putImageData ctx imageData 0 0 in
  let bCtx := createCanvas width height in
  let bCtx := drawImage bCtx (canvas_image ctx) 0 0 in
  toBuffer bCtx.

(** ** The request handler *)

Record Request := mkRequest
  { req_url : string;
    req_width : R;
    req_height : R;
    req_points : option (list Point) }.

(** The response [{ screenshot, fullPage }]; the base64 text of the PNG is
    identified with the image it encodes. *)
Record Response := mkResponse { screenshot : Buffer; fullPage : bool }.

(** A request body, as [readBody] delivers it. *)
#[local] Set Warnings "-register-all".
Inductive Json :=
| JNull
| JBool (b : bool)
| JNumber (v : R)
| JString (s : string)
| JArray (items : list Json)
| JObject (fields : list (string * Json)).

Fixpoint field (name : string) (fields : list (string * Json)) : option Json :=
  match fields with
  | [] => None
  | (key, value) :: rest =>
      if String.eqb key name then Some value else field name rest
  end.

Definition parse_point (item : Json) : option Point :=
  match item with
  | JObject fields =>
      match field "x" fields, field "y" fields with
      | Some (JNumber x), Some (JNumber y) => Some (mkPoint x y)
      | _, _ => None
      end
  | _ => None
  end.

Fixpoint parse_points (items : list Json) : option (list Point) :=
  match items with
  | [] => Some []
  | item :: rest =>
      match parse_point item, parse_points rest with
      | Some point, Some points => Some (point :: points)
      | _, _ => None
      end
  end.

(** [renderWebPageSchema.parse]: [url] a string, [width] and [height]
    numbers, [points] absent or an array of [{x, y}] with numbers. *)
Definition renderWebPageSchema_parse (body : Json) : option Request :=
  match body with
  | JObject fields =>
      match field "url" fields, field "width" fields, field "height" fields with
      | Some (JString url), Some (JNumber width), Some (JNumber height) =>
          match field "points" fields with
          | None => Some (mkRequest url width height None)
          | Some (JArray items) =>
              match parse_points items with
              | Some points => Some (mkRequest url width height (Some points))
              | None => None
              end
          | Some _ => None
          end
      | _, _, _ => None
      end
  | _ => None
  end.

(** Lines 128-144: the overlay, if any, drawn over the screenshot. *)
Definition heatmapBuffer_of (points : option (list Point))
    (actualWidth actualHeight : Z) : option Buffer :=
  match points with
  | Some pts => Some (createHeatmapOverlay pts actualWidth actualHeight)
  | None => None
  end.

Definition composite (screenshotBuffer : Buffer) (points : option (list Point))
    : Buffer :=
  let screenshotImage := loadImage screenshotBuffer in
  let actualWidth := img_width screenshotImage in
  let actualHeight := img_height screenshotImage in
  let heatmapBuffer := heatmapBuffer_of points actualWidth actualHeight in
  let ctx := createCanvas actualWidth actualHeight in
  let heatmapImage := option_map loadImage heatmapBuffer in
  let ctx := drawImage ctx screenshotImage 0 0 in
  let ctx :=
    match heatmapImage with
    | Some image => drawImage ctx image 0 0
    | None => ctx
    end in
  toBuffer ctx.

(** *** The browser

    What the handler asks of the browser process, in the order asked. *)
Inductive Event :=
| Launch
| NewPage
| SetViewport (width height : R)
| Goto (url : string)
| Screenshot (fullPage : bool)
| Close.

Inductive Result (A : Type) := Resolved (a : A) | Rejected (reason : string).
Arguments Resolved {A} a.
Arguments Rejected {A} reason.

(** How the world outside answers each call: any call may reject.  The
    page that is captured depends on the address and on the viewport; the
    answer of [browser.close()] may depend on how often it was called. *)
Record World := mkWorld
  { puppeteer_launch : Result unit;
    browser_newPage : Result unit;
    page_setViewport : R -> R -> Result unit;
    page_goto : string -> Result unit;
    page_screenshot : string -> R -> R -> bool -> Result Buffer;
    browser_close : nat -> Result unit }.

(** What a caller of the handler can get back: a thrown JavaScript error
    carrying its own detail, or the error built by [createError]. *)
Inductive Error :=
| JsError (detail : string)
| H3Error (statusCode : Z) (message : string).

Inductive Outcome (A : Type) := Returned (a : A) | Thrown (e : Error).
Arguments Returned {A} a.
Arguments Thrown {A} e.

(** Computations that call the browser: the events so far are threaded
    through, and a computation returns or throws. *)
Definition Eff (A : Type) : Type := list Event -> Outcome A * list Event.

Definition ret {A : Type} (a : A) : Eff A := fun tr => (Returned a, tr).

Definition throw {A : Type} (e : Error) : Eff A := fun tr => (Thrown e, tr).

Definition bind {A B : Type} (m : Eff A) (k : A -> Eff B) : Eff B :=
  fun tr =>
    match m tr with
    | (Returned a, tr') => k a tr'
    | (Thrown e, tr') => (Thrown e, tr')
    end.

Definition try_catch {A : Type} (m : Eff A) (handler : Error -> Eff A) : Eff A :=
  fun tr =>
    match m tr with
    | (Returned a, tr') => (Returned a, tr')
    | (Thrown e, tr') => handler e tr'
    end.

Notation "x <- m ;; k" := (bind m (fun x => k))
  (at level 61, m at next level, right associativity).

(** [await] of a browser call: the event is recorded, then the promise
    resolves or rejects. *)
Definition await {A : Type} (ev : Event) (r : Result A) : Eff A :=
  fun tr =>
    (match r with
     | Resolved a => Returned a
     | Rejected reason => Thrown (JsError reason)
     end, tr ++ [ev]).

Definition is_close (ev : Event) : bool :=
  match ev with Close => true | _ => false end.

Definition count_close (tr : list Event) : nat :=
  List.length (filter is_close tr).

Definition await_close (w : World) : Eff unit :=
  fun tr => await Close (browser_close w (count_close tr)) tr.

Definition createError (statusCode : Z) (message : string) : Error :=
  H3Error statusCode message.

(** Lines 97-155 of the handler, from the parsed request on. *)
Definition handler (w : World) (req : Request) : Eff Response :=
  _ <- await Launch (puppeteer_launch w) ;;
  try_catch
    (_ <- await NewPage (browser_newPage w) ;;
     _ <- await (SetViewport (req_width req) 0)
            (page_setViewport w (req_width req) 0) ;;
     _ <- await (Goto (req_url req)) (page_goto w (req_url req)) ;;
     screenshotBuffer <-
       await (Screenshot true)
         (page_screenshot w (req_url req) (req_width req) 0 true) ;;
     let finalScreenshot := composite screenshotBuffer (req_points req) in
     _ <- await_close w ;;
     ret (mkResponse finalScreenshot true))
    (fun error =>
       _ <- await_close w ;;
       throw (createError 500 "Failed to capture screenshot")).

(** The whole handler: the body is parsed first, and a body the schema
    refuses makes [parse] throw before any call to the browser. *)
Definition eventHandler (w : World) (body : Json) : Eff Response :=
  match renderWebPageSchema_parse body with
  | Some req => handler w req
  | None => throw (JsError "ZodError")
  end.

(** Running the handler from an empty trace. *)
Definition run (w : World) (req : Request) : Outcome Response * list Event :=
  handler w req [].

(* ================================================================== *)
(** * Part I, continued: the page that calls the handler *)
(* ================================================================== *)

(** [app/pages/index.vue]: what the page sends to [/api/render-web-page],
    its countdown and its statistics. *)

(** A point [{x, y}] of the body. *)
Definition point_json (point : Point) : Json :=
  JObject [("x"%string, JNumber (point_x point));
           ("y"%string, JNumber (point_y point))].

(** The body of the first call of [startTracking] (lines 49-56). *)
Definition screenshot_body (currentSite : string) (windowWidth : R) : Json :=
  JObject [("url"%string, JString currentSite);
           ("width"%string, JNumber windowWidth);
           ("height"%string, JNumber 10000)].

(** The body of the call made when the tracking ends (lines 81-88). *)
Definition results_body (currentSite : string) (windowWidth : R)
    (results : list Point) : Json :=
  JObject [("url"%string, JString currentSite);
           ("width"%string, JNumber windowWidth);
           ("height"%string, JNumber 10000);
           ("points"%string, JArray (map point_json results))].

(** The callback of [setInterval] (lines 97-103), on [currentTimeLeft]:
    [currentTimeLeft.value -= 1] is a subtraction of [number]s, so its
    result is rounded; once the value is not positive the interval is
    cleared and the value stays. *)
Definition tick (currentTimeLeft : R) : R :=
  if Rlt_dec 0 currentTimeLeft then binary64 (currentTimeLeft - 1)
  else currentTimeLeft.

Fixpoint ticks (k : nat) (currentTimeLeft : R) : R :=
  match k with
  | O => currentTimeLeft
  | Datatypes.S k' => ticks k' (tick currentTimeLeft)
  end.

(** An integer in a template string: its decimal digits, with a sign when
    negative (integers below 10^21 in magnitude print so). *)
Definition string_of_integer (n : Z) : string :=
  DecimalString.NilZero.string_of_int (Z.to_int n).

(** The key of a point in [stats.uniqueAreas]: the two indices
    [Math.floor(p.x / 100)] and [Math.floor(p.y / 100)], each quotient a
    [number], joined by a dash. *)
Definition area_key (point : Point) : string :=
  (string_of_integer (Math_floor (binary64 (point_x point / 100))) ++ "-"
   ++ string_of_integer (Math_floor (binary64 (point_y point / 100))))%string.

(** [stats.totalPoints] and [stats.uniqueAreas]; the size of the [Set] is
    the number of distinct keys. *)
Definition totalPoints (results : list Point) : nat := List.length results.

Definition uniqueAreas (results : list Point) : nat :=
  List.length (nodup string_dec (map area_key results)).

(* ================================================================== *)
(** * Part I, continued: the density accumulator on binary64 *)
(* ================================================================== *)

(** The accumulator of lines 45-68 once more, on IEEE-754 binary64 numbers
    and with the rounding of the [Float32Array] store. *)
Module IEEE.
Import PrimFloat.
Local Open Scope float_scope.
#[local] Set Warnings "-inexact-float".

Record Point := mkPoint { point_x : float; point_y : float }.

(** A loop counter, an integer in [0, 2^53), as a number. *)
Definition of_index (i : Z) : float := of_uint63 (Uint63Axioms.of_Z i).

(** [Math.floor]; no integer for NaN and the infinities. *)
Definition Math_floor (v : float) : option Z :=
  match FloatOps.Prim2SF v with
  | SpecFloat.S754_zero _ => Some 0%Z
  | SpecFloat.S754_finite s m e =>
      Some (Z.shiftl (if s then Z.neg m else Z.pos m) e)
  | _ => None
  end.

(** The rounding to binary32 of a store into a [Float32Array]. *)
Definition Math_fround (v : float) : float :=
  match FloatOps.Prim2SF v with
  | SpecFloat.S754_finite s m e =>
      FloatOps.SF2Prim (SpecFloat.binary_round 24 128 s m e)
  | _ => v
  end.

Definition Math_min (a b : float) : float :=
  if (is_nan a || is_nan b)%bool then nan
  else if a <? b then a else b.

Definition radius : float := 30.
Definition maxPointsPerPixel : float := 5.

Definition accumulate_pixel (point : Point) (width : Z) (y x : Z)
    (intensityMap : list float) : list float :=
  let dx := point_x point - of_index x in
  let dy := point_y point - of_index y in
  let distance := sqrt (dx * dx + dy * dy) in
  if distance <? radius then
    let intensity := (1 - distance / radius) * 0.4 in
    let index := (y * width + x)%Z in
    array_set intensityMap index
      (Math_fround
         (Math_min (array_get 0 intensityMap index + intensity)
            maxPointsPerPixel))
  else intensityMap.

(** The body of [points.forEach].  A bound that is NaN or infinite leaves
    the loops without a single iteration. *)
Definition accumulate_point (width height : Z) (intensityMap : list float)
    (point : Point) : list float :=
  match Math_floor (point_x point - radius),
        Math_floor (point_x point + radius),
        Math_floor (point_y point - radius),
        Math_floor (point_y point + radius)
  with
  | Some fx0, Some fx1, Some fy0, Some fy1 =>
      let x0 := Z.max 0 fx0 in
      let x1 := Z.min width fx1 in
      let y0 := Z.max 0 fy0 in
      let y1 := Z.min height fy1 in
      for_range y0 y1
        (fun y => for_range x0 x1 (fun x => accumulate_pixel point width y x))
        intensityMap
  | _, _, _, _ => intensityMap
  end.

Definition accumulate (points : list Point) (width height : Z) : list float :=
  fold_left (accumulate_point width height) points
    (repeat 0 (Z.to_nat (width * height))).

Definition intensity_at (intensityMap : list float) (width x y : Z) : float :=
  array_get 0 intensityMap (y * width + x)%Z.

End IEEE.

(* ================================================================== *)
(** * Part II: vocabulary of the properties *)
(* ================================================================== *)

(** The Euclidean distance from pixel [(x, y)] to a point, as the inner
    loop computes it. *)
Definition distance (point : Point) (x y : Z) : R :=
  sqrt ((point_x point - IZR x) * (point_x point - IZR x)
        + (point_y point - IZR y) * (point_y point - IZR y)).

(** The radial falloff at distance [d]. *)
Definition falloff (d : R) : R := (1 - d / radius) * 0.4.

(** A pixel of the raster. *)
Definition in_raster (width height x y : Z) : Prop :=
  (0 <= x < width)%Z /\ (0 <= y < height)%Z.

(** The pixels the two loops of [accumulate_point] visit. *)
Definition in_loops (point : Point) (width height x y : Z) : bool :=
  ((box_x0 point <=? x) && (x <? box_x1 point width)
   && (box_y0 point <=? y) && (y <? box_y1 point height))%Z.

(** The bounding box of the specification: [p.x - 30, p.x + 30] by
    [p.y - 30, p.y + 30]. *)
Definition in_spec_box (point : Point) (x y : Z) : Prop :=
  point_x point - radius <= IZR x <= point_x point + radius /\
  point_y point - radius <= IZR y <= point_y point + radius.

(** What one visit of the inner loop does to the value of its pixel. *)
Definition pixel_update (point : Point) (x y : Z) (old : R) : R :=
  if Rlt_dec (distance point x y) radius
  then Math_min (old + falloff (distance point x y)) maxPointsPerPixel
  else old.

(** What one point adds at a pixel, before the cap. *)
Definition contribution (point : Point) (width height x y : Z) : R :=
  if in_loops point width height x y then
    if Rlt_dec (distance point x y) radius
    then falloff (distance point x y) else 0
  else 0.

Definition sum_R (l : list R) : R := fold_right Rplus 0 l.

(** The value of the intensity map at pixel [(x, y)]. *)
Definition intensity_at (intensityMap : list R) (width x y : Z) : R :=
  array_get 0 intensityMap (y * width + x)%Z.

(** A map of the size of the raster. *)
Definition well_sized (width height : Z) (m : list R) : Prop :=
  List.length m = Z.to_nat (width * height).

(** Every value of a map within the accumulator's range. *)
Definition within_cap (intensityMap : list R) : Prop :=
  Forall (fun v => 0 <= v <= maxPointsPerPixel) intensityMap.

(** What the visits of one point do to the value [old] of pixel [(x, y)]. *)
Definition point_update (width height x y : Z) (old : R) (point : Point) : R :=
  if in_loops point width height x y then pixel_update point x y old else old.

(** The accumulator's step seen as "add, then cap". *)
Definition add_capped (width height x y : Z) (old : R) (point : Point) : R :=
  Math_min (old + contribution point width height x y) maxPointsPerPixel.

(** What a single point, accumulated alone, leaves at pixel [(x, y)]. *)
Definition single_point_intensity (width height x y : Z) (point : Point) : R :=
  intensity_at (accumulate [point] width height) width x y.

(** A point with a fractional coordinate, used on a raster of 62 by 1. *)
Definition edge_point : Point := mkPoint 30.75 0.

(** The pixel of the overlay's [ImageData] for entry [i] of a map. *)
Definition overlay_pixel (intensityMap : list R) (width height i : Z) : RGBA :=
  array_get transparent
    (image_data (colorize intensityMap (createImageData width height))) i.

(** A channel value that fits a byte, and a pixel made of such values. *)
Definition is_byte (c : Z) : Prop := (0 <= c <= 255)%Z.

Definition valid_pixel (p : RGBA) : Prop :=
  is_byte (red p) /\ is_byte (green p) /\ is_byte (blue p) /\ is_byte (alpha p).

(** A decoded image: non-negative dimensions, one valid pixel per position. *)
Definition valid_image (image : Image) : Prop :=
  (0 <= img_width image)%Z /\ (0 <= img_height image)%Z /\
  List.length (img_pixels image)
    = Z.to_nat (img_width image * img_height image) /\
  Forall valid_pixel (img_pixels image).

(** The fully transparent image of the given dimensions. *)
Definition transparent_image (width height : Z) : Image :=
  mkImage width height (repeat transparent (Z.to_nat (width * height))).

(** A one-pixel screenshot. *)
Definition sample_screenshot : Image := mkImage 1 1 [mkRGBA 10 20 30 255].

(** The failure response of the [catch] block. *)
Definition generic_failure : Error :=
  createError 500 "Failed to capture screenshot".

(** A world in which every call resolves. *)
Definition healthy_world : World :=
  mkWorld (Resolved tt) (Resolved tt) (fun _ _ => Resolved tt)
    (fun _ => Resolved tt) (fun _ _ _ _ => Resolved sample_screenshot)
    (fun _ => Resolved tt).

(** A world in which the browser cannot be started. *)
Definition launch_failure_world : World :=
  mkWorld (Rejected "Failed to launch the browser process: /usr/bin/chromium-browser")
    (Resolved tt) (fun _ _ => Resolved tt)
    (fun _ => Resolved tt) (fun _ _ _ _ => Resolved sample_screenshot)
    (fun _ => Resolved tt).


Definition sample_request (height : R) : Request :=
  mkRequest "https://example.test" 800 height None.

Definition sample_body (height : R) : Json :=
  JObject [("url"%string, JString "https://example.test");
           ("width"%string, JNumber 800);
           ("height"%string, JNumber height)].

(** The calls of a trace that fix what is captured ask for a viewport of
    height 0 and for the full page. *)
Definition captures_full_page (ev : Event) : Prop :=
  match ev with
  | SetViewport _ h => h = 0
  | Screenshot full => full = true
  | _ => True
  end.

(** The page calls of the [try] block all resolve. *)
Definition page_calls_resolve (w : World) (req : Request) : Prop :=
  browser_newPage w = Resolved tt /\
  page_setViewport w (req_width req) 0 = Resolved tt /\
  page_goto w (req_url req) = Resolved tt /\
  exists buffer,
    page_screenshot w (req_url req) (req_width req) 0 true = Resolved buffer.

(** The calls made up to the capture, in order. *)
Definition page_call_sequence (req : Request) : list Event :=
  [Launch; NewPage; SetViewport (req_width req) 0; Goto (req_url req);
   Screenshot true].

(** A world in which the first [browser.close()] rejects. *)
Definition first_close_fails_world : World :=
  mkWorld (Resolved tt) (Resolved tt) (fun _ _ => Resolved tt)
    (fun _ => Resolved tt) (fun _ _ _ _ => Resolved sample_screenshot)
    (fun n => match n with
              | O => Rejected "Protocol error: target closed"
              | _ => Resolved tt
              end).




(** Whether a call resolved, and whether the call at position [i] of
    [page_call_sequence] resolves in a world. *)
Definition is_resolved {A : Type} (r : Result A) : bool :=
  match r with Resolved _ => true | Rejected _ => false end.

Definition call_resolves (w : World) (req : Request) (i : nat) : bool :=
  match i with
  | 0%nat => is_resolved (puppeteer_launch w)
  | 1%nat => is_resolved (browser_newPage w)
  | 2%nat => is_resolved (page_setViewport w (req_width req) 0)
  | 3%nat => is_resolved (page_goto w (req_url req))
  | _ => is_resolved (page_screenshot w (req_url req) (req_width req) 0 true)
  end.

(** A screenshot of one row of 62 opaque pixels. *)
Definition sample_row : Image := mkImage 62 1 (repeat (mkRGBA 10 20 30 255) 62).

(** The pair of indices the page computes for a point: the floors of the
    two quotients by 100, each quotient rounded as the division of
    [number]s rounds it. *)
Definition cell (point : Point) : Z * Z :=
  (Math_floor (binary64 (point_x point / 100)),
   Math_floor (binary64 (point_y point / 100))).

Definition cell_dec (a b : Z * Z) : {a = b} + {a <> b}.
Proof. decide equality; apply Z.eq_dec. Defined.

(** Coordinates whose cell indices a template string prints in plain
    decimal digits. *)
Definition prints_in_decimal (point : Point) : Prop :=
  - 1000000000000000000000 < point_x point < 1000000000000000000000 /\
  - 1000000000000000000000 < point_y point < 1000000000000000000000.

(** The character [-] (code 45), and a string without it. *)
Definition dash : Ascii.ascii :=
  Ascii.Ascii true false true true false true false false.

Fixpoint no_dash (s : string) : Prop :=
  match s with
  | EmptyString => True
  | String c rest => c <> dash /\ no_dash rest
  end.

(** ** The vocabulary of the accumulator with its roundings *)

(** The distance from pixel [(x, y)] to a point as
    [Rounded.accumulate_pixel] computes it. *)
Definition rounded_distance (point : Point) (x y : Z) : R :=
  let dx := binary64 (point_x point - IZR x) in
  let dy := binary64 (point_y point - IZR y) in
  binary64 (sqrt (binary64 (binary64 (dx * dx) + binary64 (dy * dy)))).

(** The falloff at a computed distance, as it is computed. *)
Definition rounded_falloff (d : R) : R :=
  binary64 (binary64 (1 - binary64 (d / radius)) * binary64 0.4).

(** The value stored for an old value and an intensity: the sum, the cap
    and the rounding of the [Float32Array]. *)
Definition store (old intensity : R) : R :=
  Math_fround (Math_min (binary64 (old + intensity)) maxPointsPerPixel).

(** The pixels the two loops of [Rounded.accumulate_point] visit. *)
Definition rounded_in_loops (point : Point) (width height x y : Z) : bool :=
  ((Rounded.box_x0 point <=? x) && (x <? Rounded.box_x1 point width)
   && (Rounded.box_y0 point <=? y) && (y <? Rounded.box_y1 point height))%Z.

Definition rounded_pixel_update (point : Point) (x y : Z) (old : R) : R :=
  if Rlt_dec (rounded_distance point x y) radius
  then store old (rounded_falloff (rounded_distance point x y))
  else old.

Definition rounded_point_update (width height x y : Z) (old : R)
    (point : Point) : R :=
  if rounded_in_loops point width height x y
  then rounded_pixel_update point x y old else old.

(** The [intensity] the code computes for a point at a pixel, 0 where the
    point does not touch the pixel. *)
Definition rounded_contribution (point : Point) (width height x y : Z) : R :=
  if rounded_in_loops point width height x y then
    if Rlt_dec (rounded_distance point x y) radius
    then rounded_falloff (rounded_distance point x y) else 0
  else 0.

(** A number that a [Float32Array] holds as it is. *)
Definition is_binary32 (v : R) : Prop := Math_fround v = v.


(** A margin above the radius that the roundings of the distance cannot
    cross. *)
Definition reach_margin : R := / 1000000000000.

(** Pixel coordinates that are binary64 numbers with their neighbours up
    to 30 away: every coordinate of a typed array is. *)
Definition exact_coordinates (x y : Z) : Prop :=
  (x <= 4503599627370496)%Z /\ (y <= 4503599627370496)%Z.

(** Machine numbers used to run [Module IEEE]. *)
Module Samples.
Import PrimFloat.
Local Open Scope float_scope.
#[local] Set Warnings "-inexact-float".

Definition origin : IEEE.Point := IEEE.mkPoint 0 0.


End Samples.

(* ================================================================== *)
(** * Part III: properties *)
(* ================================================================== *)

(** ** Loops and arrays *)

Section Loops.
Context {S : Type}.
Variable body : Z -> S -> S.

Lemma for_steps_invariant (P : Z -> S -> Prop) :
  forall n lo s,
    P lo s ->
    (forall i t, (lo <= i < lo + Z.of_nat n)%Z -> P i t -> P (i + 1)%Z (body i t)) ->
    P (lo + Z.of_nat n)%Z (for_steps n lo body s).
Proof.
  induction n as [|n IH]; intros lo s H0 Hstep.
  - simpl. now replace (lo + 0)%Z with lo by lia.
  - cbn [for_steps].
    replace (lo + Z.of_nat (Datatypes.S n))%Z with ((lo + 1) + Z.of_nat n)%Z by lia.
    apply IH.
    + apply Hstep; [lia | exact H0].
    + intros i t Hi. apply Hstep. lia.
Qed.

Lemma for_range_invariant (P : Z -> S -> Prop) lo hi s :
  (lo <= hi)%Z ->
  P lo s ->
  (forall i t, (lo <= i < hi)%Z -> P i t -> P (i + 1)%Z (body i t)) ->
  P hi (for_range lo hi body s).
Proof.
  intros Hle H0 Hstep. unfold for_range.
  replace hi with (lo + Z.of_nat (Z.to_nat (hi - lo)))%Z at 1 by lia.
  apply for_steps_invariant; [exact H0|].
  intros i t Hi. apply Hstep. lia.
Qed.

Lemma for_range_empty lo hi s :
  (hi <= lo)%Z -> for_range lo hi body s = s.
Proof.
  intros H. unfold for_range.
  replace (Z.to_nat (hi - lo)) with O by lia. reflexivity.
Qed.

Lemma for_range_preserves (P : S -> Prop) lo hi s :
  (forall i t, P t -> P (body i t)) -> P s -> P (for_range lo hi body s).
Proof.
  intros Hstep. unfold for_range.
  generalize (Z.to_nat (hi - lo)) as n. intros n; revert lo s.
  induction n as [|n IH]; intros lo s Hs; simpl; auto.
Qed.
End Loops.

Section Arrays.
Context {A : Type}.
Variable d : A.

Lemma list_set_length (a : list A) n v :
  List.length (list_set a n v) = List.length a.
Proof.
  revert n; induction a as [|h t IH]; intros [|n]; simpl; auto.
Qed.

Lemma nth_list_set_same (a : list A) n v :
  (n < List.length a)%nat -> nth n (list_set a n v) d = v.
Proof.
  revert n; induction a as [|h t IH]; intros [|n] H; simpl in *;
    try lia; auto. apply IH. lia.
Qed.

Lemma nth_list_set_other (a : list A) n m v :
  n <> m -> nth m (list_set a n v) d = nth m a d.
Proof.
  revert n m; induction a as [|h t IH]; intros [|n] [|m] H; simpl;
    try congruence; auto.
Qed.

Lemma array_set_length (a : list A) i v :
  List.length (array_set a i v) = List.length a.
Proof.
  unfold array_set. destruct (i <? 0)%Z; [reflexivity | apply list_set_length].
Qed.

Lemma array_get_set_same (a : list A) i v :
  (0 <= i < Z.of_nat (List.length a))%Z ->
  array_get d (array_set a i v) i = v.
Proof.
  intros H. unfold array_get, array_set.
  destruct (Z.ltb_spec i 0); [lia|].
  apply nth_list_set_same. lia.
Qed.

Lemma array_get_set_other (a : list A) i j v :
  (0 <= j)%Z -> i <> j ->
  array_get d (array_set a i v) j = array_get d a j.
Proof.
  intros Hj Hne. unfold array_get, array_set.
  destruct (Z.ltb_spec i 0); [reflexivity|].
  apply nth_list_set_other. lia.
Qed.

Lemma array_get_repeat (v : A) (n : nat) (i : Z) :
  array_get v (repeat v n) i = v.
Proof.
  unfold array_get. generalize (Z.to_nat i) as k.
  induction n as [|n IH]; intros [|k]; simpl; auto.
Qed.
End Arrays.

(** Row-major indices identify pixels. *)
Lemma index_bounds width height x y :
  in_raster width height x y ->
  (0 <= y * width + x < width * height)%Z.
Proof. unfold in_raster. nia. Qed.

Lemma index_injective width x y x' y' :
  (0 <= x < width)%Z -> (0 <= x' < width)%Z ->
  (y * width + x = y' * width + x')%Z -> x = x' /\ y = y'.
Proof. intros Hx Hx' H. assert (y = y') by nia. subst. lia. Qed.

(** ** The density accumulator, pixel by pixel *)

Section Accumulator.
Variables width height : Z.

Lemma accumulate_pixel_sized point y x m :
  well_sized width height m ->
  well_sized width height (accumulate_pixel point width y x m).
Proof.
  unfold well_sized, accumulate_pixel. intros H.
  destruct (Rlt_dec _ _); [rewrite array_set_length|]; exact H.
Qed.

Lemma accumulate_pixel_here point x y m :
  in_raster width height x y -> well_sized width height m ->
  intensity_at (accumulate_pixel point width y x m) width x y
  = pixel_update point x y (intensity_at m width x y).
Proof.
  intros Hin Hm. unfold accumulate_pixel, pixel_update, intensity_at.
  fold (distance point x y).
  destruct (Rlt_dec (distance point x y) radius); [|reflexivity].
  apply array_get_set_same.
  pose proof (index_bounds Hin). unfold well_sized in Hm. lia.
Qed.

Lemma accumulate_pixel_elsewhere point x y x' y' m :
  in_raster width height x y -> in_raster width height x' y' ->
  (x, y) <> (x', y') ->
  intensity_at (accumulate_pixel point width y x m) width x' y'
  = intensity_at m width x' y'.
Proof.
  intros Hin Hin' Hne. unfold accumulate_pixel, intensity_at.
  destruct (Rlt_dec _ _); [|reflexivity].
  apply array_get_set_other.
  - pose proof (index_bounds Hin'). lia.
  - intros Heq. apply Hne.
    destruct Hin as [Hx _], Hin' as [Hx' _].
    destruct (index_injective y y' Hx Hx' Heq). congruence.
Qed.

(** One row of the inner loop. *)
Lemma accumulate_row point y lo hi m :
  (0 <= lo)%Z -> (hi <= width)%Z -> (0 <= y < height)%Z -> well_sized width height m ->
  let m' := for_range lo hi (fun x => accumulate_pixel point width y x) m in
  well_sized width height m' /\
  forall x' y', in_raster width height x' y' ->
    intensity_at m' width x' y'
    = if ((y' =? y) && (lo <=? x') && (x' <? hi))%Z
      then pixel_update point x' y' (intensity_at m width x' y')
      else intensity_at m width x' y'.
Proof.
  intros Hlo Hhi Hy Hm. cbv zeta.
  destruct (Z.le_gt_cases lo hi) as [Hle|Hgt].
  - apply (for_range_invariant
             (fun x => accumulate_pixel point width y x)
             (fun i t => well_sized width height t /\
                forall x' y', in_raster width height x' y' ->
                  intensity_at t width x' y'
                  = if ((y' =? y) && (lo <=? x') && (x' <? i))%Z
                    then pixel_update point x' y' (intensity_at m width x' y')
                    else intensity_at m width x' y')); [exact Hle| |].
    + split; [exact Hm|]. intros x' y' _.
      destruct (y' =? y)%Z, (Z.leb_spec lo x'), (Z.ltb_spec x' lo);
        simpl; try reflexivity; lia.
    + intros i t Hi [Ht Hinv]. split; [now apply accumulate_pixel_sized|].
      intros x' y' Hin'.
      assert (Hini : in_raster width height i y) by (unfold in_raster; lia).
      destruct (Z.eq_dec x' i) as [->|Hxi];
        [destruct (Z.eq_dec y' y) as [->|Hyy]|].
      * rewrite accumulate_pixel_here by assumption.
        rewrite Hinv by assumption.
        rewrite Z.eqb_refl.
        destruct (Z.leb_spec lo i), (Z.ltb_spec i i), (Z.ltb_spec i (i + 1));
          simpl; try lia. reflexivity.
      * rewrite accumulate_pixel_elsewhere by (try assumption; congruence).
        rewrite Hinv by assumption.
        destruct (Z.eqb_spec y' y); [contradiction|]. reflexivity.
      * rewrite accumulate_pixel_elsewhere by (try assumption; congruence).
        rewrite Hinv by assumption.
        destruct (y' =? y)%Z, (Z.leb_spec lo x'), (Z.ltb_spec x' i),
          (Z.ltb_spec x' (i + 1)); simpl; try reflexivity; lia.
  - rewrite for_range_empty by lia. split; [exact Hm|].
    intros x' y' _.
    destruct (y' =? y)%Z, (Z.leb_spec lo x'), (Z.ltb_spec x' hi);
      simpl; try reflexivity; lia.
Qed.

Lemma box_x0_nonneg point : (0 <= box_x0 point)%Z.
Proof. unfold box_x0. lia. Qed.

Lemma box_y0_nonneg point : (0 <= box_y0 point)%Z.
Proof. unfold box_y0. lia. Qed.

Lemma box_x1_le point : (box_x1 point width <= width)%Z.
Proof. unfold box_x1. lia. Qed.

Lemma box_y1_le point : (box_y1 point height <= height)%Z.
Proof. unfold box_y1. lia. Qed.

(** One point: the pixels the loops visit are updated once, the others
    keep their value. *)
Lemma accumulate_point_spec point m :
  well_sized width height m ->
  well_sized width height (accumulate_point width height m point) /\
  forall x y, in_raster width height x y ->
    intensity_at (accumulate_point width height m point) width x y
    = if in_loops point width height x y
      then pixel_update point x y (intensity_at m width x y)
      else intensity_at m width x y.
Proof.
  intros Hm. unfold accumulate_point. cbv zeta.
  set (x0 := box_x0 point). set (x1 := box_x1 point width).
  set (y0 := box_y0 point). set (y1 := box_y1 point height).
  pose proof (box_x0_nonneg point) as Hx0.
  pose proof (box_y0_nonneg point) as Hy0.
  pose proof (box_x1_le point) as Hx1.
  pose proof (box_y1_le point) as Hy1.
  fold x0 in Hx0. fold y0 in Hy0. fold x1 in Hx1. fold y1 in Hy1.
  assert (Hgoal : forall hi, (hi <= height)%Z ->
    let m' := for_range y0 hi
                (fun y => for_range x0 x1
                            (fun x => accumulate_pixel point width y x)) m in
    well_sized width height m' /\
    forall x y, in_raster width height x y ->
      intensity_at m' width x y
      = if ((x0 <=? x) && (x <? x1) && (y0 <=? y) && (y <? hi))%Z
        then pixel_update point x y (intensity_at m width x y)
        else intensity_at m width x y).
  { intros hi Hhi. cbv zeta.
    destruct (Z.le_gt_cases y0 hi) as [Hle|Hgt].
    - apply (for_range_invariant
               (fun y => for_range x0 x1
                           (fun x => accumulate_pixel point width y x))
               (fun i t => well_sized width height t /\
                  forall x y, in_raster width height x y ->
                    intensity_at t width x y
                    = if ((x0 <=? x) && (x <? x1) && (y0 <=? y) && (y <? i))%Z
                      then pixel_update point x y (intensity_at m width x y)
                      else intensity_at m width x y)); [exact Hle| |].
      + split; [exact Hm|]. intros x y _.
        destruct (x0 <=? x)%Z, (x <? x1)%Z, (Z.leb_spec y0 y), (Z.ltb_spec y y0);
          simpl; try reflexivity; lia.
      + intros i t Hi [Ht Hinv].
        destruct (@accumulate_row point i x0 x1 t) as [Hs Hrow];
          try assumption; try lia.
        split; [exact Hs|]. intros x y Hin.
        rewrite Hrow by assumption. rewrite Hinv by assumption.
        destruct (Z.eqb_spec y i) as [->|Hne].
        * destruct (Z.leb_spec x0 x), (Z.ltb_spec x x1), (Z.leb_spec y0 i),
            (Z.ltb_spec i i), (Z.ltb_spec i (i + 1)); simpl;
            try reflexivity; lia.
        * destruct (Z.leb_spec x0 x), (Z.ltb_spec x x1), (Z.leb_spec y0 y),
            (Z.ltb_spec y i), (Z.ltb_spec y (i + 1)); simpl;
            try reflexivity; lia.
    - rewrite for_range_empty by lia. split; [exact Hm|].
      intros x y _.
      destruct (x0 <=? x)%Z, (x <? x1)%Z, (Z.leb_spec y0 y), (Z.ltb_spec y hi);
        simpl; try reflexivity; lia. }
  exact (Hgoal y1 Hy1).
Qed.
End Accumulator.

(** ** The falloff *)

Lemma distance_nonneg point x y : 0 <= distance point x y.
Proof. apply sqrt_pos. Qed.

Lemma falloff_range d :
  0 <= d < radius -> 0 < falloff d <= 0.4.
Proof. unfold falloff, radius. intros H. lra. Qed.

Lemma falloff_decreasing d1 d2 :
  d1 < d2 -> falloff d2 < falloff d1.
Proof. unfold falloff, radius. intros H. lra. Qed.

Lemma pixel_update_range point x y old :
  0 <= old <= maxPointsPerPixel ->
  0 <= pixel_update point x y old <= maxPointsPerPixel.
Proof.
  intros H. unfold pixel_update.
  destruct (Rlt_dec (distance point x y) radius) as [Hd|Hd]; [|exact H].
  pose proof (falloff_range (conj (distance_nonneg point x y) Hd)) as Hf.
  unfold Math_min, Rmin, maxPointsPerPixel in *.
  destruct (Rle_dec _ _); lra.
Qed.

Lemma contribution_range point width height x y :
  0 <= contribution point width height x y <= 0.4.
Proof.
  unfold contribution.
  destruct (in_loops _ _ _ _ _); [|lra].
  destruct (Rlt_dec (distance point x y) radius) as [Hd|Hd]; [|lra].
  pose proof (falloff_range (conj (distance_nonneg point x y) Hd)). lra.
Qed.

(** ** The accumulator stays within its cap *)

Lemma within_cap_get m i :
  within_cap m -> 0 <= array_get 0 m i <= maxPointsPerPixel.
Proof.
  unfold within_cap, array_get. intros H.
  generalize (Z.to_nat i) as n. induction H as [|v t Hv Ht IH]; intros [|n]; simpl;
    try (unfold maxPointsPerPixel; lra); auto.
Qed.

Lemma within_cap_set m i v :
  within_cap m -> 0 <= v <= maxPointsPerPixel -> within_cap (array_set m i v).
Proof.
  unfold within_cap, array_set. intros H Hv.
  destruct (i <? 0)%Z; [exact H|].
  generalize (Z.to_nat i) as n. induction H as [|w t Hw Ht IH]; intros [|n]; simpl;
    constructor; auto.
Qed.

Lemma within_cap_new n : within_cap (new_Float32Array n).
Proof.
  unfold within_cap, new_Float32Array. apply Forall_forall.
  intros v Hv. apply repeat_spec in Hv. subst. unfold maxPointsPerPixel. lra.
Qed.

Lemma accumulate_pixel_within_cap point width y x m :
  within_cap m -> within_cap (accumulate_pixel point width y x m).
Proof.
  intros H. unfold accumulate_pixel.
  match goal with |- context [Rlt_dec ?d radius] =>
    destruct (Rlt_dec d radius) as [Hd|Hd]; [|exact H];
    assert (Hd0 : 0 <= d) by apply sqrt_pos
  end.
  apply within_cap_set; [exact H|].
  pose proof (within_cap_get (y * width + x)%Z H) as Hg.
  match goal with |- context [(1 - ?d / radius) * 0.4] =>
    pose proof (@falloff_range d (conj Hd0 Hd)) as Hf; unfold falloff in Hf
  end.
  unfold Math_min, Rmin, maxPointsPerPixel in *.
  destruct (Rle_dec _ _); lra.
Qed.

Lemma accumulate_point_within_cap width height m point :
  within_cap m -> within_cap (accumulate_point width height m point).
Proof.
  intros H. unfold accumulate_point. cbv zeta.
  apply for_range_preserves; [|exact H].
  intros y t Ht. apply for_range_preserves; [|exact Ht].
  intros x u Hu. now apply accumulate_pixel_within_cap.
Qed.

Lemma fold_accumulate_within_cap width height points m :
  within_cap m -> within_cap (fold_left (accumulate_point width height) points m).
Proof.
  revert m. induction points as [|p ps IH]; intros m H; simpl; [exact H|].
  apply IH. now apply accumulate_point_within_cap.
Qed.

(** C2. For every point list, every raster and every index, the value of
    the intensity map lies in [0, 5] once all points are processed; and the
    bound is kept by every single update: by the update of one pixel and by
    the processing of one point, from any map within the bound. *)
Theorem intensity_within_cap :
  forall (points : list Point) (width height : Z),
    within_cap (accumulate points width height) /\
    (forall i, 0 <= array_get 0 (accumulate points width height) i <= 5) /\
    (forall m point, within_cap m ->
       within_cap (accumulate_point width height m point)) /\
    (forall m point y x, within_cap m ->
       within_cap (accumulate_pixel point width y x m)).
Proof.
  intros points width height.
  assert (H : within_cap (accumulate points width height)).
  { unfold accumulate. apply fold_accumulate_within_cap, within_cap_new. }
  repeat split.
  - exact H.
  - apply (within_cap_get i H).
  - apply (within_cap_get i H).
  - intros m point. apply accumulate_point_within_cap.
  - intros m point y x. apply accumulate_pixel_within_cap.
Qed.

(** ** The accumulator as a fold over the points *)

Lemma new_Float32Array_sized width height :
  well_sized width height (new_Float32Array (width * height)).
Proof. unfold well_sized, new_Float32Array. apply repeat_length. Qed.

Lemma fold_accumulate_spec width height points :
  forall m, well_sized width height m ->
    well_sized width height (fold_left (accumulate_point width height) points m) /\
    forall x y, in_raster width height x y ->
      intensity_at (fold_left (accumulate_point width height) points m) width x y
      = fold_left (point_update width height x y) points (intensity_at m width x y).
Proof.
  induction points as [|p ps IH]; intros m Hm; simpl.
  - split; [exact Hm | reflexivity].
  - destruct (accumulate_point_spec p Hm) as [Hs Hp].
    destruct (IH _ Hs) as [Hs' Hfold]. split; [exact Hs'|].
    intros x y Hin. rewrite Hfold by assumption. rewrite Hp by assumption.
    reflexivity.
Qed.

Lemma accumulate_at points width height x y :
  in_raster width height x y ->
  intensity_at (accumulate points width height) width x y
  = fold_left (point_update width height x y) points 0.
Proof.
  intros Hin. unfold accumulate.
  destruct (fold_accumulate_spec points (new_Float32Array_sized width height))
    as [_ H].
  rewrite H by assumption. f_equal.
  unfold intensity_at, new_Float32Array. apply array_get_repeat.
Qed.

Lemma point_update_add_capped width height x y old point :
  0 <= old <= maxPointsPerPixel ->
  point_update width height x y old point = add_capped width height x y old point.
Proof.
  intros H. unfold point_update, add_capped, contribution, pixel_update.
  unfold Math_min, Rmin, maxPointsPerPixel in *.
  destruct (in_loops _ _ _ _ _);
    [destruct (Rlt_dec (distance point x y) radius)|];
    destruct (Rle_dec _ _); lra.
Qed.

Lemma point_update_range width height x y old point :
  0 <= old <= maxPointsPerPixel ->
  0 <= point_update width height x y old point <= maxPointsPerPixel.
Proof.
  intros H. unfold point_update.
  destruct (in_loops _ _ _ _ _); [now apply pixel_update_range | exact H].
Qed.

Lemma sum_R_nonneg l : Forall (fun v => 0 <= v) l -> 0 <= sum_R l.
Proof. induction 1; simpl; lra. Qed.

Lemma Rmin_cap_absorb a c :
  0 <= c -> Rmin (Rmin a 5 + c) 5 = Rmin (a + c) 5.
Proof. intros H. unfold Rmin. repeat destruct (Rle_dec _ _); lra. Qed.

(** Capping after every addition is capping the total once. *)
Lemma fold_point_update_sum width height x y points :
  forall a, 0 <= a ->
    fold_left (point_update width height x y) points (Rmin a 5)
    = Rmin (a + sum_R (map (fun p => contribution p width height x y) points)) 5.
Proof.
  induction points as [|p ps IH]; intros a Ha; simpl.
  - f_equal. lra.
  - pose proof (contribution_range p width height x y) as Hc.
    rewrite point_update_add_capped
      by (unfold maxPointsPerPixel, Rmin; destruct (Rle_dec _ _); lra).
    unfold add_capped, Math_min, maxPointsPerPixel.
    rewrite Rmin_cap_absorb by lra.
    rewrite IH by lra. f_equal. lra.
Qed.

Lemma accumulate_sum points width height x y :
  in_raster width height x y ->
  intensity_at (accumulate points width height) width x y
  = Rmin (sum_R (map (fun p => contribution p width height x y) points)) 5.
Proof.
  intros Hin. rewrite accumulate_at by assumption.
  replace 0 with (Rmin 0 5) at 1 by (unfold Rmin; destruct (Rle_dec _ _); lra).
  rewrite fold_point_update_sum by lra. f_equal. lra.
Qed.

Lemma single_point_contribution width height x y point :
  in_raster width height x y ->
  single_point_intensity width height x y point
  = contribution point width height x y.
Proof.
  intros Hin. unfold single_point_intensity.
  rewrite accumulate_sum by assumption. simpl.
  pose proof (contribution_range point width height x y).
  unfold Rmin. destruct (Rle_dec _ _); lra.
Qed.


Lemma sum_R_repeat c n : sum_R (repeat c n) = INR n * c.
Proof.
  induction n as [|n IH]; [simpl; lra|].
  change (repeat c (Datatypes.S n)) with (c :: repeat c n).
  cbn [sum_R fold_right]. fold (sum_R (repeat c n)). rewrite IH, S_INR. lra.
Qed.

Lemma map_repeat {A B : Type} (f : A -> B) a n :
  map f (repeat a n) = repeat (f a) n.
Proof. induction n; simpl; congruence. Qed.

(** ** Points on a pixel *)

Lemma floor_IZR_minus (n k : Z) : Math_floor (IZR n - IZR k) = (n - k)%Z.
Proof.
  unfold Math_floor. apply Zfloor_eq. rewrite minus_IZR. lra.
Qed.

Lemma floor_IZR_plus (n k : Z) : Math_floor (IZR n + IZR k) = (n + k)%Z.
Proof.
  unfold Math_floor. apply Zfloor_eq. rewrite plus_IZR. lra.
Qed.

Lemma box_of_integer_point (px py : Z) width height :
  box_x0 (mkPoint (IZR px) (IZR py)) = Z.max 0 (px - 30) /\
  box_x1 (mkPoint (IZR px) (IZR py)) width = Z.min width (px + 30) /\
  box_y0 (mkPoint (IZR px) (IZR py)) = Z.max 0 (py - 30) /\
  box_y1 (mkPoint (IZR px) (IZR py)) height = Z.min height (py + 30).
Proof.
  unfold box_x0, box_x1, box_y0, box_y1, radius. cbn [point_x point_y].
  now rewrite !floor_IZR_minus, !floor_IZR_plus.
Qed.

Lemma distance_to_self (x y : Z) :
  distance (mkPoint (IZR x) (IZR y)) x y = 0.
Proof.
  unfold distance. cbn [point_x point_y].
  replace ((IZR x - IZR x) * (IZR x - IZR x) + (IZR y - IZR y) * (IZR y - IZR y))
    with 0 by lra.
  apply sqrt_0.
Qed.

Lemma contribution_at_center width height x y :
  in_raster width height x y ->
  contribution (mkPoint (IZR x) (IZR y)) width height x y = 0.4.
Proof.
  intros [Hx Hy]. unfold contribution, in_loops.
  destruct (box_of_integer_point x y width height) as (-> & -> & -> & ->).
  destruct (Z.leb_spec (Z.max 0 (x - 30)) x); [|lia].
  destruct (Z.ltb_spec x (Z.min width (x + 30))); [|lia].
  destruct (Z.leb_spec (Z.max 0 (y - 30)) y); [|lia].
  destruct (Z.ltb_spec y (Z.min height (y + 30))); [|lia].
  cbn [andb]. rewrite distance_to_self.
  unfold falloff, radius. destruct (Rlt_dec 0 30); lra.
Qed.

(** ** A single point *)

Lemma floor_eval v (n : Z) : IZR n <= v < IZR n + 1 -> Math_floor v = n.
Proof. apply Zfloor_eq. Qed.

Lemma sqrt_lt_bound a b : 0 <= b -> sqrt a < b -> a < b * b.
Proof.
  intros Hb H. destruct (Rlt_le_dec a (b * b)) as [Hlt|Hge]; [exact Hlt|].
  apply sqrt_le_1_alt in Hge. rewrite sqrt_square in Hge by exact Hb. lra.
Qed.

Lemma sqrt_bound_lt a b : 0 <= a -> 0 < b -> a < b * b -> sqrt a < b.
Proof.
  intros Ha Hb H. rewrite <- (sqrt_square b) by lra.
  apply sqrt_lt_1_alt. lra.
Qed.

(** Beyond the radius a single point leaves nothing, wherever it lies. *)
Lemma single_point_far width height x y point :
  in_raster width height x y ->
  radius <= distance point x y ->
  single_point_intensity width height x y point = 0.
Proof.
  intros Hin Hd. rewrite single_point_contribution by assumption.
  unfold contribution. destruct (in_loops _ _ _ _ _); [|reflexivity].
  destruct (Rlt_dec _ _); [lra | reflexivity].
Qed.

(** Within the loops a single point leaves the falloff of the distance. *)
Lemma single_point_near width height x y point :
  in_raster width height x y ->
  in_loops point width height x y = true ->
  distance point x y < radius ->
  single_point_intensity width height x y point = falloff (distance point x y).
Proof.
  intros Hin Hl Hd. rewrite single_point_contribution by assumption.
  unfold contribution. rewrite Hl. destruct (Rlt_dec _ _); [reflexivity | lra].
Qed.

(** Pixels the loops do not visit keep the value they had. *)
Lemma single_point_unvisited width height x y point :
  in_raster width height x y ->
  in_loops point width height x y = false ->
  single_point_intensity width height x y point = 0.
Proof.
  intros Hin Hl. rewrite single_point_contribution by assumption.
  unfold contribution. now rewrite Hl.
Qed.

(** The column [Math.floor(p.x + 30)] is never visited, whatever the
    distance of its pixels. *)
Lemma last_column_skipped width height x y point :
  in_raster width height x y ->
  x = Math_floor (point_x point + radius) ->
  in_loops point width height x y = false /\
  single_point_intensity width height x y point = 0.
Proof.
  intros Hin Hx.
  assert (Hl : in_loops point width height x y = false).
  { unfold in_loops, box_x1. rewrite <- Hx.
    destruct (Z.ltb_spec x (Z.min width x)); [lia|].
    now rewrite Bool.andb_false_r. }
  split; [exact Hl | now apply single_point_unvisited].
Qed.

(** A point with integer coordinates: every pixel of the raster within the
    radius is visited by the loops. *)
Lemma integer_point_visits (px py : Z) width height x y :
  in_raster width height x y ->
  distance (mkPoint (IZR px) (IZR py)) x y < radius ->
  in_loops (mkPoint (IZR px) (IZR py)) width height x y = true.
Proof.
  intros [Hx Hy] Hd. unfold distance, radius in Hd. cbn [point_x point_y] in Hd.
  apply sqrt_lt_bound in Hd; [|lra].
  rewrite <- !minus_IZR, <- !mult_IZR, <- plus_IZR in Hd.
  replace (30 * 30) with (IZR 900) in Hd by (simpl; lra).
  apply lt_IZR in Hd.
  assert (Hsq : forall a b : Z, (a * a + b * b < 900 -> -30 < a < 30)%Z).
  { intros a b Hab. assert (0 <= b * b)%Z by nia.
    split; apply Z.nle_gt; intros Hc;
      [assert (900 <= (- a) * (- a))%Z by (apply (Z.mul_le_mono_nonneg 30 (- a) 30 (- a)); lia)
      |assert (900 <= a * a)%Z by (apply (Z.mul_le_mono_nonneg 30 a 30 a); lia)];
      nia. }
  assert (Hdx : (-30 < px - x < 30)%Z) by (apply (Hsq _ (py - y)%Z); lia).
  assert (Hdy : (-30 < py - y < 30)%Z) by (apply (Hsq _ (px - x)%Z); lia).
  unfold in_loops.
  destruct (box_of_integer_point px py width height) as (-> & -> & -> & ->).
  destruct (Z.leb_spec (Z.max 0 (px - 30)) x); [|lia].
  destruct (Z.ltb_spec x (Z.min width (px + 30))); [|lia].
  destruct (Z.leb_spec (Z.max 0 (py - 30)) y); [|lia].
  destruct (Z.ltb_spec y (Z.min height (py + 30))); [|lia].
  reflexivity.
Qed.

(** For a point with integer coordinates the radial profile is the one
    intended: strictly decreasing within the radius, zero beyond. *)
Lemma integer_point_profile (px py : Z) width height :
  let point := mkPoint (IZR px) (IZR py) in
  forall x y x' y',
    in_raster width height x y -> in_raster width height x' y' ->
    (radius <= distance point x y ->
     single_point_intensity width height x y point = 0) /\
    (distance point x y < distance point x' y' ->
     distance point x y < radius ->
     single_point_intensity width height x' y' point
     < single_point_intensity width height x y point).
Proof.
  intros point x y x' y' Hin Hin'. split.
  - now apply single_point_far.
  - intros Hlt Hd.
    rewrite (single_point_near point Hin (integer_point_visits px py Hin Hd) Hd).
    destruct (Rlt_dec (distance point x' y') radius) as [Hd'|Hd'].
    + rewrite (single_point_near point Hin' (integer_point_visits px py Hin' Hd') Hd').
      now apply falloff_decreasing.
    + rewrite single_point_far by (try assumption; lra).
      apply falloff_range. split; [apply distance_nonneg | exact Hd].
Qed.

(** *** The point (30.75, 0) on a raster of 62 by 1 *)

Lemma edge_point_box :
  box_x0 edge_point = 0%Z /\ box_x1 edge_point 62 = 60%Z /\
  box_y0 edge_point = 0%Z /\ box_y1 edge_point 1 = 1%Z.
Proof.
  unfold box_x0, box_x1, box_y0, box_y1, edge_point, radius.
  cbn [point_x point_y].
  rewrite (@floor_eval (30.75 - 30) 0) by lra.
  rewrite (@floor_eval (30.75 + 30) 60) by lra.
  rewrite (@floor_eval (0 - 30) (-30)) by lra.
  rewrite (@floor_eval (0 + 30) 30) by lra.
  repeat split.
Qed.

Lemma distance_on_row (px : R) (x : Z) :
  distance (mkPoint px 0) x 0 = Rabs (px - IZR x).
Proof.
  unfold distance. cbn [point_x point_y].
  replace ((px - IZR x) * (px - IZR x) + (0 - 0) * (0 - 0))
    with ((px - IZR x)²) by (unfold Rsqr; lra).
  apply sqrt_Rsqr_abs.
Qed.

Lemma edge_point_distance_60 : distance edge_point 60 0 = 29.25.
Proof.
  unfold edge_point. rewrite distance_on_row.
  unfold Rabs. destruct (Rcase_abs (30.75 - 60)); lra.
Qed.

Lemma edge_point_distance_1 : distance edge_point 1 0 = 29.75.
Proof.
  unfold edge_point. rewrite distance_on_row.
  unfold Rabs. destruct (Rcase_abs (30.75 - 1)); lra.
Qed.

Lemma edge_point_skips_60 :
  single_point_intensity 62 1 60 0 edge_point = 0.
Proof.
  apply single_point_unvisited; [unfold in_raster; lia|].
  unfold in_loops.
  destruct edge_point_box as (-> & -> & -> & ->). reflexivity.
Qed.

Lemma edge_point_reaches_1 :
  single_point_intensity 62 1 1 0 edge_point = 1 / 300.
Proof.
  rewrite single_point_near.
  - rewrite edge_point_distance_1. unfold falloff, radius. lra.
  - unfold in_raster; lia.
  - unfold in_loops. destruct edge_point_box as (-> & -> & -> & ->). reflexivity.
  - rewrite edge_point_distance_1. unfold radius. lra.
Qed.

(** C1. On a raster of 62 by 1 the point (30.75, 0) leaves pixel (60, 0)
    untouched, although the pixel lies in the box
    [p.x - 30, p.x + 30] x [p.y - 30, p.y + 30], inside the raster, at
    distance 29.25 < 30, where the falloff is 0.01: the loop over [x] stops
    before [Math.floor(p.x + 30) = 60]. *)
Theorem edge_pixel_receives_nothing :
  in_raster 62 1 60 0 /\
  in_spec_box edge_point 60 0 /\
  distance edge_point 60 0 = 29.25 /\
  distance edge_point 60 0 < radius /\
  falloff (distance edge_point 60 0) = 0.01 /\
  in_loops edge_point 62 1 60 0 = false /\
  intensity_at (accumulate [edge_point] 62 1) 62 60 0 = 0.
Proof.
  rewrite edge_point_distance_60.
  repeat split; try (cbv [in_raster]; lia);
    try (cbv [in_spec_box edge_point radius falloff point_x point_y]; lra).
  - unfold in_loops. destruct edge_point_box as (-> & -> & -> & ->). reflexivity.
  - apply edge_point_skips_60.
Qed.

(** C7. For the single point (30.75, 0) on a raster of 62 by 1, pixel
    (60, 0), at distance 29.25, is nearer to the point than pixel (1, 0),
    at distance 29.75, both within the radius; yet the nearer pixel is left
    at 0 while the farther one gets 1/300: the intensity does not decrease
    with the distance there. *)
Theorem nearer_pixel_is_darker :
  distance edge_point 60 0 < distance edge_point 1 0 /\
  distance edge_point 1 0 < radius /\
  single_point_intensity 62 1 60 0 edge_point = 0 /\
  single_point_intensity 62 1 1 0 edge_point = 1 / 300 /\
  single_point_intensity 62 1 60 0 edge_point
  < single_point_intensity 62 1 1 0 edge_point.
Proof.
  rewrite edge_point_distance_60, edge_point_distance_1,
    edge_point_skips_60, edge_point_reaches_1.
  unfold radius. repeat split; lra.
Qed.

(** ** The colour mapper *)

Lemma colorize_pixel_length intensityMap i data :
  List.length (colorize_pixel intensityMap i data) = List.length data.
Proof.
  unfold colorize_pixel. destruct (Rlt_dec _ _); [apply array_set_length | reflexivity].
Qed.

Lemma colorize_loop_at intensityMap data :
  List.length data = List.length intensityMap ->
  forall i, (0 <= i < Z.of_nat (List.length intensityMap))%Z ->
    array_get transparent
      (for_range 0 (Z.of_nat (List.length intensityMap))
         (colorize_pixel intensityMap) data) i
    = if Rlt_dec 0 (Math_min (array_get 0 intensityMap i) 1)
      then heat_color (Math_min (array_get 0 intensityMap i) 1)
      else array_get transparent data i.
Proof.
  intros Hlen.
  set (n := Z.of_nat (List.length intensityMap)).
  assert (Hinv :
    List.length (for_range 0 n (colorize_pixel intensityMap) data)
      = List.length data /\
    forall i, (0 <= i < n)%Z ->
      array_get transparent (for_range 0 n (colorize_pixel intensityMap) data) i
      = if (i <? n)%Z
        then if Rlt_dec 0 (Math_min (array_get 0 intensityMap i) 1)
             then heat_color (Math_min (array_get 0 intensityMap i) 1)
             else array_get transparent data i
        else array_get transparent data i).
  { apply (for_range_invariant (colorize_pixel intensityMap)
             (fun k t => List.length t = List.length data /\
                forall i, (0 <= i < n)%Z ->
                  array_get transparent t i
                  = if (i <? k)%Z
                    then if Rlt_dec 0 (Math_min (array_get 0 intensityMap i) 1)
                         then heat_color (Math_min (array_get 0 intensityMap i) 1)
                         else array_get transparent data i
                    else array_get transparent data i)); [lia| |].
    - split; [reflexivity|]. intros i Hi.
      destruct (Z.ltb_spec i 0); [lia | reflexivity].
    - intros k t Hk [Ht Hinv]. split; [now rewrite colorize_pixel_length|].
      intros i Hi. destruct (Z.eq_dec i k) as [->|Hne].
      + destruct (Z.ltb_spec k (k + 1)); [|lia].
        unfold colorize_pixel.
        destruct (Rlt_dec 0 (Math_min (array_get 0 intensityMap k) 1)).
        * apply array_get_set_same. lia.
        * rewrite Hinv by assumption. destruct (Z.ltb_spec k k); [lia | reflexivity].
      + assert (Hget : array_get transparent (colorize_pixel intensityMap k t) i
                       = array_get transparent t i).
        { unfold colorize_pixel. destruct (Rlt_dec _ _); [|reflexivity].
          apply array_get_set_other; [lia | congruence]. }
        rewrite Hget, Hinv by assumption.
        destruct (Z.ltb_spec i k), (Z.ltb_spec i (k + 1)); try reflexivity; lia. }
  intros i Hi. destruct Hinv as [_ Hinv]. rewrite Hinv by assumption.
  destruct (Z.ltb_spec i n); [reflexivity | lia].
Qed.

Lemma overlay_pixel_spec intensityMap width height i :
  List.length intensityMap = Z.to_nat (width * height) ->
  (0 <= i < Z.of_nat (List.length intensityMap))%Z ->
  overlay_pixel intensityMap width height i
  = if Rlt_dec 0 (Math_min (array_get 0 intensityMap i) 1)
    then heat_color (Math_min (array_get 0 intensityMap i) 1)
    else transparent.
Proof.
  intros Hlen Hi. unfold overlay_pixel, colorize, createImageData.
  cbn [image_data]. rewrite colorize_loop_at.
  - destruct (Rlt_dec _ _); [reflexivity | apply array_get_repeat].
  - rewrite repeat_length. now symmetry.
  - exact Hi.
Qed.

Lemma round_eval v (n : Z) : IZR n - 0.5 <= v < IZR n + 0.5 -> Math_round v = n.
Proof. intros H. unfold Math_round. apply Zfloor_eq. lra. Qed.

(** Hue 0 at full saturation and half lightness is pure red. *)
Lemma hslToRgb_red : hslToRgb 0 1 0.5 = (255, 0, 0)%Z.
Proof.
  unfold hslToRgb.
  destruct (Req_dec_T 1 0) as [H|_]; [lra|].
  destruct (Rlt_dec 0.5 0.5) as [H|_]; [lra|].
  assert (Hr : hue2rgb (2 * 0.5 - (0.5 + 1 - 0.5 * 1)) (0.5 + 1 - 0.5 * 1)
                 (0 + 1 / 3) = 1).
  { unfold hue2rgb. repeat (destruct (Rlt_dec _ _)); lra. }
  assert (Hg : hue2rgb (2 * 0.5 - (0.5 + 1 - 0.5 * 1)) (0.5 + 1 - 0.5 * 1) 0 = 0).
  { unfold hue2rgb. repeat (destruct (Rlt_dec _ _)); lra. }
  assert (Hb : hue2rgb (2 * 0.5 - (0.5 + 1 - 0.5 * 1)) (0.5 + 1 - 0.5 * 1)
                 (0 - 1 / 3) = 0).
  { unfold hue2rgb. repeat (destruct (Rlt_dec _ _)); lra. }
  rewrite Hr, Hg, Hb.
  rewrite (@round_eval (1 * 255) 255) by lra.
  rewrite (@round_eval (0 * 255) 0) by lra.
  reflexivity.
Qed.

Lemma ToUint8Clamp_byte (n : Z) : (0 <= n <= 255)%Z -> ToUint8Clamp (IZR n) = n.
Proof.
  intros H. unfold ToUint8Clamp.
  destruct (Rle_dec (IZR n) 0) as [H0|H0].
  { apply le_IZR in H0. lia. }
  destruct (Rle_dec 255 (IZR n)) as [H1|H1].
  { apply le_IZR in H1. lia. }
  assert (Hf : Zfloor (IZR n) = n) by (apply Zfloor_eq; lra).
  rewrite Hf. destruct (Rlt_dec (IZR n) (IZR n + 0.5)); [reflexivity | lra].
Qed.

(** Inside [0, 255] the clamped store is rounding to nearest, ties to even. *)
Lemma ToUint8Clamp_rounds v :
  0 <= v <= 255 -> ToUint8Clamp v = round_half_even v.
Proof.
  intros H. unfold ToUint8Clamp, round_half_even.
  destruct (Rle_dec v 0) as [H0|H0].
  { assert (v = 0) by lra. subst v.
    rewrite (@Zfloor_eq 0 0) by lra.
    destruct (Rlt_dec (0 - 0) 0.5); [reflexivity | lra]. }
  destruct (Rle_dec 255 v) as [H1|H1].
  { assert (v = 255) by lra. subst v.
    rewrite (@Zfloor_eq 255 255) by lra.
    destruct (Rlt_dec (255 - 255) 0.5); [reflexivity | lra]. }
  cbv zeta.
  destruct (Rlt_dec v (IZR (Zfloor v) + 0.5)), (Rlt_dec (v - IZR (Zfloor v)) 0.5);
    try lra; try reflexivity.
  destruct (Rlt_dec (IZR (Zfloor v) + 0.5) v), (Rlt_dec 0.5 (v - IZR (Zfloor v)));
    try lra; reflexivity.
Qed.

Lemma round_half_even_nearest v :
  Rabs (IZR (round_half_even v) - v) <= 0.5.
Proof.
  unfold round_half_even. pose proof (Zfloor_bound v) as Hf.
  cbv zeta.
  destruct (Rlt_dec (v - IZR (Zfloor v)) 0.5);
    [|destruct (Rlt_dec 0.5 (v - IZR (Zfloor v))); [|destruct (Z.even (Zfloor v))]];
    rewrite ?plus_IZR; apply Rabs_le; lra.
Qed.

Lemma round_half_even_upper v (n : Z) :
  v <= IZR n -> (round_half_even v <= n)%Z.
Proof.
  intros H. unfold round_half_even. pose proof (Zfloor_bound v) as Hf.
  assert (Hfn : (Zfloor v <= n)%Z) by (apply le_IZR; lra).
  cbv zeta.
  assert (Hstep : 0.5 <= v - IZR (Zfloor v) -> (Zfloor v + 1 <= n)%Z).
  { intros Hh. assert (Zfloor v < n)%Z; [|lia]. apply lt_IZR. lra. }
  destruct (Rlt_dec (v - IZR (Zfloor v)) 0.5); [exact Hfn|].
  destruct (Rlt_dec 0.5 (v - IZR (Zfloor v))); [apply Hstep; lra|].
  destruct (Z.even (Zfloor v)); [exact Hfn | apply Hstep; lra].
Qed.

Lemma round_half_even_lower v : 0 <= v -> (0 <= round_half_even v)%Z.
Proof.
  intros H. unfold round_half_even.
  assert (Hf : (0 <= Zfloor v)%Z) by (apply Zfloor_lub; simpl; lra).
  cbv zeta.
  destruct (Rlt_dec _ _); [exact Hf|].
  destruct (Rlt_dec _ _); [lia|]. destruct (Z.even _); lia.
Qed.

Lemma heat_color_alpha t :
  alpha (heat_color t) = ToUint8Clamp (t * 180).
Proof.
  unfold heat_color. cbv zeta. destruct (hslToRgb _ 1 0.5) as [[r g] b].
  reflexivity.
Qed.

Lemma heat_color_full : heat_color 1 = mkRGBA 255 0 0 180.
Proof.
  unfold heat_color. cbv zeta.
  replace ((1 - 1) * (240 / 360)) with 0 by lra.
  rewrite hslToRgb_red.
  rewrite !ToUint8Clamp_byte by lia.
  replace (1 * 180) with (IZR 180) by (simpl; lra).
  rewrite ToUint8Clamp_byte by lia. reflexivity.
Qed.

(** A tie: intensity 1/8 asks for alpha 22.5; the store keeps 22, where
    [Math.round] would give 23. *)
Lemma alpha_tie_goes_to_even :
  alpha (heat_color 0.125) = 22%Z /\ Math_round (0.125 * 180) = 23%Z.
Proof.
  split.
  - rewrite heat_color_alpha, ToUint8Clamp_rounds by lra.
    unfold round_half_even. rewrite (@Zfloor_eq 22 (0.125 * 180)) by lra.
    cbv zeta. destruct (Rlt_dec _ _); [lra|]. destruct (Rlt_dec _ _); [lra|].
    reflexivity.
  - apply round_eval. lra.
Qed.

(** C5. For every intensity map, the pixel the colour mapper writes for an
    entry [v] is: transparent black (0,0,0,0) when the display intensity
    [min v 1] is 0; pure red (255,0,0) with alpha 180 when it is 1; and its
    alpha is [min v 1 * 180] rounded to the nearest integer (a tie going to
    the even one, as a [Uint8ClampedArray] store does) for every [v >= 0],
    and never above 180. *)
Theorem color_mapper_pixel :
  forall (intensityMap : list R) (width height i : Z),
    List.length intensityMap = Z.to_nat (width * height) ->
    (0 <= i < Z.of_nat (List.length intensityMap))%Z ->
    let v := array_get 0 intensityMap i in
    let pixel := overlay_pixel intensityMap width height i in
    (Math_min v 1 = 0 -> pixel = mkRGBA 0 0 0 0) /\
    (Math_min v 1 = 1 -> pixel = mkRGBA 255 0 0 180) /\
    (0 <= v ->
     alpha pixel = round_half_even (Math_min v 1 * 180) /\
     Rabs (IZR (alpha pixel) - Math_min v 1 * 180) <= 0.5) /\
    (0 <= alpha pixel <= 180)%Z.
Proof.
  intros intensityMap width height i Hlen Hi v pixel.
  assert (Hpix : pixel = if Rlt_dec 0 (Math_min v 1)
                         then heat_color (Math_min v 1) else transparent)
    by (now apply overlay_pixel_spec).
  assert (Hle : Math_min v 1 <= 1) by apply Rmin_r.
  assert (Halpha : 0 <= v -> alpha pixel = round_half_even (Math_min v 1 * 180)).
  { intros Hv. rewrite Hpix.
    destruct (Rlt_dec 0 (Math_min v 1)) as [Hpos|Hnpos].
    - rewrite heat_color_alpha. apply ToUint8Clamp_rounds. lra.
    - assert (Hz : Math_min v 1 = 0).
      { unfold Math_min, Rmin in *. destruct (Rle_dec v 1); lra. }
      rewrite Hz. replace (0 * 180) with 0 by lra.
      unfold round_half_even. rewrite (@Zfloor_eq 0 0) by lra.
      cbv zeta. destruct (Rlt_dec (0 - 0) 0.5); [reflexivity | lra]. }
  repeat split.
  - intros Hz. rewrite Hpix. destruct (Rlt_dec 0 (Math_min v 1)); [lra | reflexivity].
  - intros H1. rewrite Hpix, H1.
    destruct (Rlt_dec 0 1); [apply heat_color_full | lra].
  - now apply Halpha.
  - rewrite (Halpha H). apply round_half_even_nearest.
  - rewrite Hpix. destruct (Rlt_dec 0 (Math_min v 1)) as [Hpos|_]; [|simpl; lia].
    rewrite heat_color_alpha, ToUint8Clamp_rounds by lra.
    apply round_half_even_lower. lra.
  - rewrite Hpix. destruct (Rlt_dec 0 (Math_min v 1)) as [Hpos|_]; [|simpl; lia].
    rewrite heat_color_alpha, ToUint8Clamp_rounds by lra.
    apply round_half_even_upper. simpl. lra.
Qed.

Lemma color_mapper_pixel_witness :
  alpha (overlay_pixel [1%R] 1 1 0) = round_half_even (Math_min 1 1 * 180) /\
  (0 <= alpha (overlay_pixel [1%R] 1 1 0) <= 180)%Z.
Proof.
  assert (Hlen : List.length [1%R] = Z.to_nat (1 * 1)) by reflexivity.
  assert (Hi : (0 <= 0 < Z.of_nat (List.length [1%R]))%Z) by (simpl; lia).
  destruct (@color_mapper_pixel [1%R] 1 1 0 Hlen Hi) as (_ & _ & Hround & Hmax).
  split; [|exact Hmax].
  apply Hround. unfold array_get. simpl. lra.
Defined.

(** ** The canvas *)

Lemma map_indexed_length {A B : Type} (f : Z -> A -> B) i l :
  List.length (map_indexed f i l) = List.length l.
Proof. revert i; induction l as [|a t IH]; intros i; simpl; auto. Qed.

Lemma map_indexed_nth {A B : Type} (f : Z -> A -> B) (da : A) (db : B) l :
  forall i n, (n < List.length l)%nat ->
    nth n (map_indexed f i l) db = f (i + Z.of_nat n)%Z (nth n l da).
Proof.
  induction l as [|a t IH]; intros i [|n] H; simpl in H; try lia.
  - simpl. now replace (i + 0)%Z with i by lia.
  - cbn [map_indexed nth]. rewrite IH by lia. f_equal. lia.
Qed.

Lemma pixel_coordinates width height k :
  (0 < width)%Z -> (0 <= k < width * height)%Z ->
  in_rect (k mod width) (k / width) 0 0 width height = true /\
  ((k / width - 0) * width + (k mod width - 0))%Z = k.
Proof.
  intros Hw Hk.
  pose proof (Z.mod_pos_bound k width Hw) as Hm.
  pose proof (Z.div_mod k width ltac:(lia)) as Hdm.
  assert (Hq : (0 <= k / width < height)%Z).
  { split; [apply Z.div_pos; lia|]. apply Z.div_lt_upper_bound; lia. }
  split; [|lia]. unfold in_rect.
  destruct (Z.leb_spec 0 (k mod width)); [|lia].
  destruct (Z.ltb_spec (k mod width) (0 + width)); [|lia].
  destruct (Z.leb_spec 0 (k / width)); [|lia].
  destruct (Z.ltb_spec (k / width) (0 + height)); [|lia].
  reflexivity.
Qed.

Lemma in_rect_degenerate x y width height :
  (width <= 0 \/ height <= 0)%Z -> in_rect x y 0 0 width height = false.
Proof.
  intros H. unfold in_rect.
  destruct (Z.leb_spec 0 x), (Z.ltb_spec x (0 + width)),
    (Z.leb_spec 0 y), (Z.ltb_spec y (0 + height)); try reflexivity; lia.
Qed.

(** Every pixel of a surface of the canvas' size, after an operation that
    covers the canvas, is the operation's result at that pixel. *)
Lemma map_pixels_full width height (f : Z -> Z -> RGBA -> RGBA)
    (g : Z -> RGBA -> RGBA) pixels :
  (0 < width)%Z ->
  List.length pixels = Z.to_nat (width * height) ->
  (forall k old, (0 <= k < width * height)%Z ->
     f (k mod width)%Z (k / width)%Z old = g k old) ->
  forall n, (n < List.length pixels)%nat ->
    nth n (map_pixels width f pixels) transparent
    = g (Z.of_nat n) (nth n pixels transparent).
Proof.
  intros Hw Hlen Hf n Hn. unfold map_pixels.
  rewrite (map_indexed_nth _ transparent transparent) by exact Hn.
  cbn [Z.add]. apply Hf. lia.
Qed.

Lemma map_pixels_untouched width (f : Z -> Z -> RGBA -> RGBA) pixels :
  (forall x y old, f x y old = old) -> map_pixels width f pixels = pixels.
Proof.
  intros Hf. unfold map_pixels. generalize 0%Z as i.
  induction pixels as [|p t IH]; intros i; simpl; [reflexivity|].
  now rewrite Hf, IH.
Qed.

Lemma div255_zero : div255 0 = 0%Z.
Proof. reflexivity. Qed.

Lemma div255_full c : (0 <= c)%Z -> div255 (c * 255) = c.
Proof.
  intros H. unfold div255.
  rewrite Z.div_add_l by lia. replace (127 / 255)%Z with 0%Z by reflexivity. lia.
Qed.

Lemma premultiply_transparent : premultiply transparent = transparent.
Proof. reflexivity. Qed.

(** Drawing a pixel over nothing gives the pixel. *)
Lemma blend_over_transparent p :
  valid_pixel p -> blend source_over p transparent = p.
Proof.
  intros (Hr & Hg & Hb & Ha). unfold is_byte in *.
  destruct p as [r g b a]. unfold blend, blend_channel.
  cbn [alpha red green blue transparent] in *.
  rewrite !Z.mul_0_l, div255_zero. f_equal; lia.
Qed.

(** Drawing nothing over a pixel leaves the pixel. *)
Lemma blend_transparent_over p :
  valid_pixel p -> blend source_over transparent p = p.
Proof.
  intros (Hr & Hg & Hb & Ha). unfold is_byte in *.
  destruct p as [r g b a]. unfold blend, blend_channel.
  cbn [alpha red green blue transparent] in *.
  replace (255 - 0)%Z with 255%Z by lia.
  rewrite !div255_full by lia. f_equal; lia.
Qed.

Lemma valid_transparent : valid_pixel transparent.
Proof. unfold valid_pixel, is_byte. simpl. lia. Qed.

Lemma valid_nth pixels n :
  Forall valid_pixel pixels -> valid_pixel (nth n pixels transparent).
Proof.
  intros H. revert n. induction H as [|p t Hp Ht IH]; intros [|n]; simpl;
    auto using valid_transparent.
Qed.

(** [drawImage] of an image of the canvas' size, pixel by pixel. *)
Lemma drawImage_full ctx image :
  img_width image = canvas_width ctx ->
  img_height image = canvas_height ctx ->
  (0 < canvas_width ctx)%Z ->
  List.length (surface ctx) = Z.to_nat (canvas_width ctx * canvas_height ctx) ->
  forall n, (n < List.length (surface ctx))%nat ->
    nth n (surface (drawImage ctx image 0 0)) transparent
    = blend (globalCompositeOperation ctx)
        (nth n (img_pixels image) transparent)
        (nth n (surface ctx) transparent).
Proof.
  intros Hw Hh Hpos Hlen n Hn. unfold drawImage, with_surface. cbn [surface].
  rewrite (@map_pixels_full (canvas_width ctx) (canvas_height ctx) _
             (fun k old => blend (globalCompositeOperation ctx)
                             (array_get transparent (img_pixels image) k) old));
    try assumption.
  - unfold array_get. now rewrite Nat2Z.id.
  - intros k old Hk. rewrite Hw, Hh.
    destruct (pixel_coordinates (canvas_height ctx) Hpos Hk) as [-> ->].
    reflexivity.
Qed.

Lemma drawImage_degenerate ctx image :
  (img_width image <= 0 \/ img_height image <= 0)%Z ->
  surface (drawImage ctx image 0 0) = surface ctx.
Proof.
  intros H. unfold drawImage, with_surface. cbn [surface].
  apply map_pixels_untouched. intros x y old.
  now rewrite in_rect_degenerate.
Qed.

Lemma drawImage_length ctx image dx dy :
  List.length (surface (drawImage ctx image dx dy)) = List.length (surface ctx).
Proof. unfold drawImage, with_surface, map_pixels. cbn. apply map_indexed_length. Qed.

(** [putImageData] of data of the canvas' size, pixel by pixel: the
    surface it finds plays no part. *)
Lemma putImageData_full ctx imageData :
  image_width imageData = canvas_width ctx ->
  image_height imageData = canvas_height ctx ->
  (0 < canvas_width ctx)%Z ->
  List.length (surface ctx) = Z.to_nat (canvas_width ctx * canvas_height ctx) ->
  forall n, (n < List.length (surface ctx))%nat ->
    nth n (surface (putImageData ctx imageData 0 0)) transparent
    = premultiply (nth n (image_data imageData) transparent).
Proof.
  intros Hw Hh Hpos Hlen n Hn. unfold putImageData, with_surface. cbn [surface].
  rewrite (@map_pixels_full (canvas_width ctx) (canvas_height ctx) _
             (fun k _ => premultiply
                           (array_get transparent (image_data imageData) k)));
    try assumption.
  - unfold array_get. now rewrite Nat2Z.id.
  - intros k old Hk. rewrite Hw, Hh.
    destruct (pixel_coordinates (canvas_height ctx) Hpos Hk) as [-> ->].
    reflexivity.
Qed.

Lemma putImageData_length ctx imageData dx dy :
  List.length (surface (putImageData ctx imageData dx dy))
  = List.length (surface ctx).
Proof. unfold putImageData, with_surface, map_pixels. cbn. apply map_indexed_length. Qed.

Lemma fillRect_length ctx left top w h :
  List.length (surface (fillRect ctx left top w h)) = List.length (surface ctx).
Proof. unfold fillRect, with_surface, map_pixels. cbn. apply map_indexed_length. Qed.

(** ** The overlay *)

Lemma createCanvas_length width height :
  List.length (surface (createCanvas width height)) = Z.to_nat (width * height).
Proof. unfold createCanvas. cbn [surface]. apply repeat_length. Qed.

(** With data of the canvas' size, what [putImageData] leaves does not
    depend on the context it is given. *)
Lemma putImageData_replaces ctx1 ctx2 imageData width height :
  (0 < width)%Z ->
  canvas_width ctx1 = width -> canvas_height ctx1 = height ->
  canvas_width ctx2 = width -> canvas_height ctx2 = height ->
  image_width imageData = width -> image_height imageData = height ->
  List.length (surface ctx1) = Z.to_nat (width * height) ->
  List.length (surface ctx2) = Z.to_nat (width * height) ->
  surface (putImageData ctx1 imageData 0 0)
  = surface (putImageData ctx2 imageData 0 0).
Proof.
  intros Hpos Hw1 Hh1 Hw2 Hh2 Hiw Hih Hl1 Hl2.
  apply (nth_ext _ _ transparent transparent).
  - rewrite !putImageData_length. congruence.
  - intros n Hn. rewrite putImageData_length in Hn.
    rewrite !putImageData_full; try congruence; try lia.
Qed.

(** The overlay does not depend on the background fill and the blend mode
    set before the pixels are written. *)
Lemma overlay_setup_irrelevant points width height :
  createHeatmapOverlay points width height
  = createHeatmapOverlay_direct points width height.
Proof.
  unfold createHeatmapOverlay, createHeatmapOverlay_direct. cbv zeta.
  set (imageData := colorize (accumulate points width height)
                      (createImageData width height)).
  set (filled := set_globalCompositeOperation
                   (fillRect (set_fillStyle (createCanvas width height) black)
                      0 0 width height) lighter).
  destruct (Z.le_gt_cases width 0) as [Hw|Hw].
  - unfold toBuffer, canvas_image. cbn [canvas_width canvas_height drawImage with_surface].
    f_equal. rewrite !drawImage_degenerate by (left; exact Hw). reflexivity.
  - assert (Hs : surface (putImageData filled imageData 0 0)
                 = surface (putImageData (createCanvas width height) imageData 0 0)).
    { apply (@putImageData_replaces _ _ _ width height); try reflexivity; try lia.
      - unfold filled, set_globalCompositeOperation. cbn [surface].
        rewrite fillRect_length. apply createCanvas_length.
      - apply createCanvas_length. }
    assert (Hi : canvas_image (putImageData filled imageData 0 0)
                 = canvas_image (putImageData (createCanvas width height)
                                   imageData 0 0)).
    { unfold canvas_image. rewrite Hs. reflexivity. }
    now rewrite Hi.
Qed.

(** C9. For every point list and all dimensions, the overlay built with
    the black background fill and the 'lighter' blend mode equals the one
    built without them: [putImageData] replaces the whole surface. *)
Theorem fill_and_blend_mode_unobservable :
  forall (points : list Point) (width height : Z),
    createHeatmapOverlay points width height
    = createHeatmapOverlay_direct points width height.
Proof. exact overlay_setup_irrelevant. Qed.

Lemma colorize_zeros n imageData :
  colorize (new_Float32Array n) imageData = imageData.
Proof.
  unfold colorize. destruct imageData as [w h data]. cbn [image_width image_height image_data].
  f_equal. apply for_range_preserves; [|reflexivity].
  intros i t ->. unfold colorize_pixel, new_Float32Array.
  rewrite array_get_repeat.
  destruct (Rlt_dec 0 (Math_min 0 1)) as [H|_]; [|reflexivity].
  unfold Math_min, Rmin in H. destruct (Rle_dec 0 1); lra.
Qed.

Lemma nth_repeat_transparent n k : nth k (repeat transparent n) transparent = transparent.
Proof. revert k; induction n; intros [|k]; simpl; auto. Qed.

Lemma toBuffer_drawImage ctx image :
  toBuffer (drawImage ctx image 0 0)
  = mkImage (canvas_width ctx) (canvas_height ctx)
      (surface (drawImage ctx image 0 0)).
Proof. reflexivity. Qed.

(** Without points the overlay is the fully transparent image. *)
Lemma overlay_of_no_points width height :
  createHeatmapOverlay [] width height = transparent_image width height.
Proof.
  rewrite overlay_setup_irrelevant.
  unfold createHeatmapOverlay_direct, transparent_image. cbv zeta.
  change (accumulate [] width height) with (new_Float32Array (width * height)).
  rewrite colorize_zeros, toBuffer_drawImage.
  change (canvas_width (createCanvas width height)) with width.
  change (canvas_height (createCanvas width height)) with height.
  f_equal.
  destruct (Z.le_gt_cases width 0) as [Hw|Hw].
  - rewrite drawImage_degenerate by (left; exact Hw). reflexivity.
  - apply (nth_ext _ _ transparent transparent).
    + rewrite drawImage_length, createCanvas_length, repeat_length. reflexivity.
    + intros n Hn. rewrite drawImage_length in Hn.
      rewrite drawImage_full; try reflexivity; try assumption;
        try apply createCanvas_length.
      cbn [canvas_image img_pixels globalCompositeOperation createCanvas surface].
      rewrite putImageData_full; try reflexivity; try assumption;
        try apply createCanvas_length.
      cbn [createImageData image_data].
      rewrite !nth_repeat_transparent. reflexivity.
Qed.

(** ** Compositing *)

(** The screenshot drawn on a fresh canvas of its size is the screenshot. *)
Lemma drawImage_on_fresh_canvas base :
  valid_image base ->
  surface (drawImage (createCanvas (img_width base) (img_height base)) base 0 0)
  = img_pixels base.
Proof.
  intros (Hw & Hh & Hlen & Hvalid).
  destruct (Z.le_gt_cases (img_width base) 0) as [Hw0|Hw0].
  - rewrite drawImage_degenerate by (left; exact Hw0).
    assert (Hz : Z.to_nat (img_width base * img_height base) = O) by nia.
    unfold createCanvas. cbn [surface]. rewrite Hz in *.
    destruct (img_pixels base); [reflexivity | discriminate].
  - apply (nth_ext _ _ transparent transparent).
    + rewrite drawImage_length, createCanvas_length. now symmetry.
    + intros n Hn. rewrite drawImage_length in Hn.
      rewrite drawImage_full; try reflexivity; try assumption;
        try apply createCanvas_length.
      cbn [createCanvas surface globalCompositeOperation].
      rewrite nth_repeat_transparent.
      apply blend_over_transparent, valid_nth, Hvalid.
Qed.

(** A fully transparent image drawn over a surface leaves the surface. *)
Lemma drawImage_transparent ctx :
  globalCompositeOperation ctx = source_over ->
  (0 <= canvas_width ctx)%Z ->
  List.length (surface ctx) = Z.to_nat (canvas_width ctx * canvas_height ctx) ->
  Forall valid_pixel (surface ctx) ->
  surface (drawImage ctx
             (transparent_image (canvas_width ctx) (canvas_height ctx)) 0 0)
  = surface ctx.
Proof.
  intros Hop Hw Hlen Hvalid.
  destruct (Z.le_gt_cases (canvas_width ctx) 0) as [Hw0|Hw0].
  - now rewrite drawImage_degenerate by (left; exact Hw0).
  - apply (nth_ext _ _ transparent transparent).
    + apply drawImage_length.
    + intros n Hn. rewrite drawImage_length in Hn.
      rewrite drawImage_full; try reflexivity; try assumption.
      rewrite Hop. unfold transparent_image. cbn [img_pixels].
      rewrite nth_repeat_transparent.
      apply blend_transparent_over, valid_nth, Hvalid.
Qed.

Lemma composite_without_points base :
  valid_image base -> composite base None = base.
Proof.
  intros Hbase. unfold composite, loadImage. cbv zeta.
  cbn [heatmapBuffer_of option_map].
  rewrite toBuffer_drawImage, drawImage_on_fresh_canvas by exact Hbase.
  now destruct base.
Qed.

Lemma composite_with_no_points base :
  valid_image base -> composite base (Some []) = base.
Proof.
  intros Hbase. unfold composite, loadImage. cbv zeta.
  cbn [heatmapBuffer_of option_map].
  rewrite overlay_of_no_points.
  set (ctx := drawImage (createCanvas (img_width base) (img_height base)) base 0 0).
  assert (Hs : surface ctx = img_pixels base)
    by (now apply drawImage_on_fresh_canvas).
  rewrite toBuffer_drawImage.
  change (canvas_width ctx) with (img_width base).
  change (canvas_height ctx) with (img_height base).
  change (transparent_image (img_width base) (img_height base))
    with (transparent_image (canvas_width ctx) (canvas_height ctx)).
  destruct Hbase as (Hw & Hh & Hlen & Hvalid).
  rewrite drawImage_transparent; try reflexivity.
  - rewrite Hs. now destruct base.
  - exact Hw.
  - rewrite Hs. exact Hlen.
  - rewrite Hs. exact Hvalid.
Qed.

(** C6, as stated, fails on the empty list: [points ? ... : null] tests the
    list for presence, and an empty list is present, so an overlay is
    built. *)
Lemma empty_points_build_an_overlay :
  heatmapBuffer_of (Some []) 2 2 <> None /\
  heatmapBuffer_of (Some []) 2 2 = Some (transparent_image 2 2).
Proof.
  split; [discriminate|]. unfold heatmapBuffer_of.
  now rewrite overlay_of_no_points.
Qed.

(** C6, amended. When [points] is absent no overlay is built; when it is
    the empty list an overlay is built and it is fully transparent; in both
    cases the composited image is, pixel for pixel, the base screenshot. *)
Theorem no_points_leave_screenshot_unchanged :
  forall base : Image,
    valid_image base ->
    heatmapBuffer_of None (img_width base) (img_height base) = None /\
    heatmapBuffer_of (Some []) (img_width base) (img_height base)
    = Some (transparent_image (img_width base) (img_height base)) /\
    composite base None = base /\
    composite base (Some []) = base.
Proof.
  intros base Hbase. repeat split.
  - unfold heatmapBuffer_of. now rewrite overlay_of_no_points.
  - now apply composite_without_points.
  - now apply composite_with_no_points.
Qed.

Lemma sample_screenshot_valid : valid_image sample_screenshot.
Proof.
  unfold valid_image, sample_screenshot. cbn [img_width img_height img_pixels].
  repeat split; try lia.
  repeat constructor; unfold is_byte; simpl; lia.
Qed.

Lemma no_points_leave_screenshot_unchanged_witness :
  valid_image sample_screenshot /\
  composite sample_screenshot None = sample_screenshot /\
  composite sample_screenshot (Some []) = sample_screenshot.
Proof.
  split; [exact sample_screenshot_valid|].
  destruct (@no_points_leave_screenshot_unchanged sample_screenshot
              sample_screenshot_valid) as (_ & _ & H1 & H2).
  split; assumption.
Defined.

(** ** The handler and the browser process *)

Lemma count_close_app tr ev :
  count_close (tr ++ [ev]) = (count_close tr + (if is_close ev then 1 else 0))%nat.
Proof.
  unfold count_close. rewrite filter_app, length_app. simpl.
  destruct (is_close ev); reflexivity.
Qed.

Ltac run_handler :=
  unfold run, handler, bind, try_catch, await_close, await, ret, throw,
    count_close, generic_failure, createError;
  cbn [app filter is_close List.length].

Ltac case_call c :=
  let u := fresh "u" in
  let reason := fresh "reason" in
  destruct c as [u|reason] eqn:?; try destruct u;
  cbn [app filter is_close List.length fst snd last].



(** No failure: the response is returned after one [close]. *)
Lemma run_success w req buffer :
  puppeteer_launch w = Resolved tt ->
  browser_newPage w = Resolved tt ->
  page_setViewport w (req_width req) 0 = Resolved tt ->
  page_goto w (req_url req) = Resolved tt ->
  page_screenshot w (req_url req) (req_width req) 0 true = Resolved buffer ->
  browser_close w 0 = Resolved tt ->
  run w req
  = (Returned (mkResponse (composite buffer (req_points req)) true),
     [Launch; NewPage; SetViewport (req_width req) 0; Goto (req_url req);
      Screenshot true; Close]).
Proof.
  intros H1 H2 H3 H4 H5 H6. run_handler.
  rewrite H1, H2, H3, H4, H5. cbn [app filter is_close List.length].
  rewrite H6. reflexivity.
Qed.

(** A body without [url] is refused, and the browser is never launched. *)
Lemma invalid_body_launches_nothing w :
  eventHandler w (JObject [("width"%string, JNumber 800);
                           ("height"%string, JNumber 600)]) []
  = (Thrown (JsError "ZodError"), []).
Proof. reflexivity. Qed.

(** On a body the schema accepts the handler runs on the parsed request. *)
Lemma valid_body_runs_handler w body req :
  renderWebPageSchema_parse body = Some req ->
  eventHandler w body [] = run w req.
Proof. intros H. unfold eventHandler, run. now rewrite H. Qed.






(** C4. When the launch of the browser fails, the handler throws the error
    of [puppeteer.launch] as it is, with its detail: the call stands before
    the [try] block, so the generic failure of the [catch] is not built. *)
Theorem launch_failure_is_not_generic :
  run launch_failure_world (sample_request 600)
  = (Thrown (JsError
       "Failed to launch the browser process: /usr/bin/chromium-browser"),
     [Launch]) /\
  fst (run launch_failure_world (sample_request 600)) <> Thrown generic_failure.
Proof.
  split; [reflexivity|]. cbn. discriminate.
Qed.

(** C10. Two bodies that the schema accepts and that agree on the address,
    the width and the points get the same outcome after the same calls to
    the browser, whatever their heights: the height is parsed and not used.
    Every viewport is set with height 0 and every capture is of the full
    page. *)
Theorem height_is_ignored :
  forall (w : World) (body1 body2 : Json) (r1 r2 : Request),
    renderWebPageSchema_parse body1 = Some r1 ->
    renderWebPageSchema_parse body2 = Some r2 ->
    req_url r1 = req_url r2 ->
    req_width r1 = req_width r2 ->
    req_points r1 = req_points r2 ->
    eventHandler w body1 [] = eventHandler w body2 [] /\
    run w r1 = run w r2 /\
    Forall captures_full_page (snd (run w r1)).
Proof.
  intros w body1 body2 [u1 w1 h1 p1] [u2 w2 h2 p2] Hb1 Hb2.
  cbn [req_url req_width req_points]. intros -> -> ->.
  rewrite (@valid_body_runs_handler w _ _ Hb1), (@valid_body_runs_handler w _ _ Hb2).
  split; [reflexivity|]. split; [reflexivity|].
  run_handler. cbn [req_url req_width req_points].
  case_call (puppeteer_launch w);
    [case_call (browser_newPage w);
      [case_call (page_setViewport w w2 0);
        [case_call (page_goto w u2);
          [case_call (page_screenshot w u2 w2 0 true)|]|]|]|];
    try case_call (browser_close w 0); try case_call (browser_close w 1);
    repeat constructor.
Qed.

Lemma height_is_ignored_witness :
  renderWebPageSchema_parse (sample_body 600) = Some (sample_request 600) /\
  renderWebPageSchema_parse (sample_body 10000) = Some (sample_request 10000) /\
  eventHandler healthy_world (sample_body 600) []
  = eventHandler healthy_world (sample_body 10000) [].
Proof.
  split; [reflexivity|]. split; [reflexivity|].
  apply (@height_is_ignored healthy_world (sample_body 600) (sample_body 10000)
           (sample_request 600) (sample_request 10000)
           eq_refl eq_refl eq_refl eq_refl eq_refl).
Defined.

(** ** The accumulator on binary64, run on concrete inputs *)

Module IEEE_replay.
Import PrimFloat.
Local Open Scope float_scope.
#[local] Set Warnings "-inexact-float".

(** The point (30.75, 0) on a raster of 62 by 1, bit for bit: pixel
    (60, 0), at distance 29.25, is left at 0; pixel (1, 0), at distance
    29.75, gets the binary32 number nearest to 1/300. *)
Example edge_point_on_binary64 :
  IEEE.intensity_at (IEEE.accumulate [IEEE.mkPoint 30.75 0] 62 1) 62 60 0 = 0 /\
  IEEE.intensity_at (IEEE.accumulate [IEEE.mkPoint 30.75 0] 62 1) 62 1 0
  = 0.0033333334140479565 /\
  sqrt ((30.75 - IEEE.of_index 60) * (30.75 - IEEE.of_index 60)
        + (0 - IEEE.of_index 0) * (0 - IEEE.of_index 0)) = 29.25.
Proof. vm_compute. repeat split. Qed.

(** Points stacked on pixel (1, 0) of a raster of 3 by 1, bit for bit: the
    sums follow [n * 0.4] up to the rounding of the binary32 store, and
    stay at the cap from 13 points on. *)
Example stacked_points_on_binary64 :
  IEEE.intensity_at (IEEE.accumulate (repeat (IEEE.mkPoint 1 0) 1) 3 1) 3 1 0
  = 0.4000000059604645 /\
  IEEE.intensity_at (IEEE.accumulate (repeat (IEEE.mkPoint 1 0) 3) 3 1) 3 1 0
  = 1.2000000476837158 /\
  IEEE.intensity_at (IEEE.accumulate (repeat (IEEE.mkPoint 1 0) 12) 3 1) 3 1 0
  = 4.8000006675720215 /\
  IEEE.intensity_at (IEEE.accumulate (repeat (IEEE.mkPoint 1 0) 13) 3 1) 3 1 0
  = 5 /\
  IEEE.intensity_at (IEEE.accumulate (repeat (IEEE.mkPoint 1 0) 40) 3 1) 3 1 0
  = 5.
Proof. vm_compute. repeat split. Qed.

End IEEE_replay.

(** ** The rounding of numbers

    Rounding to the nearest integer is monotone, keeps integers and
    commutes with the change of sign; from these the rounding to a binary
    format gets the same properties, with its error bound. *)


Lemma round_half_even_above v (n : Z) :
  IZR n <= v -> (n <= round_half_even v)%Z.
Proof.
  intros H. unfold round_half_even. cbv zeta.
  assert (Hfn : (n <= Zfloor v)%Z) by now apply Zfloor_lub.
  destruct (Rlt_dec _ _); [exact Hfn|].
  destruct (Rlt_dec _ _); [lia|]. destruct (Z.even _); lia.
Qed.

Lemma round_half_even_IZR (n : Z) : round_half_even (IZR n) = n.
Proof.
  apply Z.le_antisymm.
  - apply round_half_even_upper. lra.
  - apply round_half_even_above. lra.
Qed.

Lemma round_half_even_le a b :
  a <= b -> (round_half_even a <= round_half_even b)%Z.
Proof.
  intros Hab.
  pose proof (Zfloor_bound a) as Ha. pose proof (Zfloor_bound b) as Hb.
  pose proof (Zfloor_le _ _ Hab) as Hf.
  destruct (Z.eq_dec (Zfloor a) (Zfloor b)) as [He|Hne].
  - unfold round_half_even. cbv zeta. rewrite He in *.
    set (f := Zfloor b) in *.
    destruct (Rlt_dec (a - IZR f) 0.5), (Rlt_dec (b - IZR f) 0.5),
      (Rlt_dec 0.5 (a - IZR f)), (Rlt_dec 0.5 (b - IZR f)), (Z.even f);
      try lia; lra.
  - apply Z.le_trans with (Zfloor b).
    + apply round_half_even_upper.
      assert (H : (Zfloor a + 1 <= Zfloor b)%Z) by lia.
      apply IZR_le in H. rewrite plus_IZR in H. lra.
    + apply round_half_even_above. lra.
Qed.

Lemma round_half_even_opp v : round_half_even (- v) = (- round_half_even v)%Z.
Proof.
  pose proof (Zfloor_bound v) as Hv.
  destruct (Req_dec_T v (IZR (Zfloor v))) as [Hint|Hfrac].
  - clear Hv. revert Hint. generalize (Zfloor v). intros n ->.
    now rewrite <- opp_IZR, !round_half_even_IZR.
  - assert (Hn : Zfloor (- v) = (- Zfloor v - 1)%Z).
    { apply Zfloor_eq. rewrite minus_IZR, opp_IZR. lra. }
    unfold round_half_even. cbv zeta. rewrite Hn.
    rewrite minus_IZR, opp_IZR.
    replace (Z.even (- Zfloor v - 1)) with (negb (Z.even (Zfloor v))).
    2:{ rewrite Z.even_sub, Z.even_opp. simpl. now destruct (Z.even (Zfloor v)). }
    set (f := Zfloor v) in *.
    destruct (Rlt_dec (v - IZR f) 0.5), (Rlt_dec (- v - (- IZR f - 1)) 0.5),
      (Rlt_dec 0.5 (v - IZR f)), (Rlt_dec 0.5 (- v - (- IZR f - 1))),
      (Z.even f); simpl; try lia; lra.
Qed.

(** *** Powers of two *)
Lemma bpow_pos e : 0 < bpow e.
Proof. apply powerRZ_lt. lra. Qed.

Lemma bpow_add a b : bpow (a + b) = bpow a * bpow b.
Proof. apply powerRZ_add. lra. Qed.

Lemma bpow_opp e : bpow (- e) = / bpow e.
Proof. apply powerRZ_neg'. Qed.

Lemma bpow_0 : bpow 0 = 1.
Proof. reflexivity. Qed.

Lemma bpow_1 : bpow 1 = 2.
Proof. unfold bpow. simpl. lra. Qed.

Lemma bpow_IZR e : (0 <= e)%Z -> bpow e = IZR (2 ^ e).
Proof.
  intros H. unfold bpow. destruct e as [|p|p]; [reflexivity| |lia].
  now rewrite <- Zpower_pos_powerRZ.
Qed.

Lemma bpow_cancel e : bpow e * bpow (- e) = 1.
Proof. rewrite <- bpow_add. now replace (e + - e)%Z with 0%Z by lia. Qed.

Lemma bpow_le a b : (a <= b)%Z -> bpow a <= bpow b.
Proof.
  intros H. replace b with ((a + (b - a))%Z) by lia. rewrite bpow_add.
  rewrite (@bpow_IZR (b - a)%Z) by lia.
  assert (H0 : (1 <= 2 ^ (b - a))%Z)
    by (pose proof (Z.pow_pos_nonneg 2 (b - a)); lia).
  apply IZR_le in H0. pose proof (bpow_pos a). nra.
Qed.

Lemma bpow_lt a b : (a < b)%Z -> bpow a < bpow b.
Proof.
  intros H. replace b with ((a + (b - a))%Z) by lia. rewrite bpow_add.
  rewrite (@bpow_IZR (b - a)%Z) by lia.
  assert (H0 : (2 ^ 1 <= 2 ^ (b - a))%Z) by (apply Z.pow_le_mono_r; lia).
  apply IZR_le in H0. change (IZR (2 ^ 1)) with 2 in H0.
  pose proof (bpow_pos a). nra.
Qed.

Lemma bpow_lt_inv a b : bpow a < bpow b -> (a < b)%Z.
Proof.
  intros H. destruct (Z.lt_ge_cases a b) as [Hl|Hg]; [exact Hl|].
  apply bpow_le in Hg. lra.
Qed.

Lemma bpow_exp e : bpow e = exp (IZR e * ln 2).
Proof. unfold bpow. rewrite powerRZ_Rpower by lra. reflexivity. Qed.

(** *** The magnitude *)
Lemma mag_spec x : x <> 0 -> bpow (mag x - 1) <= Rabs x < bpow (mag x).
Proof.
  intros Hx. assert (Ha : 0 < Rabs x) by now apply Rabs_pos_lt.
  unfold mag. set (l := ln (Rabs x) / ln 2).
  replace (Zfloor l + 1 - 1)%Z with (Zfloor l) by lia.
  pose proof (Zfloor_bound l) as Hl.
  assert (H2 : 0 < ln 2) by (pose proof ln_lt_2; lra).
  assert (Hll : l * ln 2 = ln (Rabs x)) by (unfold l; field; lra).
  assert (Hexp : Rabs x = exp (l * ln 2))
    by (rewrite Hll; symmetry; now apply exp_ln).
  clearbody l. rewrite !bpow_exp, plus_IZR, Hexp. split.
  - destruct (Req_dec_T (IZR (Zfloor l)) l) as [->|Hne]; [lra|].
    left. apply exp_increasing. nra.
  - apply exp_increasing. nra.
Qed.

Lemma mag_unique x m : bpow (m - 1) <= Rabs x < bpow m -> mag x = m.
Proof.
  intros [H1 H2].
  assert (Hx : x <> 0).
  { intros ->. rewrite Rabs_R0 in H1. pose proof (bpow_pos (m - 1)). lra. }
  destruct (mag_spec Hx) as [H3 H4].
  assert (Hm1 : (mag x - 1 < m)%Z) by (apply bpow_lt_inv; lra).
  assert (Hm2 : (m - 1 < mag x)%Z) by (apply bpow_lt_inv; lra).
  lia.
Qed.

Lemma mag_le_bpow x m : x <> 0 -> Rabs x < bpow m -> (mag x <= m)%Z.
Proof.
  intros Hx H. destruct (mag_spec Hx) as [H1 _].
  assert (Hm1 : (mag x - 1 < m)%Z) by (apply bpow_lt_inv; lra). lia.
Qed.

Lemma mag_le x y : x <> 0 -> Rabs x <= Rabs y -> (mag x <= mag y)%Z.
Proof.
  intros Hx H.
  assert (Hy : y <> 0).
  { intros ->. rewrite Rabs_R0 in H. apply Rabs_pos_lt in Hx. lra. }
  apply mag_le_bpow; [exact Hx|]. destruct (mag_spec Hy). lra.
Qed.

Lemma mag_opp x : mag (- x) = mag x.
Proof. unfold mag. now rewrite Rabs_Ropp. Qed.

(** *** Rounding to a format *)
Section Format.
Variables prec emin : Z.
Hypothesis prec_pos : (0 < prec)%Z.


Lemma round_0 : round_to_format prec emin 0 = 0.
Proof. unfold round_to_format. destruct (Req_dec_T 0 0); [reflexivity|lra]. Qed.

Lemma round_form x :
  x <> 0 ->
  round_to_format prec emin x
  = IZR (round_half_even (x * bpow (- cexp prec emin x))) * bpow (cexp prec emin x).
Proof.
  intros Hx. unfold round_to_format. destruct (Req_dec_T x 0); [contradiction|].
  reflexivity.
Qed.

Lemma round_opp x : round_to_format prec emin (- x) = - round_to_format prec emin x.
Proof.
  destruct (Req_dec_T x 0) as [->|Hx].
  - rewrite Ropp_0, round_0. lra.
  - rewrite !round_form by lra. unfold cexp. rewrite mag_opp.
    replace (- x * bpow (- Z.max (mag x - prec) emin))
      with (- (x * bpow (- Z.max (mag x - prec) emin))) by lra.
    rewrite round_half_even_opp, opp_IZR. lra.
Qed.

Lemma round_nonneg x : 0 <= x -> 0 <= round_to_format prec emin x.
Proof.
  intros H. destruct (Req_dec_T x 0) as [->|Hx]; [rewrite round_0; lra|].
  rewrite round_form by exact Hx.
  pose proof (bpow_pos (cexp prec emin x)) as Hb.
  pose proof (bpow_pos (- cexp prec emin x)) as Hb'.
  assert (Hn : (0 <= round_half_even (x * bpow (- cexp prec emin x)))%Z).
  { apply round_half_even_above. simpl. nra. }
  apply IZR_le in Hn. nra.
Qed.

Lemma round_nonpos x : x <= 0 -> round_to_format prec emin x <= 0.
Proof.
  intros H. assert (H' : 0 <= - x) by lra.
  apply round_nonneg in H'. rewrite round_opp in H'. lra.
Qed.

Lemma scaled_back x e : x * bpow (- e) * bpow e = x.
Proof.
  rewrite Rmult_assoc, <- bpow_add.
  replace (- e + e)%Z with 0%Z by lia. rewrite bpow_0. lra.
Qed.

(** The error of a rounding is at most half a unit in the last place. *)
Lemma round_error x :
  x <> 0 -> Rabs (round_to_format prec emin x - x) <= bpow (cexp prec emin x) / 2.
Proof.
  intros Hx. rewrite round_form by exact Hx.
  set (e := cexp prec emin x). set (t := x * bpow (- e)).
  replace (IZR (round_half_even t) * bpow e - x)
    with ((IZR (round_half_even t) - t) * bpow e).
  2:{ rewrite Rmult_minus_distr_r. f_equal. apply scaled_back. }
  rewrite Rabs_mult, (Rabs_pos_eq (bpow e)) by (left; apply bpow_pos).
  pose proof (round_half_even_nearest t). pose proof (bpow_pos e). nra.
Qed.

Lemma round_error_below x m :
  Rabs x < bpow m -> (emin <= m - prec)%Z ->
  Rabs (round_to_format prec emin x - x) <= bpow (m - prec) / 2.
Proof.
  intros Hx Hm. destruct (Req_dec_T x 0) as [->|Hx0].
  - rewrite round_0, Rminus_0_r, Rabs_R0. pose proof (bpow_pos (m - prec)). lra.
  - eapply Rle_trans; [now apply round_error|].
    assert (Hc : (cexp prec emin x <= m - prec)%Z).
    { unfold cexp. pose proof (@mag_le_bpow x m Hx0 Hx). lia. }
    apply bpow_le in Hc. lra.
Qed.

(** A number [n * 2^e] with [|n| <= 2^prec] and [emin <= e] is kept. *)
Lemma round_generic_lt (n e : Z) :
  (Z.abs n < 2 ^ prec)%Z -> (emin <= e)%Z ->
  round_to_format prec emin (IZR n * bpow e) = IZR n * bpow e.
Proof.
  intros Hn He. destruct (Z.eq_dec n 0) as [->|Hn0].
  - rewrite Rmult_0_l. apply round_0.
  - pose proof (bpow_pos e) as Hbe.
    assert (Hx : IZR n * bpow e <> 0).
    { apply Rmult_integral_contrapositive_currified; [|lra].
      intros H. apply eq_IZR in H. contradiction. }
    rewrite round_form by exact Hx.
    set (x := IZR n * bpow e) in *.
    assert (Hc : (cexp prec emin x <= e)%Z).
    { unfold cexp.
      assert (Hm : (mag x <= prec + e)%Z).
      { apply mag_le_bpow; [exact Hx|]. unfold x.
        rewrite Rabs_mult, (Rabs_pos_eq (bpow e)) by lra.
        rewrite bpow_add, (@bpow_IZR prec) by lia.
        rewrite <- abs_IZR. apply Rmult_lt_compat_r; [exact Hbe|].
        now apply IZR_lt. }
      lia. }
    set (c := cexp prec emin x) in *.
    assert (Ht : x * bpow (- c) = IZR (n * 2 ^ (e - c))).
    { unfold x. rewrite mult_IZR, <- (@bpow_IZR (e - c)%Z) by lia.
      rewrite Rmult_assoc, <- bpow_add. repeat f_equal; try lia. }
    rewrite Ht, round_half_even_IZR, <- Ht. apply scaled_back.
Qed.

Lemma round_generic (n e : Z) :
  (Z.abs n <= 2 ^ prec)%Z -> (emin <= e)%Z ->
  round_to_format prec emin (IZR n * bpow e) = IZR n * bpow e.
Proof.
  intros Hn He.
  destruct (Z.eq_dec (Z.abs n) (2 ^ prec)) as [Heq|Hne].
  - assert (Hhalf : (2 ^ prec = 2 * 2 ^ (prec - 1))%Z).
    { rewrite <- Z.pow_succ_r by lia. f_equal. lia. }
    assert (Hn' : n = (Z.sgn n * 2 ^ (prec - 1) * 2)%Z) by lia.
    replace (IZR n * bpow e)
      with (IZR (Z.sgn n * 2 ^ (prec - 1)) * bpow (e + 1)).
    2:{ rewrite Hn' at 2. rewrite (mult_IZR _ 2), bpow_add.
        rewrite bpow_1. lra. }
    apply round_generic_lt; [|lia].
    assert (0 < 2 ^ (prec - 1))%Z by (apply Z.pow_pos_nonneg; lia).
    lia.
  - apply round_generic_lt; [lia | exact He].
Qed.

Lemma round_IZR (n : Z) :
  (Z.abs n <= 2 ^ prec)%Z -> (emin <= 0)%Z ->
  round_to_format prec emin (IZR n) = IZR n.
Proof.
  intros Hn He. pose proof (@round_generic n 0%Z Hn He) as H.
  now rewrite bpow_0, Rmult_1_r in H.
Qed.

(** A rounded number is a number of the format. *)
Lemma round_in_format x :
  exists n e : Z,
    round_to_format prec emin x = IZR n * bpow e /\
    (Z.abs n <= 2 ^ prec)%Z /\ (emin <= e)%Z.
Proof.
  destruct (Req_dec_T x 0) as [->|Hx].
  - exists 0%Z, emin. rewrite round_0. split; [lra|]. split; [|lia].
    pose proof (Z.pow_pos_nonneg 2 prec). lia.
  - exists (round_half_even (x * bpow (- cexp prec emin x))), (cexp prec emin x).
    split; [now apply round_form|]. split; [|unfold cexp; lia].
    destruct (mag_spec Hx) as [_ Hm].
    assert (Ht : Rabs (x * bpow (- cexp prec emin x)) <= IZR (2 ^ prec)).
    { rewrite Rabs_mult, (Rabs_pos_eq (bpow _)) by (left; apply bpow_pos).
      rewrite <- (@bpow_IZR prec) by lia.
      assert (Hle : bpow (mag x) <= bpow (prec + cexp prec emin x))
        by (apply bpow_le; unfold cexp; lia).
      rewrite bpow_add in Hle.
      pose proof (bpow_pos (- cexp prec emin x)) as Hp.
      pose proof (bpow_cancel (cexp prec emin x)) as Hc.
      pose proof (Rabs_pos x).
      assert (Rabs x * bpow (- cexp prec emin x)
              <= bpow prec * bpow (cexp prec emin x) * bpow (- cexp prec emin x))
        by (apply Rmult_le_compat_r; lra).
      rewrite Rmult_assoc, Hc in H0. lra. }
    assert (Hb : - IZR (2 ^ prec) <= x * bpow (- cexp prec emin x) <= IZR (2 ^ prec))
      by (revert Ht; unfold Rabs; destruct (Rcase_abs _); lra).
    destruct Hb as [Hlo Hhi].
    apply Z.abs_le. split.
    + apply round_half_even_above. now rewrite opp_IZR.
    + now apply round_half_even_upper.
Qed.

Lemma round_idempotent x :
  round_to_format prec emin (round_to_format prec emin x)
  = round_to_format prec emin x.
Proof.
  destruct (round_in_format x) as (n & e & -> & Hn & He).
  now apply round_generic.
Qed.

(** Rounding is monotone. *)
Lemma round_le_pos x y :
  0 < x -> x <= y -> round_to_format prec emin x <= round_to_format prec emin y.
Proof.
  intros Hx Hxy.
  assert (Hx0 : x <> 0) by lra. assert (Hy0 : y <> 0) by lra.
  rewrite !round_form by assumption.
  assert (Hmag : (mag x <= mag y)%Z).
  { apply mag_le; [exact Hx0|]. rewrite !Rabs_pos_eq by lra. exact Hxy. }
  destruct (Z.eq_dec (cexp prec emin x) (cexp prec emin y)) as [He|Hne].
  - rewrite He. apply Rmult_le_compat_r; [left; apply bpow_pos|].
    apply IZR_le, round_half_even_le.
    apply Rmult_le_compat_r; [left; apply bpow_pos | exact Hxy].
  - assert (Hcy : cexp prec emin y = (mag y - prec)%Z) by (unfold cexp in *; lia).
    assert (Hc : (cexp prec emin x < cexp prec emin y)%Z) by (unfold cexp in *; lia).
    assert (Hmx : (mag x <= mag y - 1)%Z) by (unfold cexp in *; lia).
    destruct (mag_spec Hx0) as [_ Hxu]. destruct (mag_spec Hy0) as [Hyl _].
    rewrite Rabs_pos_eq in Hxu, Hyl by lra.
    apply Rle_trans with (bpow (mag y - 1)).
    + (* below the power of two *)
      set (k := (mag y - 1 - cexp prec emin x)%Z).
      assert (Hk : (0 <= k)%Z) by (unfold k; lia).
      assert (Ht : x * bpow (- cexp prec emin x) <= IZR (2 ^ k)).
      { rewrite <- (@bpow_IZR k) by exact Hk. unfold k.
        replace (mag y - 1 - cexp prec emin x)%Z
          with ((mag y - 1) + - cexp prec emin x)%Z by lia.
        rewrite bpow_add. apply Rmult_le_compat_r; [left; apply bpow_pos|].
        pose proof (bpow_le Hmx). lra. }
      apply round_half_even_upper, IZR_le in Ht.
      apply Rle_trans with (IZR (2 ^ k) * bpow (cexp prec emin x)).
      * apply Rmult_le_compat_r; [left; apply bpow_pos | exact Ht].
      * rewrite <- (@bpow_IZR k), <- bpow_add by exact Hk. right. f_equal.
        unfold k. lia.
    + (* above the power of two *)
      assert (Ht : IZR (2 ^ (prec - 1)) <= y * bpow (- cexp prec emin y)).
      { rewrite <- (@bpow_IZR (prec - 1)%Z) by lia.
        replace (prec - 1)%Z with ((mag y - 1) + - cexp prec emin y)%Z by lia.
        rewrite bpow_add. apply Rmult_le_compat_r; [left; apply bpow_pos|].
        exact Hyl. }
      apply round_half_even_above, IZR_le in Ht.
      apply Rle_trans with (IZR (2 ^ (prec - 1)) * bpow (cexp prec emin y)).
      * rewrite <- (@bpow_IZR (prec - 1)%Z), <- bpow_add by lia. right. f_equal. lia.
      * apply Rmult_le_compat_r; [left; apply bpow_pos | exact Ht].
Qed.

Lemma round_le x y :
  x <= y -> round_to_format prec emin x <= round_to_format prec emin y.
Proof.
  intros Hxy.
  destruct (Rlt_le_dec 0 x) as [Hx|Hx]; [now apply round_le_pos|].
  destruct (Rle_lt_dec 0 y) as [Hy|Hy].
  - apply Rle_trans with 0; [now apply round_nonpos | now apply round_nonneg].
  - assert (H : round_to_format prec emin (- y) <= round_to_format prec emin (- x))
      by (apply round_le_pos; lra).
    rewrite !round_opp in H. lra.
Qed.

End Format.

(** *** Powers of two as numerals *)
Lemma bpow_pos_eval e n : (0 <= e)%Z -> (2 ^ e)%Z = n -> bpow e = IZR n.
Proof. intros He <-. now apply bpow_IZR. Qed.

Lemma bpow_neg_eval e n : (0 <= e)%Z -> (2 ^ e)%Z = n -> bpow (- e) = / IZR n.
Proof. intros He <-. rewrite bpow_opp. f_equal. now apply bpow_IZR. Qed.

(** *** binary64 and binary32 *)

Lemma binary64_le x y : x <= y -> binary64 x <= binary64 y.
Proof. apply round_le. lia. Qed.

Lemma binary64_IZR (n : Z) :
  (Z.abs n <= 9007199254740992)%Z -> binary64 (IZR n) = IZR n.
Proof. intros H. apply round_IZR; [lia | exact H | lia]. Qed.

Lemma binary64_idempotent x : binary64 (binary64 x) = binary64 x.
Proof. apply round_idempotent. lia. Qed.

Lemma binary64_nonneg x : 0 <= x -> 0 <= binary64 x.
Proof. apply round_nonneg. Qed.

Lemma binary64_error x (m : Z) :
  Rabs x < bpow m -> (-1021 <= m)%Z ->
  Rabs (binary64 x - x) <= bpow (m - 53) / 2.
Proof. intros Hx Hm. apply round_error_below; [exact Hx | lia]. Qed.

Lemma Math_fround_le x y : x <= y -> Math_fround x <= Math_fround y.
Proof. apply round_le. lia. Qed.

Lemma Math_fround_IZR (n : Z) :
  (Z.abs n <= 16777216)%Z -> Math_fround (IZR n) = IZR n.
Proof. intros H. apply round_IZR; [lia | exact H | lia]. Qed.

Lemma Math_fround_error x (m : Z) :
  Rabs x < bpow m -> (-125 <= m)%Z ->
  Rabs (Math_fround x - x) <= bpow (m - 24) / 2.
Proof. intros Hx Hm. apply round_error_below; [exact Hx | lia]. Qed.

Lemma binary64_error_8 x :
  Rabs x < 8 -> Rabs (binary64 x - x) <= / 2251799813685248.
Proof.
  intros H. pose proof (@binary64_error x 3) as He.
  rewrite (@bpow_pos_eval 3 8) in He by (lia || reflexivity).
  change (3 - 53)%Z with (Z.opp 50) in He.
  rewrite (@bpow_neg_eval 50 1125899906842624) in He by (lia || reflexivity).
  specialize (He H ltac:(lia)). lra.
Qed.

Lemma Math_fround_error_8 x :
  Rabs x < 8 -> Rabs (Math_fround x - x) <= / 4194304.
Proof.
  intros H. pose proof (@Math_fround_error x 3) as He.
  rewrite (@bpow_pos_eval 3 8) in He by (lia || reflexivity).
  change (3 - 24)%Z with (Z.opp 21) in He.
  rewrite (@bpow_neg_eval 21 2097152) in He by (lia || reflexivity).
  specialize (He H ltac:(lia)). lra.
Qed.

(** ** Two nested loops over a box of pixels *)

Section PixelLoops.
Variables width height : Z.
Variable body : Z -> Z -> list R -> list R.
Variable update : Z -> Z -> R -> R.
Hypothesis body_sized :
  forall y x m, well_sized width height m -> well_sized width height (body y x m).
Hypothesis body_here :
  forall x y m, in_raster width height x y -> well_sized width height m ->
    intensity_at (body y x m) width x y = update x y (intensity_at m width x y).
Hypothesis body_elsewhere :
  forall x y x' y' m,
    in_raster width height x y -> in_raster width height x' y' ->
    (x, y) <> (x', y') ->
    intensity_at (body y x m) width x' y' = intensity_at m width x' y'.

Lemma loop_row y lo hi m :
  (0 <= lo)%Z -> (hi <= width)%Z -> (0 <= y < height)%Z -> well_sized width height m ->
  let m' := for_range lo hi (fun x => body y x) m in
  well_sized width height m' /\
  forall x' y', in_raster width height x' y' ->
    intensity_at m' width x' y'
    = if ((y' =? y) && (lo <=? x') && (x' <? hi))%Z
      then update x' y' (intensity_at m width x' y')
      else intensity_at m width x' y'.
Proof.
  intros Hlo Hhi Hy Hm. cbv zeta.
  destruct (Z.le_gt_cases lo hi) as [Hle|Hgt].
  - apply (for_range_invariant
             (fun x => body y x)
             (fun i t => well_sized width height t /\
                forall x' y', in_raster width height x' y' ->
                  intensity_at t width x' y'
                  = if ((y' =? y) && (lo <=? x') && (x' <? i))%Z
                    then update x' y' (intensity_at m width x' y')
                    else intensity_at m width x' y')); [exact Hle| |].
    + split; [exact Hm|]. intros x' y' _.
      destruct (y' =? y)%Z, (Z.leb_spec lo x'), (Z.ltb_spec x' lo);
        simpl; try reflexivity; lia.
    + intros i t Hi [Ht Hinv]. split; [now apply body_sized|].
      intros x' y' Hin'.
      assert (Hini : in_raster width height i y) by (unfold in_raster; lia).
      destruct (Z.eq_dec x' i) as [->|Hxi];
        [destruct (Z.eq_dec y' y) as [->|Hyy]|].
      * rewrite body_here by assumption.
        rewrite Hinv by assumption.
        rewrite Z.eqb_refl.
        destruct (Z.leb_spec lo i), (Z.ltb_spec i i), (Z.ltb_spec i (i + 1));
          simpl; try lia. reflexivity.
      * rewrite body_elsewhere by (try assumption; congruence).
        rewrite Hinv by assumption.
        destruct (Z.eqb_spec y' y); [contradiction|]. reflexivity.
      * rewrite body_elsewhere by (try assumption; congruence).
        rewrite Hinv by assumption.
        destruct (y' =? y)%Z, (Z.leb_spec lo x'), (Z.ltb_spec x' i),
          (Z.ltb_spec x' (i + 1)); simpl; try reflexivity; lia.
  - rewrite for_range_empty by lia. split; [exact Hm|].
    intros x' y' _.
    destruct (y' =? y)%Z, (Z.leb_spec lo x'), (Z.ltb_spec x' hi);
      simpl; try reflexivity; lia.
Qed.

Lemma loop_box x0 x1 y0 y1 m :
  (0 <= x0)%Z -> (x1 <= width)%Z -> (0 <= y0)%Z -> (y1 <= height)%Z ->
  well_sized width height m ->
  let m' := for_range y0 y1 (fun y => for_range x0 x1 (fun x => body y x)) m in
  well_sized width height m' /\
  forall x y, in_raster width height x y ->
    intensity_at m' width x y
    = if ((x0 <=? x) && (x <? x1) && (y0 <=? y) && (y <? y1))%Z
      then update x y (intensity_at m width x y)
      else intensity_at m width x y.
Proof.
  intros Hx0 Hx1 Hy0 Hy1 Hm.
  assert (Hgoal : forall hi, (hi <= height)%Z ->
    let m' := for_range y0 hi (fun y => for_range x0 x1 (fun x => body y x)) m in
    well_sized width height m' /\
    forall x y, in_raster width height x y ->
      intensity_at m' width x y
      = if ((x0 <=? x) && (x <? x1) && (y0 <=? y) && (y <? hi))%Z
        then update x y (intensity_at m width x y)
        else intensity_at m width x y).
  { intros hi Hhi. cbv zeta.
    destruct (Z.le_gt_cases y0 hi) as [Hle|Hgt].
    - apply (for_range_invariant
               (fun y => for_range x0 x1 (fun x => body y x))
               (fun i t => well_sized width height t /\
                  forall x y, in_raster width height x y ->
                    intensity_at t width x y
                    = if ((x0 <=? x) && (x <? x1) && (y0 <=? y) && (y <? i))%Z
                      then update x y (intensity_at m width x y)
                      else intensity_at m width x y)); [exact Hle| |].
      + split; [exact Hm|]. intros x y _.
        destruct (x0 <=? x)%Z, (x <? x1)%Z, (Z.leb_spec y0 y), (Z.ltb_spec y y0);
          simpl; try reflexivity; lia.
      + intros i t Hi [Ht Hinv].
        destruct (@loop_row i x0 x1 t) as [Hs Hrow];
          try assumption; try lia.
        split; [exact Hs|]. intros x y Hin.
        rewrite Hrow by assumption. rewrite Hinv by assumption.
        destruct (Z.eqb_spec y i) as [->|Hne].
        * destruct (Z.leb_spec x0 x), (Z.ltb_spec x x1), (Z.leb_spec y0 i),
            (Z.ltb_spec i i), (Z.ltb_spec i (i + 1)); simpl;
            try reflexivity; lia.
        * destruct (Z.leb_spec x0 x), (Z.ltb_spec x x1), (Z.leb_spec y0 y),
            (Z.ltb_spec y i), (Z.ltb_spec y (i + 1)); simpl;
            try reflexivity; lia.
    - rewrite for_range_empty by lia. split; [exact Hm|].
      intros x y _.
      destruct (x0 <=? x)%Z, (x <? x1)%Z, (Z.leb_spec y0 y), (Z.ltb_spec y hi);
        simpl; try reflexivity; lia. }
  exact (Hgoal y1 Hy1).
Qed.
End PixelLoops.

(** ** The accumulator with its roundings, pixel by pixel *)

Lemma rounded_pixel_sized width height point y x m :
  well_sized width height m ->
  well_sized width height (Rounded.accumulate_pixel point width y x m).
Proof.
  unfold well_sized, Rounded.accumulate_pixel. intros H. cbv zeta.
  destruct (Rlt_dec _ _); [rewrite array_set_length|]; exact H.
Qed.

Lemma rounded_pixel_here width height point x y m :
  in_raster width height x y -> well_sized width height m ->
  intensity_at (Rounded.accumulate_pixel point width y x m) width x y
  = rounded_pixel_update point x y (intensity_at m width x y).
Proof.
  intros Hin Hm.
  unfold Rounded.accumulate_pixel, rounded_pixel_update, intensity_at, store,
    rounded_falloff. cbv zeta.
  fold (rounded_distance point x y).
  destruct (Rlt_dec (rounded_distance point x y) radius); [|reflexivity].
  apply array_get_set_same.
  pose proof (index_bounds Hin). unfold well_sized in Hm. lia.
Qed.

Lemma rounded_pixel_elsewhere width height point x y x' y' m :
  in_raster width height x y -> in_raster width height x' y' ->
  (x, y) <> (x', y') ->
  intensity_at (Rounded.accumulate_pixel point width y x m) width x' y'
  = intensity_at m width x' y'.
Proof.
  intros Hin Hin' Hne. unfold Rounded.accumulate_pixel, intensity_at. cbv zeta.
  destruct (Rlt_dec _ _); [|reflexivity].
  apply array_get_set_other.
  - pose proof (index_bounds Hin'). lia.
  - intros Heq. apply Hne.
    destruct Hin as [Hx _], Hin' as [Hx' _].
    destruct (index_injective y y' Hx Hx' Heq). congruence.
Qed.

(** One point: the pixels its loops visit are updated once, the others keep
    their value. *)
Lemma rounded_point_spec width height point m :
  well_sized width height m ->
  well_sized width height (Rounded.accumulate_point width height m point) /\
  forall x y, in_raster width height x y ->
    intensity_at (Rounded.accumulate_point width height m point) width x y
    = rounded_point_update width height x y (intensity_at m width x y) point.
Proof.
  intros Hm. unfold Rounded.accumulate_point, rounded_point_update,
    rounded_in_loops. cbv zeta.
  apply (@loop_box width height
           (fun y x => Rounded.accumulate_pixel point width y x)
           (rounded_pixel_update point)).
  - intros y x t. apply rounded_pixel_sized.
  - intros x y t. apply rounded_pixel_here.
  - intros x y x' y' t. apply rounded_pixel_elsewhere.
  - unfold Rounded.box_x0. lia.
  - unfold Rounded.box_x1. lia.
  - unfold Rounded.box_y0. lia.
  - unfold Rounded.box_y1. lia.
  - exact Hm.
Qed.

Lemma rounded_fold_spec width height points :
  forall m, well_sized width height m ->
    well_sized width height
      (fold_left (Rounded.accumulate_point width height) points m) /\
    forall x y, in_raster width height x y ->
      intensity_at (fold_left (Rounded.accumulate_point width height) points m)
        width x y
      = fold_left (rounded_point_update width height x y) points
          (intensity_at m width x y).
Proof.
  induction points as [|p ps IH]; intros m Hm; simpl.
  - split; [exact Hm | reflexivity].
  - destruct (rounded_point_spec p Hm) as [Hs Hp].
    destruct (IH _ Hs) as [Hs' Hfold]. split; [exact Hs'|].
    intros x y Hin. rewrite Hfold by assumption. rewrite Hp by assumption.
    reflexivity.
Qed.

Lemma rounded_accumulate_sized points width height :
  well_sized width height (Rounded.accumulate points width height).
Proof.
  unfold Rounded.accumulate.
  now destruct (rounded_fold_spec points (new_Float32Array_sized width height)).
Qed.

Lemma rounded_accumulate_at points width height x y :
  in_raster width height x y ->
  intensity_at (Rounded.accumulate points width height) width x y
  = fold_left (rounded_point_update width height x y) points 0.
Proof.
  intros Hin. unfold Rounded.accumulate.
  destruct (rounded_fold_spec points (new_Float32Array_sized width height))
    as [_ H].
  rewrite H by assumption. f_equal.
  unfold intensity_at, new_Float32Array. apply array_get_repeat.
Qed.

(** ** What one update stores *)

Lemma binary64_0 : binary64 0 = 0.
Proof. apply round_0. Qed.

Lemma binary64_1 : binary64 1 = 1.
Proof. apply (binary64_IZR 1). lia. Qed.

Lemma binary64_5 : binary64 5 = 5.
Proof. apply (binary64_IZR 5). lia. Qed.

Lemma binary64_30 : binary64 30 = 30.
Proof. apply (binary64_IZR 30). lia. Qed.

Lemma binary64_below (n : Z) x :
  (Z.abs n <= 9007199254740992)%Z -> x <= IZR n -> binary64 x <= IZR n.
Proof. intros Hn H. rewrite <- (binary64_IZR n Hn). now apply binary64_le. Qed.

Lemma binary64_above (n : Z) x :
  (Z.abs n <= 9007199254740992)%Z -> IZR n <= x -> IZR n <= binary64 x.
Proof. intros Hn H. rewrite <- (binary64_IZR n Hn). now apply binary64_le. Qed.

Lemma Math_fround_0 : Math_fround 0 = 0.
Proof. apply round_0. Qed.

Lemma Math_fround_5 : Math_fround 5 = 5.
Proof. apply (Math_fround_IZR 5). lia. Qed.

Lemma rounded_distance_nonneg point x y : 0 <= rounded_distance point x y.
Proof. unfold rounded_distance. cbv zeta. apply binary64_nonneg, sqrt_pos. Qed.

(** The literal [0.4] as a number: within 2^-55 of 0.4. *)
Lemma binary64_04 :
  Rabs (binary64 0.4 - 0.4) <= / 36028797018963968 /\ 0 <= binary64 0.4 <= 1.
Proof.
  split.
  - pose proof (@binary64_error 0.4 (Z.opp 1)) as He.
    rewrite (@bpow_neg_eval 1 2) in He by (lia || reflexivity).
    change (Z.opp 1 - 53)%Z with (Z.opp 54) in He.
    rewrite (@bpow_neg_eval 54 18014398509481984) in He by (lia || reflexivity).
    assert (H : Rabs 0.4 < / 2) by (rewrite Rabs_pos_eq; lra).
    specialize (He H ltac:(lia)). lra.
  - split.
    + apply binary64_nonneg. lra.
    + apply (@binary64_below 1); [lia | lra].
Qed.

Lemma rounded_falloff_range d :
  0 <= d < radius -> 0 <= rounded_falloff d <= 1.
Proof.
  unfold rounded_falloff, radius. intros [H0 H1].
  destruct binary64_04 as [_ [Hc0 Hc1]].
  assert (Hq : 0 <= binary64 (d / 30) <= 1).
  { split; [apply binary64_nonneg|apply (@binary64_below 1); [lia|]].
    - apply Rmult_le_pos; lra.
    - lra. }
  assert (Hs : 0 <= binary64 (1 - binary64 (d / 30)) <= 1).
  { split; [apply binary64_nonneg; lra|].
    apply (@binary64_below 1); [lia | lra]. }
  split; [apply binary64_nonneg; nra|].
  apply (@binary64_below 1); [lia | nra].
Qed.


Lemma Rmin_lipschitz a b c : Rabs (Rmin a c - Rmin b c) <= Rabs (a - b).
Proof.
  unfold Rmin. destruct (Rle_dec a c), (Rle_dec b c);
    unfold Rabs; repeat destruct (Rcase_abs _); lra.
Qed.

Lemma store_range old c :
  0 <= old <= 5 -> 0 <= c <= 1 -> 0 <= store old c <= 5.
Proof.
  intros Ho Hc. unfold store, Math_min, maxPointsPerPixel.
  assert (Ha : 0 <= binary64 (old + c)) by (apply binary64_nonneg; lra).
  assert (Hm : 0 <= Rmin (binary64 (old + c)) 5 <= 5)
    by (unfold Rmin; destruct (Rle_dec _ _); lra).
  split.
  - rewrite <- Math_fround_0. apply Math_fround_le. lra.
  - apply Rle_trans with (Math_fround 5); [apply Math_fround_le; lra|].
    rewrite Math_fround_5. lra.
Qed.

(** One update is the exact "add, then cap" within 2^-22 + 2^-51. *)
Lemma store_error old c :
  0 <= old <= 5 -> 0 <= c <= 1 ->
  Rabs (store old c - Rmin (old + c) 5)
  <= / 4194304 + / 2251799813685248.
Proof.
  intros Ho Hc. unfold store, Math_min, maxPointsPerPixel.
  set (a := binary64 (old + c)).
  assert (Ha0 : 0 <= a) by (apply binary64_nonneg; lra).
  assert (Ha : Rabs (a - (old + c)) <= / 2251799813685248).
  { apply binary64_error_8. rewrite Rabs_pos_eq; lra. }
  assert (Hm : 0 <= Rmin a 5 <= 5)
    by (unfold Rmin; destruct (Rle_dec _ _); lra).
  assert (Hf : Rabs (Math_fround (Rmin a 5) - Rmin a 5) <= / 4194304).
  { apply Math_fround_error_8. rewrite Rabs_pos_eq; lra. }
  pose proof (Rmin_lipschitz a (old + c) 5) as Hl.
  replace (Math_fround (Rmin a 5) - Rmin (old + c) 5)
    with ((Math_fround (Rmin a 5) - Rmin a 5) + (Rmin a 5 - Rmin (old + c) 5))
    by lra.
  eapply Rle_trans; [apply Rabs_triang|]. lra.
Qed.

Lemma rounded_point_update_step width height x y old point :
  0 <= old <= 5 ->
  0 <= rounded_point_update width height x y old point <= 5 /\
  Rabs (rounded_point_update width height x y old point
        - Rmin (old + rounded_contribution point width height x y) 5)
  <= / 4194304 + / 2251799813685248.
Proof.
  intros Ho. unfold rounded_point_update, rounded_contribution,
    rounded_pixel_update.
  assert (Hsame : Rabs (old - Rmin (old + 0) 5)
                  <= / 4194304 + / 2251799813685248).
  { rewrite Rplus_0_r. unfold Rmin. destruct (Rle_dec old 5); [|lra].
    rewrite Rminus_diag, Rabs_R0. lra. }
  destruct (rounded_in_loops _ _ _ _ _); [|split; assumption].
  destruct (Rlt_dec _ _) as [Hd|_]; [|split; assumption].
  assert (Hc : 0 <= rounded_falloff (rounded_distance point x y) <= 1).
  { apply rounded_falloff_range.
    split; [apply rounded_distance_nonneg | exact Hd]. }
  split; [now apply store_range | now apply store_error].
Qed.



(** ** Points on a pixel, with the roundings *)

Lemma rounded_center_in_loops width height x y :
  in_raster width height x y -> exact_coordinates x y ->
  rounded_in_loops (mkPoint (IZR x) (IZR y)) width height x y = true.
Proof.
  intros [Hx Hy] [Hex Hey].
  unfold rounded_in_loops, Rounded.box_x0, Rounded.box_x1, Rounded.box_y0,
    Rounded.box_y1, radius, Math_floor. cbn [point_x point_y].
  rewrite <- !minus_IZR, <- !plus_IZR.
  rewrite !binary64_IZR by lia. rewrite !ZfloorZ.
  destruct (Z.leb_spec (Z.max 0 (x - 30)) x); [|lia].
  destruct (Z.ltb_spec x (Z.min width (x + 30))); [|lia].
  destruct (Z.leb_spec (Z.max 0 (y - 30)) y); [|lia].
  destruct (Z.ltb_spec y (Z.min height (y + 30))); [|lia].
  reflexivity.
Qed.

Lemma rounded_distance_to_self x y :
  rounded_distance (mkPoint (IZR x) (IZR y)) x y = 0.
Proof.
  unfold rounded_distance. cbn [point_x point_y]. cbv zeta.
  rewrite !Rminus_diag, binary64_0, Rmult_0_l, binary64_0, Rplus_0_l,
    binary64_0, sqrt_0. apply binary64_0.
Qed.

Lemma rounded_falloff_0 : rounded_falloff 0 = binary64 0.4.
Proof.
  unfold rounded_falloff, radius.
  replace (0 / 30) with 0 by lra.
  rewrite binary64_0, Rminus_0_r, binary64_1, Rmult_1_l.
  apply binary64_idempotent.
Qed.

Lemma rounded_center_contribution width height x y :
  in_raster width height x y -> exact_coordinates x y ->
  rounded_contribution (mkPoint (IZR x) (IZR y)) width height x y = binary64 0.4.
Proof.
  intros Hin Hex. unfold rounded_contribution.
  rewrite rounded_center_in_loops, rounded_distance_to_self by assumption.
  unfold radius. destruct (Rlt_dec 0 30); [apply rounded_falloff_0 | lra].
Qed.




(** What a single point leaves is the binary32 number nearest to the
    intensity computed for it. *)
Lemma rounded_single_point width height x y point :
  in_raster width height x y ->
  intensity_at (Rounded.accumulate [point] width height) width x y
  = Math_fround (rounded_contribution point width height x y).
Proof.
  intros Hin. rewrite rounded_accumulate_at by assumption.
  cbn [fold_left]. unfold rounded_point_update, rounded_contribution,
    rounded_pixel_update.
  destruct (rounded_in_loops _ _ _ _ _); [|now rewrite Math_fround_0].
  destruct (Rlt_dec _ _) as [Hd|_]; [|now rewrite Math_fround_0].
  pose proof (@rounded_falloff_range (rounded_distance point x y)
                (conj (rounded_distance_nonneg point x y) Hd)) as Hc.
  unfold store, Math_min, maxPointsPerPixel. rewrite Rplus_0_l.
  unfold rounded_falloff at 1. rewrite binary64_idempotent.
  fold (rounded_falloff (rounded_distance point x y)).
  rewrite Rmin_left by lra. reflexivity.
Qed.





(** ** Beyond the reach of a point, with the roundings *)

Lemma binary64_error_32 x :
  Rabs x < 32 -> Rabs (binary64 x - x) <= / 562949953421312.
Proof.
  intros H. pose proof (@binary64_error x 5) as He.
  rewrite (@bpow_pos_eval 5 32) in He by (lia || reflexivity).
  change (5 - 53)%Z with (Z.opp 48) in He.
  rewrite (@bpow_neg_eval 48 281474976710656) in He by (lia || reflexivity).
  specialize (He H ltac:(lia)). lra.
Qed.

Lemma binary64_error_1024 x :
  Rabs x < 1024 -> Rabs (binary64 x - x) <= / 17592186044416.
Proof.
  intros H. pose proof (@binary64_error x 10) as He.
  rewrite (@bpow_pos_eval 10 1024) in He by (lia || reflexivity).
  change (10 - 53)%Z with (Z.opp 43) in He.
  rewrite (@bpow_neg_eval 43 8796093022208) in He by (lia || reflexivity).
  specialize (He H ltac:(lia)). lra.
Qed.

(** The square of a rounded difference, rounded: at least 900 when the
    difference is 30 or more in magnitude, and within 2^-42 of the exact
    square otherwise. *)
Lemma rounded_square a :
  0 <= binary64 (binary64 a * binary64 a) /\
  (30 <= Rabs a -> 900 <= binary64 (binary64 a * binary64 a)) /\
  (Rabs a < 30 ->
   a * a - / 4398046511104 <= binary64 (binary64 a * binary64 a)).
Proof.
  split; [apply binary64_nonneg; nra|]. split.
  - intros Ha.
    assert (HA : 30 <= binary64 a \/ binary64 a <= -30).
    { revert Ha. unfold Rabs. destruct (Rcase_abs a); intros Ha.
      - right. apply (@binary64_below (-30)); [lia | lra].
      - left. apply (@binary64_above 30); [lia | lra]. }
    apply (@binary64_above 900); [lia|]. destruct HA; nra.
  - intros Ha.
    assert (Hab : -30 < a < 30)
      by (revert Ha; unfold Rabs; destruct (Rcase_abs a); lra).
    assert (He : Rabs (binary64 a - a) <= / 562949953421312).
    { apply binary64_error_32. lra. }
    assert (Hr : -30 <= binary64 a <= 30).
    { split; [apply (@binary64_above (-30)) | apply (@binary64_below 30)];
        try lia; lra. }
    assert (Hsq : Rabs (binary64 a * binary64 a) < 1024).
    { rewrite Rabs_pos_eq by nra. nra. }
    apply binary64_error_1024 in Hsq.
    set (A := binary64 a) in *. set (P := binary64 (A * A)) in *.
    assert (He' : - / 562949953421312 <= A - a <= / 562949953421312)
      by (revert He; unfold Rabs; destruct (Rcase_abs _); lra).
    assert (Hsq' : - / 17592186044416 <= P - A * A)
      by (revert Hsq; unfold Rabs; destruct (Rcase_abs _); lra).
    assert (Hd : a * a - 60 * / 562949953421312 <= A * A).
    { replace (A * A) with (a * a + (A - a) * (A + a)) by ring.
      assert (- (60 * / 562949953421312) <= (A - a) * (A + a)); [|lra].
      set (d := A - a) in *. set (t := A + a).
      assert (Ht : -60 <= t <= 60) by (unfold t; lra).
      nra. }
    lra.
Qed.

Lemma rounded_distance_far point x y :
  radius + reach_margin <= distance point x y ->
  radius <= rounded_distance point x y.
Proof.
  unfold radius, reach_margin, distance, rounded_distance. cbv zeta.
  set (a := point_x point - IZR x). set (b := point_y point - IZR y).
  intros H.
  destruct (rounded_square a) as (Ha0 & Ha1 & Ha2).
  destruct (rounded_square b) as (Hb0 & Hb1 & Hb2).
  set (P := binary64 (binary64 a * binary64 a)) in *.
  set (Q := binary64 (binary64 b * binary64 b)) in *.
  assert (Hsum : 900 <= P + Q).
  { destruct (Rle_lt_dec 30 (Rabs a)) as [Hfa|Hna]; [specialize (Ha1 Hfa); lra|].
    destruct (Rle_lt_dec 30 (Rabs b)) as [Hfb|Hnb]; [specialize (Hb1 Hfb); lra|].
    specialize (Ha2 Hna). specialize (Hb2 Hnb).
    assert (Hsq : (30 + / 1000000000000) * (30 + / 1000000000000)
                  <= a * a + b * b).
    { destruct (Rle_lt_dec ((30 + / 1000000000000) * (30 + / 1000000000000))
                  (a * a + b * b)) as [Hle|Hlt]; [exact Hle|].
      apply sqrt_bound_lt in Hlt; [lra | nra | lra]. }
    lra. }
  apply (@binary64_above 30); [lia|].
  replace 30 with (sqrt (30 * 30)) by (apply sqrt_square; lra).
  apply sqrt_le_1_alt.
  replace (30 * 30) with 900 by lra.
  apply (@binary64_above 900); [lia | exact Hsum].
Qed.

Lemma rounded_far_point_update width height x y old point :
  radius + reach_margin <= distance point x y ->
  rounded_point_update width height x y old point = old.
Proof.
  intros H. apply rounded_distance_far in H.
  unfold rounded_point_update, rounded_pixel_update.
  destruct (rounded_in_loops _ _ _ _ _); [|reflexivity].
  destruct (Rlt_dec _ _); [lra | reflexivity].
Qed.

(* ================================================================== *)
(** * Part IV: further properties of the code *)
(* ================================================================== *)

(** ** [hue2rgb] and [hslToRgb] *)

Lemma hue2rgb_range p q t :
  p <= q -> -1 <= t <= 2 -> p <= hue2rgb p q t <= q.
Proof.
  intros Hpq Ht. unfold hue2rgb.
  destruct (Rlt_dec t 0); destruct (Rlt_dec 1 _);
    destruct (Rlt_dec _ (1 / 6)); try destruct (Rlt_dec _ (1 / 2));
    try destruct (Rlt_dec _ (2 / 3)); try lra; nra.
Qed.

(** X1. For [p <= q] and a hue offset [t] in [-1, 2], [hue2rgb p q t] lies
    between [p] and [q]: a channel is never darker than [p] nor brighter
    than [q]. *)
Theorem hue2rgb_between :
  forall p q t : R,
    p <= q -> -1 <= t <= 2 -> p <= hue2rgb p q t <= q.
Proof. intros p q t. apply hue2rgb_range. Qed.

Lemma hue2rgb_between_witness : 0 <= hue2rgb 0 1 (1 / 12) <= 1.
Proof.
  apply (@hue2rgb_between 0 1 (1 / 12)); lra.
Defined.

Lemma Math_round_unit_byte c :
  0 <= c <= 1 -> is_byte (Math_round (c * 255)).
Proof.
  intros H. unfold is_byte, Math_round.
  pose proof (Zfloor_bound (c * 255 + 0.5)) as Hf. split.
  - apply Zfloor_lub. simpl. lra.
  - assert (Zfloor (c * 255 + 0.5) < 256)%Z; [|lia]. apply lt_IZR. lra.
Qed.

(** X2. For hue, saturation and lightness in [0, 1] the three channels
    [hslToRgb] returns are bytes. *)
Theorem hslToRgb_bytes :
  forall h s l : R,
    0 <= h <= 1 -> 0 <= s <= 1 -> 0 <= l <= 1 ->
    is_byte (fst (fst (hslToRgb h s l))) /\
    is_byte (snd (fst (hslToRgb h s l))) /\
    is_byte (snd (hslToRgb h s l)).
Proof.
  intros h s l Hh Hs Hl. unfold hslToRgb.
  destruct (Req_dec_T s 0) as [_|_].
  - cbn [fst snd]. repeat split; apply Math_round_unit_byte; lra.
  - set (q := if Rlt_dec l 0.5 then l * (1 + s) else l + s - l * s).
    assert (Hq : 0 <= 2 * l - q /\ 2 * l - q <= q /\ q <= 1).
    { unfold q. destruct (Rlt_dec l 0.5); repeat split; nra. }
    destruct Hq as (Hp0 & Hpq & Hq1).
    pose proof (@hue2rgb_range (2 * l - q) q (h + 1 / 3) Hpq ltac:(lra)) as Hr.
    pose proof (@hue2rgb_range (2 * l - q) q h Hpq ltac:(lra)) as Hg.
    pose proof (@hue2rgb_range (2 * l - q) q (h - 1 / 3) Hpq ltac:(lra)) as Hb.
    cbn [fst snd]. repeat split; apply Math_round_unit_byte; lra.
Qed.

Lemma hslToRgb_bytes_witness :
  is_byte (fst (fst (hslToRgb 0.25 1 0.5))) /\
  is_byte (snd (fst (hslToRgb 0.25 1 0.5))) /\
  is_byte (snd (hslToRgb 0.25 1 0.5)).
Proof.
  apply (@hslToRgb_bytes 0.25 1 0.5); lra.
Defined.

(** ** The colour ramp *)

(** At full saturation and half lightness the channels are [hue2rgb 0 1]. *)
Lemma hslToRgb_saturated h :
  hslToRgb h 1 0.5
  = (Math_round (hue2rgb 0 1 (h + 1 / 3) * 255),
     Math_round (hue2rgb 0 1 h * 255),
     Math_round (hue2rgb 0 1 (h - 1 / 3) * 255)).
Proof.
  unfold hslToRgb.
  destruct (Req_dec_T 1 0) as [H|_]; [lra|].
  destruct (Rlt_dec 0.5 0.5) as [H|_]; [lra|].
  replace (0.5 + 1 - 0.5 * 1) with 1 by lra.
  replace (2 * 0.5 - 1) with 0 by lra.
  reflexivity.
Qed.

Lemma ToUint8Clamp_range v : is_byte (ToUint8Clamp v).
Proof.
  unfold is_byte, ToUint8Clamp.
  destruct (Rle_dec v 0); [lia|]. destruct (Rle_dec 255 v); [lia|].
  pose proof (Zfloor_bound v) as Hf.
  assert (H0 : (0 <= Zfloor v)%Z) by (apply Zfloor_lub; simpl; lra).
  assert (H1 : (Zfloor v < 255)%Z) by (apply lt_IZR; lra).
  cbv zeta. destruct (Rlt_dec _ _); [lia|].
  destruct (Rlt_dec _ _); [lia|]. destruct (Z.even _); lia.
Qed.

Lemma heat_color_channels i :
  0 <= i <= 1 ->
  heat_color i
  = mkRGBA
      (Math_round (hue2rgb 0 1 ((1 - i) * (240 / 360) + 1 / 3) * 255))
      (Math_round (hue2rgb 0 1 ((1 - i) * (240 / 360)) * 255))
      (Math_round (hue2rgb 0 1 ((1 - i) * (240 / 360) - 1 / 3) * 255))
      (ToUint8Clamp (i * 180)).
Proof.
  intros Hi. unfold heat_color. cbv zeta. rewrite hslToRgb_saturated.
  assert (Hb : forall t, -1 <= t <= 2 ->
                 ToUint8Clamp (IZR (Math_round (hue2rgb 0 1 t * 255)))
                 = Math_round (hue2rgb 0 1 t * 255)).
  { intros t Ht. apply ToUint8Clamp_byte, Math_round_unit_byte.
    apply hue2rgb_range; lra. }
  rewrite !Hb by lra. reflexivity.
Qed.

(** The five segments of [hue2rgb 0 1] that the ramp goes through. *)
Lemma ramp_red_full h : 0 <= h <= 1 / 6 -> hue2rgb 0 1 (h + 1 / 3) = 1.
Proof. intros H. unfold hue2rgb. repeat destruct (Rlt_dec _ _); lra. Qed.

Lemma ramp_red_none h : 1 / 3 <= h <= 2 / 3 -> hue2rgb 0 1 (h + 1 / 3) = 0.
Proof. intros H. unfold hue2rgb. repeat destruct (Rlt_dec _ _); lra. Qed.

Lemma ramp_green_full h : 1 / 6 <= h <= 1 / 2 -> hue2rgb 0 1 h = 1.
Proof. intros H. unfold hue2rgb. repeat destruct (Rlt_dec _ _); lra. Qed.

Lemma ramp_blue_none h : 0 <= h <= 1 / 3 -> hue2rgb 0 1 (h - 1 / 3) = 0.
Proof. intros H. unfold hue2rgb. repeat destruct (Rlt_dec _ _); lra. Qed.

Lemma ramp_blue_full h : 1 / 2 <= h <= 2 / 3 -> hue2rgb 0 1 (h - 1 / 3) = 1.
Proof. intros H. unfold hue2rgb. repeat destruct (Rlt_dec _ _); lra. Qed.

Lemma Math_round_255 : Math_round (1 * 255) = 255%Z.
Proof. apply round_eval. lra. Qed.

Lemma Math_round_0 : Math_round (0 * 255) = 0%Z.
Proof. apply round_eval. lra. Qed.

(** X3. The colour ramp, for a display intensity [i] in (0, 1]: up to 1/4
    the pixel has full blue and no red; from 1/4 to 3/4 it has full green;
    from 3/4 on it has full red and no blue; red is absent up to 1/2 and
    blue is absent from 1/2 on. *)
Theorem heat_color_ramp :
  forall i : R,
    0 < i <= 1 ->
    (i <= 1 / 4 -> blue (heat_color i) = 255%Z /\ red (heat_color i) = 0%Z) /\
    (1 / 4 <= i <= 3 / 4 -> green (heat_color i) = 255%Z) /\
    (3 / 4 <= i -> red (heat_color i) = 255%Z /\ blue (heat_color i) = 0%Z) /\
    (i <= 1 / 2 -> red (heat_color i) = 0%Z) /\
    (1 / 2 <= i -> blue (heat_color i) = 0%Z).
Proof.
  intros i Hi. rewrite heat_color_channels by lra. cbn [red green blue].
  set (h := (1 - i) * (240 / 360)).
  assert (Hh : h = (1 - i) * (2 / 3)) by (unfold h; lra).
  split; [intros H; split|].
  - rewrite ramp_blue_full by lra. apply Math_round_255.
  - rewrite ramp_red_none by lra. apply Math_round_0.
  - split; [intros H|]; [|split; [intros H; split|split; intros H]].
    + rewrite ramp_green_full by lra. apply Math_round_255.
    + rewrite ramp_red_full by lra. apply Math_round_255.
    + rewrite ramp_blue_none by lra. apply Math_round_0.
    + rewrite ramp_red_none by lra. apply Math_round_0.
    + rewrite ramp_blue_none by lra. apply Math_round_0.
Qed.

Lemma heat_color_ramp_witness :
  green (heat_color 0.5) = 255%Z /\ red (heat_color 0.5) = 0%Z /\
  blue (heat_color 0.5) = 0%Z.
Proof.
  destruct (@heat_color_ramp 0.5 ltac:(lra)) as (_ & Hg & _ & Hr & Hb).
  split; [apply Hg; lra|]. split; [apply Hr; lra | apply Hb; lra].
Defined.

(** ** More on the density accumulator *)

Lemma accumulate_sized points width height :
  well_sized width height (accumulate points width height).
Proof.
  unfold accumulate.
  now destruct (fold_accumulate_spec points (new_Float32Array_sized width height)).
Qed.

Lemma colorize_length intensityMap imageData :
  List.length (image_data (colorize intensityMap imageData))
  = List.length (image_data imageData).
Proof.
  unfold colorize. cbn [image_data].
  apply for_range_preserves; [|reflexivity].
  intros i t Ht. now rewrite colorize_pixel_length.
Qed.

(** X4. Whatever the points, the intensity map and the pixel data of the
    overlay hold exactly [width * height] entries: no update changes the
    size of an array. *)
Theorem rasters_keep_their_size :
  forall (points : list Point) (width height : Z),
    List.length (accumulate points width height) = Z.to_nat (width * height) /\
    List.length
      (image_data (colorize (accumulate points width height)
                     (createImageData width height)))
    = Z.to_nat (width * height).
Proof.
  intros points width height. split.
  - apply accumulate_sized.
  - rewrite colorize_length. unfold createImageData. cbn [image_data].
    apply repeat_length.
Qed.

Lemma accumulate_at_range points width height x y :
  in_raster width height x y ->
  0 <= intensity_at (accumulate points width height) width x y <= 5.
Proof.
  intros _. unfold intensity_at. apply within_cap_get.
  unfold accumulate. apply fold_accumulate_within_cap, within_cap_new.
Qed.

Lemma point_update_grows width height x y old point :
  0 <= old <= maxPointsPerPixel ->
  old <= point_update width height x y old point.
Proof.
  intros H. rewrite point_update_add_capped by exact H.
  pose proof (contribution_range point width height x y) as Hc.
  unfold add_capped, Math_min, Rmin, maxPointsPerPixel in *.
  destruct (Rle_dec _ _); lra.
Qed.

Lemma fold_point_update_grows width height x y more :
  forall v, 0 <= v <= maxPointsPerPixel ->
    v <= fold_left (point_update width height x y) more v
    /\ fold_left (point_update width height x y) more v <= maxPointsPerPixel.
Proof.
  induction more as [|p ps IH]; intros v Hv; simpl; [lra|].
  pose proof (point_update_grows width height x y p Hv) as Hg.
  pose proof (point_update_range width height x y p Hv) as Hr.
  destruct (IH _ Hr). lra.
Qed.

(** X5. Adding points never lowers a pixel: at every pixel of the raster
    the intensity after [points ++ more] is at least the intensity after
    [points]; so a pixel that has reached the cap 5 stays at the cap. *)
Theorem more_points_never_lower_a_pixel :
  forall (points more : list Point) (width height x y : Z),
    in_raster width height x y ->
    intensity_at (accumulate points width height) width x y
    <= intensity_at (accumulate (points ++ more) width height) width x y /\
    (intensity_at (accumulate points width height) width x y = 5 ->
     intensity_at (accumulate (points ++ more) width height) width x y = 5).
Proof.
  intros points more width height x y Hin.
  pose proof (accumulate_at_range points Hin) as Hr.
  rewrite (accumulate_at (points ++ more) Hin), fold_left_app.
  rewrite <- (accumulate_at points Hin).
  destruct (@fold_point_update_grows width height x y more
              (intensity_at (accumulate points width height) width x y))
    as [Hlo Hhi]; [unfold maxPointsPerPixel; lra|].
  unfold maxPointsPerPixel in Hhi. split; [exact Hlo | lra].
Qed.

Lemma more_points_never_lower_a_pixel_witness :
  intensity_at (accumulate [mkPoint 1 0] 3 1) 3 1 0
  <= intensity_at (accumulate ([mkPoint 1 0] ++ [mkPoint 2 0]) 3 1) 3 1 0.
Proof.
  apply (@more_points_never_lower_a_pixel [mkPoint 1 0] [mkPoint 2 0] 3 1 1 0).
  unfold in_raster. lia.
Defined.

Lemma for_range_identity {S : Type} (body : Z -> S -> S) lo hi s :
  (forall i t, body i t = t) -> for_range lo hi body s = s.
Proof.
  intros H. apply (for_range_preserves body (fun t => t = s)); [|reflexivity].
  intros i t ->. apply H.
Qed.

(** X6. A point whose loops have no pixel to visit leaves the whole
    intensity map as it is: this is so when [p.x + 30 < 1] or
    [width <= p.x - 30], and likewise in [y]. *)
Theorem far_point_changes_nothing :
  forall (width height : Z) (intensityMap : list R) (point : Point),
    point_x point + radius < 1 \/ IZR width <= point_x point - radius \/
    point_y point + radius < 1 \/ IZR height <= point_y point - radius ->
    accumulate_point width height intensityMap point = intensityMap.
Proof.
  intros width height m point H. unfold accumulate_point. cbv zeta.
  assert (Hlow : forall v, v < 1 -> (Math_floor v <= 0)%Z).
  { intros v Hv. pose proof (Zfloor_bound v) as Hf. unfold Math_floor.
    assert (Zfloor v < 1)%Z; [apply lt_IZR; lra | lia]. }
  assert (Hhigh : forall v n, IZR n <= v -> (n <= Math_floor v)%Z).
  { intros v n Hv. now apply Zfloor_lub. }
  destruct H as [H|[H|[H|H]]].
  - apply for_range_identity. intros y t. apply for_range_empty.
    unfold box_x0, box_x1. pose proof (Hlow _ H). lia.
  - apply for_range_identity. intros y t. apply for_range_empty.
    unfold box_x0, box_x1. pose proof (Hhigh _ _ H). lia.
  - apply for_range_empty.
    unfold box_y0, box_y1. pose proof (Hlow _ H). lia.
  - apply for_range_empty.
    unfold box_y0, box_y1. pose proof (Hhigh _ _ H). lia.
Qed.

Lemma far_point_changes_nothing_witness :
  accumulate_point 62 1 [0; 0] (mkPoint (-30) 0) = [0; 0].
Proof.
  apply far_point_changes_nothing. left. cbn [point_x]. unfold radius. lra.
Defined.

(** ** From the points to the pixels of the overlay *)

Lemma overlay_pixel_at points width height x y :
  in_raster width height x y ->
  overlay_pixel (accumulate points width height) width height (y * width + x)
  = if Rlt_dec 0
         (Math_min (intensity_at (accumulate points width height) width x y) 1)
    then heat_color
           (Math_min (intensity_at (accumulate points width height) width x y) 1)
    else transparent.
Proof.
  intros Hin. unfold intensity_at. apply overlay_pixel_spec.
  - apply accumulate_sized.
  - rewrite (accumulate_sized points width height).
    pose proof (index_bounds Hin). lia.
Qed.

Lemma sum_R_zero l : Forall (fun v => v = 0) l -> sum_R l = 0.
Proof. induction 1; simpl; lra. Qed.

Lemma pixels_beyond_reach_transparent_lemma points width height x y :
  in_raster width height x y ->
  (forall point, In point points -> radius <= distance point x y) ->
  intensity_at (accumulate points width height) width x y = 0 /\
  overlay_pixel (accumulate points width height) width height (y * width + x)
  = transparent.
Proof.
  intros Hin Hfar.
  assert (Hz : intensity_at (accumulate points width height) width x y = 0).
  { rewrite accumulate_sum by assumption.
    rewrite sum_R_zero.
    - unfold Rmin. destruct (Rle_dec 0 5); lra.
    - apply Forall_forall. intros v Hv. apply in_map_iff in Hv.
      destruct Hv as (p & <- & Hp). unfold contribution.
      destruct (in_loops _ _ _ _ _); [|reflexivity].
      destruct (Rlt_dec _ _) as [Hd|_]; [|reflexivity].
      specialize (Hfar p Hp). lra. }
  split; [exact Hz|].
  rewrite overlay_pixel_at by assumption. rewrite Hz.
  destruct (Rlt_dec 0 (Math_min 0 1)) as [H|_]; [|reflexivity].
  unfold Math_min, Rmin in H. destruct (Rle_dec 0 1); lra.
Qed.

(** X7. With the roundings of the code, a pixel of the raster that lies
    more than 10^-12 beyond the radius of every point -- at distance
    30 + 10^-12 or more -- keeps intensity 0 and is fully transparent in
    the overlay's pixel data: the roundings of the distance cannot cross
    that margin. *)
Theorem pixels_beyond_reach_are_transparent :
  forall (points : list Point) (width height x y : Z),
    in_raster width height x y ->
    (forall point, In point points ->
       radius + reach_margin <= distance point x y) ->
    intensity_at (Rounded.accumulate points width height) width x y = 0 /\
    overlay_pixel (Rounded.accumulate points width height) width height
      (y * width + x)
    = transparent.
Proof.
  intros points width height x y Hin Hfar.
  assert (Hz : intensity_at (Rounded.accumulate points width height) width x y = 0).
  { rewrite rounded_accumulate_at by assumption.
    induction points as [|p ps IH]; [reflexivity|].
    cbn [fold_left]. rewrite rounded_far_point_update by (apply Hfar; now left).
    apply IH. intros q Hq. apply Hfar. now right. }
  split; [exact Hz|].
  rewrite overlay_pixel_spec.
  - fold (intensity_at (Rounded.accumulate points width height) width x y).
    rewrite Hz.
    destruct (Rlt_dec 0 (Math_min 0 1)) as [H|_]; [|reflexivity].
    unfold Math_min, Rmin in H. destruct (Rle_dec 0 1); lra.
  - apply rounded_accumulate_sized.
  - rewrite (rounded_accumulate_sized points width height).
    pose proof (index_bounds Hin). lia.
Qed.

Lemma pixels_beyond_reach_are_transparent_witness :
  overlay_pixel (Rounded.accumulate [edge_point] 62 1) 62 1 (0 * 62 + 61)
  = transparent.
Proof.
  apply (@pixels_beyond_reach_are_transparent [edge_point] 62 1 61 0).
  - unfold in_raster. lia.
  - intros point [<-|[]]. unfold edge_point. rewrite distance_on_row.
    unfold radius, reach_margin, Rabs. destruct (Rcase_abs (30.75 - 61)); lra.
Defined.

(** The literal [0.4] as a number, and that number stored into a
    [Float32Array]. *)
Lemma binary64_04_value :
  binary64 0.4 = 7205759403792794 / 18014398509481984.
Proof.
  assert (Hmag : mag 0.4 = Z.opp 1).
  { apply mag_unique. change (Z.opp 1 - 1)%Z with (Z.opp 2).
    rewrite (@bpow_neg_eval 2 4), (@bpow_neg_eval 1 2) by (lia || reflexivity).
    rewrite Rabs_pos_eq; lra. }
  unfold binary64, round_to_format, cexp.
  destruct (Req_dec_T 0.4 0) as [H|_]; [lra|].
  cbv zeta. rewrite Hmag.
  change (Z.max (Z.opp 1 - 53) (-1074)) with (Z.opp 54).
  rewrite Z.opp_involutive.
  rewrite (@bpow_pos_eval 54 18014398509481984) by (lia || reflexivity).
  rewrite (@bpow_neg_eval 54 18014398509481984) by (lia || reflexivity).
  assert (Hr : round_half_even (0.4 * 18014398509481984) = 7205759403792794%Z).
  { unfold round_half_even.
    rewrite (@Zfloor_eq 7205759403792793 (0.4 * 18014398509481984)) by lra.
    cbv zeta. destruct (Rlt_dec _ _); [lra|]. destruct (Rlt_dec _ _); [|lra].
    reflexivity. }
  rewrite Hr. lra.
Qed.

Lemma Math_fround_04_value :
  Math_fround (binary64 0.4) = 13421773 / 33554432.
Proof.
  rewrite binary64_04_value.
  set (c := 7205759403792794 / 18014398509481984).
  assert (Hc : 0.4 <= c <= 0.40000000000000003) by (unfold c; lra).
  assert (Hmag : mag c = Z.opp 1).
  { apply mag_unique. change (Z.opp 1 - 1)%Z with (Z.opp 2).
    rewrite (@bpow_neg_eval 2 4), (@bpow_neg_eval 1 2) by (lia || reflexivity).
    rewrite Rabs_pos_eq; lra. }
  unfold Math_fround, round_to_format, cexp.
  destruct (Req_dec_T c 0) as [H|_]; [lra|].
  cbv zeta. rewrite Hmag.
  change (Z.max (Z.opp 1 - 24) (-149)) with (Z.opp 25).
  rewrite Z.opp_involutive.
  rewrite (@bpow_pos_eval 25 33554432) by (lia || reflexivity).
  rewrite (@bpow_neg_eval 25 33554432) by (lia || reflexivity).
  assert (Hr : round_half_even (c * 33554432) = 13421773%Z).
  { unfold round_half_even.
    rewrite (@Zfloor_eq 13421772 (c * 33554432)) by (unfold c; lra).
    cbv zeta. destruct (Rlt_dec _ _); [unfold c in *; lra|].
    destruct (Rlt_dec _ _); [|unfold c in *; lra].
    reflexivity. }
  rewrite Hr. lra.
Qed.

(** X25. With the roundings of the code, a single point on a pixel leaves
    there the number 13421773 * 2^-25 (0.4000000059604645), the binary32
    number nearest to the binary64 number nearest to 0.4; it is the number
    the accumulator leaves on machine numbers, where it is held with the
    mantissa 13421773 * 2^29 at the exponent -25 - 29. *)
Theorem single_point_leaves_the_binary32_peak :
  forall (width height x y : Z),
    in_raster width height x y ->
    exact_coordinates x y ->
    intensity_at (Rounded.accumulate [mkPoint (IZR x) (IZR y)] width height)
      width x y
    = 13421773 / 33554432 /\
    FloatOps.Prim2SF
      (IEEE.intensity_at (IEEE.accumulate [Samples.origin] 1 1) 1 0 0)
    = SpecFloat.S754_finite false (13421773 * 2 ^ 29) (-25 - 29).
Proof.
  intros width height x y Hin Hex. split.
  - rewrite rounded_single_point, rounded_center_contribution by assumption.
    apply Math_fround_04_value.
  - vm_compute. reflexivity.
Qed.

Lemma single_point_leaves_the_binary32_peak_witness :
  intensity_at (Rounded.accumulate [mkPoint (IZR 100) (IZR 100)] 200 200)
    200 100 100
  = 13421773 / 33554432.
Proof.
  apply (@single_point_leaves_the_binary32_peak 200 200 100 100).
  - unfold in_raster. lia.
  - unfold exact_coordinates. lia.
Defined.

(** ** The cap and the growth of the values, with the roundings *)

Lemma rounded_pixel_within_cap point width y x m :
  within_cap m -> within_cap (Rounded.accumulate_pixel point width y x m).
Proof.
  intros H. unfold Rounded.accumulate_pixel. cbv zeta.
  fold (rounded_distance point x y).
  destruct (Rlt_dec (rounded_distance point x y) radius) as [Hd|Hd]; [|exact H].
  apply within_cap_set; [exact H|].
  pose proof (within_cap_get (y * width + x)%Z H) as Hg.
  fold (rounded_falloff (rounded_distance point x y)).
  fold (store (array_get 0 m (y * width + x)%Z)
          (rounded_falloff (rounded_distance point x y))).
  unfold maxPointsPerPixel in *. apply store_range; [exact Hg|].
  apply rounded_falloff_range.
  split; [apply rounded_distance_nonneg | exact Hd].
Qed.

Lemma rounded_within_cap points width height :
  within_cap (Rounded.accumulate points width height).
Proof.
  unfold Rounded.accumulate.
  generalize (within_cap_new (width * height)).
  generalize (new_Float32Array (width * height)).
  induction points as [|p ps IH]; intros m Hm; [exact Hm|].
  cbn [fold_left]. apply IH. unfold Rounded.accumulate_point. cbv zeta.
  apply for_range_preserves; [|exact Hm].
  intros y t Ht. apply for_range_preserves; [|exact Ht].
  intros x u Hu. now apply rounded_pixel_within_cap.
Qed.

(** X26. With the roundings of the code, for every point list, every
    raster and every index, the value of the intensity map lies in [0, 5]:
    neither the rounding of a sum nor the rounding of the store carries a
    value above the cap. *)
Theorem rounded_intensity_within_cap :
  forall (points : list Point) (width height : Z),
    within_cap (Rounded.accumulate points width height) /\
    (forall i, 0 <= array_get 0 (Rounded.accumulate points width height) i <= 5).
Proof.
  intros points width height.
  pose proof (rounded_within_cap points width height) as H.
  split; [exact H|]. intros i. apply (within_cap_get i H).
Qed.

(** A binary32 number is a binary64 number. *)
Lemma binary32_is_binary64 v : is_binary32 v -> binary64 v = v.
Proof.
  unfold is_binary32. intros H.
  destruct (@round_in_format 24 (-149) ltac:(lia) v) as (n & e & Heq & Hn & He).
  fold Math_fround in Heq. rewrite H in Heq. rewrite Heq.
  apply round_generic; lia.
Qed.

Lemma store_grows old c :
  is_binary32 old -> 0 <= old <= 5 -> 0 <= c ->
  old <= store old c /\ is_binary32 (store old c).
Proof.
  intros Hb Ho Hc. unfold store, Math_min, maxPointsPerPixel. split.
  - assert (Ha : old <= binary64 (old + c)).
    { apply Rle_trans with (binary64 old);
        [rewrite (binary32_is_binary64 Hb); lra | apply binary64_le; lra]. }
    assert (Hm : old <= Rmin (binary64 (old + c)) 5)
      by (unfold Rmin; destruct (Rle_dec _ _); lra).
    unfold is_binary32 in Hb.
    apply Rle_trans with (Math_fround old);
      [rewrite Hb; lra | now apply Math_fround_le].
  - unfold is_binary32. apply round_idempotent. lia.
Qed.

Lemma rounded_point_update_grows width height x y old point :
  is_binary32 old -> 0 <= old <= 5 ->
  old <= rounded_point_update width height x y old point /\
  is_binary32 (rounded_point_update width height x y old point) /\
  0 <= rounded_point_update width height x y old point <= 5.
Proof.
  intros Hb Ho.
  destruct (@rounded_point_update_step width height x y old point Ho) as [Hr _].
  split; [|split; [|exact Hr]];
    unfold rounded_point_update, rounded_pixel_update;
    destruct (rounded_in_loops _ _ _ _ _); try lra; try exact Hb;
    destruct (Rlt_dec _ _) as [Hd|_]; try lra; try exact Hb;
    apply store_grows; try assumption;
    apply rounded_falloff_range;
    (split; [apply rounded_distance_nonneg | exact Hd]).
Qed.

Lemma rounded_fold_grows width height x y points :
  forall old, is_binary32 old -> 0 <= old <= 5 ->
    old <= fold_left (rounded_point_update width height x y) points old /\
    is_binary32 (fold_left (rounded_point_update width height x y) points old) /\
    0 <= fold_left (rounded_point_update width height x y) points old <= 5.
Proof.
  induction points as [|p ps IH]; intros old Hb Ho; cbn [fold_left].
  - split; [lra|]. split; assumption.
  - destruct (@rounded_point_update_grows width height x y old p Hb Ho)
      as (Hg & Hb' & Ho').
    destruct (IH _ Hb' Ho') as (Hg' & Hb'' & Ho'').
    split; [lra|]. split; assumption.
Qed.

(** X27. With the roundings of the code, adding points never lowers a
    pixel: a stored value is a binary32 number, the rounded sum is not
    below it, and the rounding of the store does not go below it either.
    A pixel that has reached the cap 5 stays at the cap. *)
Theorem more_points_never_lower_a_stored_value :
  forall (points more : list Point) (width height x y : Z),
    in_raster width height x y ->
    intensity_at (Rounded.accumulate points width height) width x y
    <= intensity_at (Rounded.accumulate (points ++ more) width height) width x y /\
    is_binary32
      (intensity_at (Rounded.accumulate points width height) width x y) /\
    (intensity_at (Rounded.accumulate points width height) width x y = 5 ->
     intensity_at (Rounded.accumulate (points ++ more) width height) width x y
     = 5).
Proof.
  intros points more width height x y Hin.
  rewrite !rounded_accumulate_at, fold_left_app by assumption.
  assert (H0 : is_binary32 0) by apply Math_fround_0.
  destruct (@rounded_fold_grows width height x y points 0 H0 ltac:(lra))
    as (_ & Hb & Hr).
  destruct (@rounded_fold_grows width height x y more _ Hb Hr) as (Hg & _ & Hr').
  split; [exact Hg|]. split; [exact Hb|]. intros H5. lra.
Qed.

Lemma more_points_never_lower_a_stored_value_witness :
  intensity_at (Rounded.accumulate [edge_point] 62 1) 62 1 0
  <= intensity_at
       (Rounded.accumulate ([edge_point] ++ [mkPoint 12.5 0]) 62 1) 62 1 0.
Proof.
  apply (@more_points_never_lower_a_stored_value
           [edge_point] [mkPoint 12.5 0] 62 1 1 0).
  unfold in_raster. lia.
Defined.

(** X8. A single point never shows warm: at every pixel of the raster its
    overlay pixel has no red and an alpha of at most 72. *)
Theorem single_point_stays_cool :
  forall (point : Point) (width height x y : Z),
    in_raster width height x y ->
    red (overlay_pixel (accumulate [point] width height) width height
           (y * width + x)) = 0%Z /\
    (alpha (overlay_pixel (accumulate [point] width height) width height
              (y * width + x)) <= 72)%Z.
Proof.
  intros point width height x y Hin.
  rewrite overlay_pixel_at by assumption.
  fold (single_point_intensity width height x y point).
  rewrite single_point_contribution by assumption.
  pose proof (contribution_range point width height x y) as Hc.
  set (c := contribution point width height x y) in *.
  assert (Hm : Math_min c 1 = c).
  { unfold Math_min, Rmin. destruct (Rle_dec c 1); lra. }
  rewrite Hm. destruct (Rlt_dec 0 c) as [Hpos|_]; [|split; simpl; lia].
  rewrite heat_color_channels by lra. cbn [red alpha]. split.
  - rewrite ramp_red_none by lra. apply Math_round_0.
  - rewrite ToUint8Clamp_rounds by lra.
    apply round_half_even_upper. simpl. lra.
Qed.

Lemma single_point_stays_cool_witness :
  red (overlay_pixel (accumulate [mkPoint 1 0] 3 1) 3 1 (0 * 3 + 1)) = 0%Z /\
  (alpha (overlay_pixel (accumulate [mkPoint 1 0] 3 1) 3 1 (0 * 3 + 1)) <= 72)%Z.
Proof.
  apply (@single_point_stays_cool (mkPoint 1 0) 3 1 1 0).
  unfold in_raster. lia.
Defined.

(** X9. Three or more points stacked on a pixel of the raster paint that
    pixel pure red with alpha 180. *)
Theorem three_stacked_points_show_red :
  forall (n : nat) (width height x y : Z),
    in_raster width height x y ->
    (3 <= n)%nat ->
    overlay_pixel
      (accumulate (repeat (mkPoint (IZR x) (IZR y)) n) width height)
      width height (y * width + x)
    = mkRGBA 255 0 0 180.
Proof.
  intros n width height x y Hin Hn.
  rewrite overlay_pixel_at by assumption.
  rewrite accumulate_sum by assumption.
  rewrite map_repeat, sum_R_repeat, contribution_at_center by assumption.
  apply le_INR in Hn. replace (INR 3) with 3 in Hn by (simpl; lra).
  assert (Hm : Math_min (Rmin (INR n * 0.4) 5) 1 = 1).
  { unfold Math_min, Rmin. repeat destruct (Rle_dec _ _); lra. }
  rewrite Hm. destruct (Rlt_dec 0 1); [apply heat_color_full | lra].
Qed.

Lemma three_stacked_points_show_red_witness :
  overlay_pixel (accumulate (repeat (mkPoint (IZR 1) (IZR 0)) 3) 3 1) 3 1
    (0 * 3 + 1)
  = mkRGBA 255 0 0 180.
Proof.
  apply (@three_stacked_points_show_red 3 3 1 1 0); [unfold in_raster|]; lia.
Defined.

(** ** The overlay image *)

Lemma div255_byte c a : is_byte c -> is_byte a -> is_byte (div255 (c * a)).
Proof.
  unfold is_byte, div255. intros Hc Ha. split.
  - apply Z.div_pos; nia.
  - assert ((c * a + 127) / 255 < 256)%Z; [|lia].
    apply Z.div_lt_upper_bound; nia.
Qed.

Lemma premultiply_valid p : valid_pixel p -> valid_pixel (premultiply p).
Proof.
  intros (Hr & Hg & Hb & Ha). unfold valid_pixel, premultiply.
  cbn [red green blue alpha]. repeat split; try apply div255_byte;
    try assumption; unfold is_byte in *; lia.
Qed.

Lemma heat_color_valid i : valid_pixel (heat_color i).
Proof.
  unfold heat_color. cbv zeta. destruct (hslToRgb _ 1 0.5) as [[r g] b].
  unfold valid_pixel. cbn [red green blue alpha].
  repeat split; apply ToUint8Clamp_range.
Qed.

Lemma Forall_list_set {A : Type} (P : A -> Prop) (a : list A) n v :
  Forall P a -> P v -> Forall P (list_set a n v).
Proof.
  intros H Hv. revert n. induction H as [|w t Hw Ht IH]; intros [|n]; simpl;
    constructor; auto.
Qed.

Lemma Forall_array_set {A : Type} (P : A -> Prop) (a : list A) i v :
  Forall P a -> P v -> Forall P (array_set a i v).
Proof.
  intros H Hv. unfold array_set. destruct (i <? 0)%Z; [exact H|].
  now apply Forall_list_set.
Qed.

(** The colour mapper keeps any property of pixels that transparent black
    and every heat colour of an intensity in (0, 1] have. *)
Lemma colorize_Forall (P : RGBA -> Prop) intensityMap width height :
  P transparent ->
  (forall i, 0 < i <= 1 -> P (heat_color i)) ->
  Forall P (image_data (colorize intensityMap (createImageData width height))).
Proof.
  intros Ht Hh. unfold colorize, createImageData. cbn [image_data].
  apply for_range_preserves.
  - intros i t Hf. unfold colorize_pixel.
    destruct (Rlt_dec 0 (Math_min (array_get 0 intensityMap i) 1)) as [Hpos|_];
      [|exact Hf].
    apply Forall_array_set; [exact Hf|]. apply Hh.
    split; [exact Hpos | apply Rmin_r].
  - apply Forall_forall. intros p Hp. apply repeat_spec in Hp. now subst.
Qed.

Lemma overlay_direct_pixels points width height :
  (0 <= width)%Z ->
  img_pixels (createHeatmapOverlay_direct points width height)
  = map premultiply
      (image_data (colorize (accumulate points width height)
                     (createImageData width height))).
Proof.
  intros Hw. unfold createHeatmapOverlay_direct. cbv zeta.
  set (imageData := colorize (accumulate points width height)
                      (createImageData width height)).
  assert (Hlen : List.length (image_data imageData) = Z.to_nat (width * height)).
  { unfold imageData. rewrite colorize_length. unfold createImageData.
    cbn [image_data]. apply repeat_length. }
  assert (Hvalid : Forall valid_pixel (image_data imageData)).
  { unfold imageData. apply colorize_Forall.
    - apply valid_transparent.
    - intros i _. apply heat_color_valid. }
  rewrite toBuffer_drawImage. cbn [img_pixels].
  set (ctx := putImageData (createCanvas width height) imageData 0 0).
  destruct (Z.le_gt_cases width 0) as [Hw0|Hw0].
  - assert (width = 0)%Z by lia. subst width.
    rewrite drawImage_degenerate by (left; cbn; lia).
    cbn [createCanvas surface]. rewrite Z.mul_0_l in *. cbn [Z.to_nat repeat].
    destruct (image_data imageData); [reflexivity | discriminate].
  - apply (nth_ext _ _ transparent (premultiply transparent)).
    + rewrite drawImage_length, createCanvas_length, length_map. now symmetry.
    + intros n Hn. rewrite drawImage_length, createCanvas_length in Hn.
      rewrite map_nth.
      rewrite drawImage_full; try reflexivity; try assumption;
        try apply createCanvas_length;
        try (rewrite createCanvas_length; exact Hn).
      cbn [createCanvas surface globalCompositeOperation canvas_image img_pixels].
      rewrite nth_repeat_transparent.
      unfold ctx. rewrite putImageData_full; try reflexivity; try assumption;
        try apply createCanvas_length;
        try (rewrite createCanvas_length; exact Hn).
      apply blend_over_transparent, premultiply_valid, valid_nth, Hvalid.
Qed.

Lemma overlay_direct_dimensions points width height :
  img_width (createHeatmapOverlay_direct points width height) = width /\
  img_height (createHeatmapOverlay_direct points width height) = height.
Proof. split; reflexivity. Qed.

(** X10. For a non-negative width, the overlay that [createHeatmapOverlay]
    returns has the dimensions asked for, and its pixels are, in order, the
    pixels written by the colour mapper for the accumulated intensities,
    with alpha premultiplied: nothing of the black fill, and no blending,
    is left in it. *)
Theorem overlay_is_the_colored_intensity_map :
  forall (points : list Point) (width height : Z),
    (0 <= width)%Z ->
    createHeatmapOverlay points width height
    = mkImage width height
        (map premultiply
           (image_data (colorize (accumulate points width height)
                          (createImageData width height)))).
Proof.
  intros points width height Hw.
  rewrite overlay_setup_irrelevant.
  rewrite <- (overlay_direct_pixels points height Hw).
  destruct (overlay_direct_dimensions points width height) as [Hd1 Hd2].
  destruct (createHeatmapOverlay_direct points width height) as [w h px].
  cbn in *. now subst.
Qed.

Lemma overlay_is_the_colored_intensity_map_witness :
  createHeatmapOverlay [mkPoint 1 0] 3 1
  = mkImage 3 1
      (map premultiply
         (image_data (colorize (accumulate [mkPoint 1 0] 3 1)
                        (createImageData 3 1)))).
Proof.
  apply (@overlay_is_the_colored_intensity_map [mkPoint 1 0] 3 1). lia.
Defined.

Lemma heat_color_alpha_range i :
  0 < i <= 1 -> (0 <= alpha (heat_color i) <= 180)%Z.
Proof.
  intros Hi. rewrite heat_color_alpha, ToUint8Clamp_rounds by lra. split.
  - apply round_half_even_lower. lra.
  - apply round_half_even_upper. simpl. lra.
Qed.

(** X11. For every point list and all dimensions, no pixel of the overlay
    that [createHeatmapOverlay] returns has an alpha above 180: the overlay
    is nowhere opaque. *)
Theorem overlay_is_never_opaque :
  forall (points : list Point) (width height : Z),
    Forall (fun p => (0 <= alpha p <= 180)%Z)
      (img_pixels (createHeatmapOverlay points width height)).
Proof.
  intros points width height. rewrite overlay_setup_irrelevant.
  destruct (Z.le_gt_cases width 0) as [Hw|Hw].
  - unfold createHeatmapOverlay_direct. cbv zeta.
    rewrite toBuffer_drawImage. cbn [img_pixels].
    rewrite drawImage_degenerate by (left; exact Hw).
    cbn [createCanvas surface]. apply Forall_forall.
    intros p Hp. apply repeat_spec in Hp. subst. simpl. lia.
  - rewrite overlay_direct_pixels by lia. apply Forall_map.
    apply colorize_Forall.
    + simpl. lia.
    + intros i Hi. cbn [premultiply alpha]. now apply heat_color_alpha_range.
Qed.

(** ** The composited image *)

(** X12. Whatever the points, the image the handler composes has the
    width, the height and the number of pixels of the screenshot's canvas:
    the overlay never resizes it. *)
Theorem composite_keeps_dimensions :
  forall (screenshotBuffer : Buffer) (points : option (list Point)),
    img_width (composite screenshotBuffer points) = img_width screenshotBuffer /\
    img_height (composite screenshotBuffer points) = img_height screenshotBuffer /\
    List.length (img_pixels (composite screenshotBuffer points))
    = Z.to_nat (img_width screenshotBuffer * img_height screenshotBuffer).
Proof.
  intros b points. unfold composite, loadImage. cbv zeta.
  destruct points as [pts|]; cbn [heatmapBuffer_of option_map];
    rewrite toBuffer_drawImage; cbn [img_width img_height img_pixels];
    repeat split; try reflexivity;
    rewrite ?drawImage_length; apply createCanvas_length.
Qed.

Lemma overlay_dimensions points width height :
  img_width (createHeatmapOverlay points width height) = width /\
  img_height (createHeatmapOverlay points width height) = height.
Proof. rewrite overlay_setup_irrelevant. apply overlay_direct_dimensions. Qed.

(** X13. The heatmap only touches what the points reach: a pixel of a
    valid screenshot that lies at distance 30 or more from every point is,
    in the composited image, the pixel of the screenshot. *)
Theorem pixels_beyond_reach_keep_the_screenshot :
  forall (base : Image) (points : list Point) (x y : Z),
    valid_image base ->
    in_raster (img_width base) (img_height base) x y ->
    (forall point, In point points -> radius <= distance point x y) ->
    array_get transparent (img_pixels (composite base (Some points)))
      (y * img_width base + x)
    = array_get transparent (img_pixels base) (y * img_width base + x).
Proof.
  intros base points x y Hbase Hin Hfar.
  pose proof Hbase as (Hw & Hh & Hlen & Hvalid).
  pose proof (index_bounds Hin) as Hidx.
  assert (Hpos : (0 < img_width base)%Z) by (destruct Hin; lia).
  unfold composite, loadImage. cbv zeta. cbn [heatmapBuffer_of option_map].
  set (w := img_width base) in *. set (h := img_height base) in *.
  set (ctx := drawImage (createCanvas w h) base 0 0).
  assert (Hs : surface ctx = img_pixels base)
    by (now apply drawImage_on_fresh_canvas).
  rewrite toBuffer_drawImage. cbn [img_pixels]. unfold array_get.
  destruct (overlay_dimensions points w h) as [Hd1 Hd2].
  rewrite drawImage_full; try assumption.
  - rewrite Hs.
    assert (Ho : nth (Z.to_nat (y * w + x))
                   (img_pixels (createHeatmapOverlay points w h)) transparent
                 = transparent).
    { rewrite overlay_setup_irrelevant, overlay_direct_pixels by lia.
      change transparent with (premultiply transparent) at 1.
      rewrite map_nth.
      destruct (@pixels_beyond_reach_transparent_lemma points w h x y Hin Hfar)
        as [_ Ht].
      unfold overlay_pixel, array_get in Ht. now rewrite Ht. }
    rewrite Ho. apply blend_transparent_over, valid_nth, Hvalid.
  - rewrite Hs. exact Hlen.
  - rewrite Hs, Hlen. lia.
Qed.

Lemma sample_row_valid : valid_image sample_row.
Proof.
  unfold valid_image, sample_row. cbn [img_width img_height img_pixels].
  split; [lia|]. split; [lia|]. split; [reflexivity|].
  apply Forall_forall. intros p Hp. apply repeat_spec in Hp. subst.
  unfold valid_pixel, is_byte. simpl. lia.
Qed.

Lemma pixels_beyond_reach_keep_the_screenshot_witness :
  array_get transparent (img_pixels (composite sample_row (Some [edge_point])))
    (0 * img_width sample_row + 61)
  = array_get transparent (img_pixels sample_row) (0 * img_width sample_row + 61).
Proof.
  apply (@pixels_beyond_reach_keep_the_screenshot sample_row [edge_point] 61 0).
  - exact sample_row_valid.
  - unfold in_raster, sample_row. cbn [img_width img_height]. lia.
  - intros point [<-|[]]. unfold edge_point. rewrite distance_on_row.
    unfold radius, Rabs. destruct (Rcase_abs (30.75 - 61)); lra.
Defined.

(** ** More on the handler *)

(** X14. The handler returns a response only when the launch, every page
    call and the first [close] resolved; the response then carries the
    composited capture with [fullPage] set, after exactly the calls launch,
    newPage, setViewport, goto, screenshot, close. *)
Theorem response_only_after_everything_resolved :
  forall (w : World) (req : Request) (response : Response),
    fst (run w req) = Returned response ->
    puppeteer_launch w = Resolved tt /\
    page_calls_resolve w req /\
    browser_close w 0 = Resolved tt /\
    fullPage response = true /\
    (exists buffer,
       page_screenshot w (req_url req) (req_width req) 0 true = Resolved buffer /\
       screenshot response = composite buffer (req_points req)) /\
    snd (run w req) = page_call_sequence req ++ [Close].
Proof.
  intros w req response. unfold page_calls_resolve, page_call_sequence.
  run_handler.
  case_call (puppeteer_launch w);
    [case_call (browser_newPage w);
      [case_call (page_setViewport w (req_width req) 0);
        [case_call (page_goto w (req_url req));
          [case_call (page_screenshot w (req_url req) (req_width req) 0 true)|]|]|]|];
    try case_call (browser_close w 0); try case_call (browser_close w 1);
    intros Hret; try discriminate Hret.
  all: injection Hret as <-; cbn [fullPage screenshot];
    repeat (first [reflexivity | split | eexists]).
Qed.

Lemma response_only_after_everything_resolved_witness :
  snd (run healthy_world (sample_request 600))
  = page_call_sequence (sample_request 600) ++ [Close].
Proof.
  destruct (@response_only_after_everything_resolved healthy_world
              (sample_request 600)
              (mkResponse (composite sample_screenshot None) true) eq_refl)
    as (_ & _ & _ & _ & _ & Htrace).
  exact Htrace.
Defined.

(** X15. When [puppeteer.launch] rejects, the handler throws that very
    error and makes no other call: no page is opened and nothing is
    closed. *)
Theorem launch_rejection_stops_everything :
  forall (w : World) (req : Request) (reason : string),
    puppeteer_launch w = Rejected reason ->
    run w req = (Thrown (JsError reason), [Launch]).
Proof.
  intros w req reason H. run_handler. now rewrite H.
Qed.

Lemma launch_rejection_stops_everything_witness :
  snd (run launch_failure_world (sample_request 600)) = [Launch].
Proof.
  now rewrite (@launch_rejection_stops_everything launch_failure_world
                 (sample_request 600) _ eq_refl).
Defined.

(** X16. When the capture succeeded but the [browser.close()] of the [try]
    block rejects, the [catch] block calls [close] a second time, and, that
    call resolving, the caller gets the generic failure: the composited
    image is dropped. *)
Theorem failed_close_drops_the_capture :
  forall (w : World) (req : Request) (reason : string),
    puppeteer_launch w = Resolved tt ->
    page_calls_resolve w req ->
    browser_close w 0 = Rejected reason ->
    snd (run w req) = page_call_sequence req ++ [Close; Close] /\
    count_close (snd (run w req)) = 2%nat /\
    (browser_close w 1 = Resolved tt ->
     fst (run w req) = Thrown generic_failure).
Proof.
  intros w req reason Hlaunch (H1 & H2 & H3 & buffer & H4) Hclose.
  unfold page_call_sequence. run_handler.
  rewrite Hlaunch, H1, H2, H3, H4. cbn [app filter is_close List.length].
  rewrite Hclose. cbn [app filter is_close List.length fst snd].
  destruct (browser_close w 1) as [[]|reason1];
    cbn [app filter is_close List.length fst snd];
    (split; [reflexivity|]; split; [reflexivity|]); intros H5;
    [reflexivity | discriminate H5].
Qed.

Lemma failed_close_drops_the_capture_witness :
  fst (run first_close_fails_world (sample_request 600)) = Thrown generic_failure.
Proof.
  assert (Hpage : page_calls_resolve first_close_fails_world (sample_request 600)).
  { unfold page_calls_resolve. repeat split. now exists sample_screenshot. }
  destruct (@failed_close_drops_the_capture first_close_fails_world
              (sample_request 600) _ eq_refl Hpage eq_refl) as (_ & _ & H).
  apply H. reflexivity.
Defined.

(** X17. Every run of the handler makes its calls in one order: a
    non-empty prefix of launch, newPage, setViewport, goto, screenshot,
    followed by at most two [close].  Every call of the prefix but its last
    resolved, and a prefix shorter than the five calls ends with the call
    that rejected: no page call follows a rejected one.  No [close] follows
    a rejected launch, and the second [close] is made exactly when the five
    calls resolved and the first [close] rejected. *)
Theorem calls_come_in_one_order :
  forall (w : World) (req : Request),
    exists (k c : nat),
      (1 <= k <= 5)%nat /\ (c <= 2)%nat /\
      snd (run w req) = firstn k (page_call_sequence req) ++ repeat Close c /\
      (forall i, (i < k - 1)%nat -> call_resolves w req i = true) /\
      ((k < 5)%nat -> call_resolves w req (k - 1) = false) /\
      (c = 0%nat <-> call_resolves w req 0 = false) /\
      (c = 2%nat <->
       (forall i, (i < 5)%nat -> call_resolves w req i = true) /\
       is_resolved (browser_close w 0) = false).
Proof.
  intros w req. unfold page_call_sequence. run_handler.
  case_call (puppeteer_launch w);
    [case_call (browser_newPage w);
      [case_call (page_setViewport w (req_width req) 0);
        [case_call (page_goto w (req_url req));
          [case_call (page_screenshot w (req_url req) (req_width req) 0 true)|]|]|]|];
    try case_call (browser_close w 0); try case_call (browser_close w 1).
  all: first
    [ exists 1%nat, 0%nat; split; [lia|]; split; [lia|]; split; [reflexivity|]
    | exists 2%nat, 1%nat; split; [lia|]; split; [lia|]; split; [reflexivity|]
    | exists 3%nat, 1%nat; split; [lia|]; split; [lia|]; split; [reflexivity|]
    | exists 4%nat, 1%nat; split; [lia|]; split; [lia|]; split; [reflexivity|]
    | exists 5%nat, 1%nat; split; [lia|]; split; [lia|]; split; [reflexivity|]
    | exists 5%nat, 2%nat; split; [lia|]; split; [lia|]; split; [reflexivity|] ].
  all: unfold call_resolves; cbn [Nat.sub];
    repeat match goal with
           | H : ?c = Resolved _ |- _ => rewrite H in *; clear H
           | H : ?c = Rejected _ |- _ => rewrite H in *; clear H
           end; cbn [is_resolved].
  all: split; [intros i Hi; do 5 (try destruct i as [|i]); first [lia | reflexivity]|].
  all: split; [intros Hk; first [lia | reflexivity]|].
  all: split; [split; intros H; first [reflexivity | discriminate H]|].
  all: split;
    [ intros H;
      first [ discriminate H
            | split; [|reflexivity]; intros i Hi;
              do 5 (try destruct i as [|i]); try lia; reflexivity ]
    | intros [Hall Hc];
      first [ reflexivity
            | discriminate Hc
            | discriminate (Hall 0%nat ltac:(lia))
            | discriminate (Hall 1%nat ltac:(lia))
            | discriminate (Hall 2%nat ltac:(lia))
            | discriminate (Hall 3%nat ltac:(lia))
            | discriminate (Hall 4%nat ltac:(lia)) ] ].
Qed.

(** ** The schema of the body *)

(** X18. A body the schema accepts is an object whose [url] is a string
    and whose [width] and [height] are numbers, the ones of the parsed
    request; and the request has no points exactly when the body has no
    [points] key. *)
Theorem accepted_bodies_are_well_typed :
  forall (body : Json) (req : Request),
    renderWebPageSchema_parse body = Some req ->
    exists fields,
      body = JObject fields /\
      field "url" fields = Some (JString (req_url req)) /\
      field "width" fields = Some (JNumber (req_width req)) /\
      field "height" fields = Some (JNumber (req_height req)) /\
      (req_points req = None <-> field "points" fields = None).
Proof.
  intros body req. unfold renderWebPageSchema_parse.
  destruct body as [| | | |items|fields]; try discriminate.
  destruct (field "url" fields) as [[| | |url| |]|] eqn:Hu; try discriminate.
  destruct (field "width" fields) as [[| |width| | |]|] eqn:Hw; try discriminate.
  destruct (field "height" fields) as [[| |height| | |]|] eqn:Hh; try discriminate.
  destruct (field "points" fields) as [[| | | |items|]|] eqn:Hp; try discriminate.
  - destruct (parse_points items); try discriminate.
    intros [= <-]. exists fields. cbn [req_url req_width req_height req_points].
    rewrite Hu, Hw, Hh, Hp.
    split; [reflexivity|]. split; [reflexivity|]. split; [reflexivity|].
    split; [reflexivity|]. split; intros H; discriminate H.
  - intros [= <-]. exists fields. cbn [req_url req_width req_height req_points].
    rewrite Hu, Hw, Hh, Hp.
    split; [reflexivity|]. split; [reflexivity|]. split; [reflexivity|].
    split; [reflexivity|]. split; reflexivity.
Qed.

Lemma accepted_bodies_are_well_typed_witness :
  exists fields,
    sample_body 600 = JObject fields /\
    field "url" fields = Some (JString (req_url (sample_request 600))) /\
    field "width" fields = Some (JNumber (req_width (sample_request 600))) /\
    field "height" fields = Some (JNumber (req_height (sample_request 600))) /\
    (req_points (sample_request 600) = None <-> field "points" fields = None).
Proof.
  apply (@accepted_bodies_are_well_typed (sample_body 600) (sample_request 600)).
  reflexivity.
Defined.

(** X19. A body that lacks [url], [width] or [height] is refused, and the
    handler throws before any call to the browser. *)
Theorem missing_field_is_refused :
  forall (w : World) (fields : list (string * Json)),
    field "url" fields = None \/ field "width" fields = None \/
    field "height" fields = None ->
    renderWebPageSchema_parse (JObject fields) = None /\
    eventHandler w (JObject fields) [] = (Thrown (JsError "ZodError"), []).
Proof.
  intros w fields H.
  assert (Hp : renderWebPageSchema_parse (JObject fields) = None).
  { unfold renderWebPageSchema_parse.
    destruct (field "url" fields) as [[| | |url| |]|]; try reflexivity;
      destruct (field "width" fields) as [[| |width| | |]|]; try reflexivity;
      destruct (field "height" fields) as [[| |height| | |]|]; try reflexivity.
    destruct H as [H|[H|H]]; discriminate H. }
  split; [exact Hp|]. unfold eventHandler. now rewrite Hp.
Qed.

Lemma missing_field_is_refused_witness :
  eventHandler healthy_world
    (JObject [("width"%string, JNumber 800); ("height"%string, JNumber 600)]) []
  = (Thrown (JsError "ZodError"), []).
Proof.
  apply (@missing_field_is_refused healthy_world
           [("width"%string, JNumber 800); ("height"%string, JNumber 600)]).
  left. reflexivity.
Defined.

Lemma parse_points_refuses items item :
  In item items -> parse_point item = None -> parse_points items = None.
Proof.
  induction items as [|i rest IH]; intros Hin Hbad; [contradiction|].
  cbn [parse_points]. destruct Hin as [->|Hin].
  - now rewrite Hbad.
  - rewrite (IH Hin Hbad). now destruct (parse_point i).
Qed.

(** X20. One malformed entry in [points] -- an entry that is not an object
    with numbers under [x] and [y] -- makes the schema refuse the whole
    body. *)
Theorem malformed_point_refuses_the_body :
  forall (fields : list (string * Json)) (items : list Json) (item : Json),
    field "points" fields = Some (JArray items) ->
    In item items ->
    parse_point item = None ->
    renderWebPageSchema_parse (JObject fields) = None.
Proof.
  intros fields items item Hf Hin Hbad. unfold renderWebPageSchema_parse.
  rewrite Hf, (parse_points_refuses _ _ Hin Hbad).
  destruct (field "url" fields) as [[| | |url| |]|]; try reflexivity;
    destruct (field "width" fields) as [[| |width| | |]|]; try reflexivity;
    destruct (field "height" fields) as [[| |height| | |]|]; reflexivity.
Qed.

Lemma malformed_point_refuses_the_body_witness :
  renderWebPageSchema_parse
    (JObject [("url"%string, JString "https://example.test");
              ("width"%string, JNumber 800);
              ("height"%string, JNumber 600);
              ("points"%string,
               JArray [JObject [("x"%string, JNumber 1)]])])
  = None.
Proof.
  apply (@malformed_point_refuses_the_body _
           [JObject [("x"%string, JNumber 1)]]
           (JObject [("x"%string, JNumber 1)])).
  - reflexivity.
  - left. reflexivity.
  - reflexivity.
Defined.

(** ** The page and the handler together *)

Lemma parse_points_of_results results :
  parse_points (map point_json results) = Some results.
Proof.
  induction results as [|[px py] rest IH]; [reflexivity|].
  cbn [map parse_points]. rewrite IH. reflexivity.
Qed.

Lemma parse_screenshot_body currentSite windowWidth :
  renderWebPageSchema_parse (screenshot_body currentSite windowWidth)
  = Some (mkRequest currentSite windowWidth 10000 None).
Proof. reflexivity. Qed.

Lemma parse_results_body currentSite windowWidth results :
  renderWebPageSchema_parse (results_body currentSite windowWidth results)
  = Some (mkRequest currentSite windowWidth 10000 (Some results)).
Proof.
  unfold renderWebPageSchema_parse, results_body.
  cbn [field String.eqb Ascii.eqb Bool.eqb].
  now rewrite parse_points_of_results.
Qed.

(** X21. The schema accepts both bodies the page sends, whatever the
    address, the width and the recorded points, and reads back exactly what
    was sent: the height is always 10000, and the points come back in
    order. *)
Theorem page_bodies_are_accepted :
  forall (currentSite : string) (windowWidth : R) (results : list Point),
    renderWebPageSchema_parse (screenshot_body currentSite windowWidth)
    = Some (mkRequest currentSite windowWidth 10000 None) /\
    renderWebPageSchema_parse (results_body currentSite windowWidth results)
    = Some (mkRequest currentSite windowWidth 10000 (Some results)).
Proof.
  intros. split; [apply parse_screenshot_body | apply parse_results_body].
Qed.

(** X22. When every call to the browser resolves and the capture is a
    valid image, the page gets that capture back unchanged, with
    [fullPage] set, both for its first request (no points) and for a
    request with an empty list of points; the viewport is set to the
    window's width and height 0, although the body says 10000. *)
Theorem page_without_points_gets_the_capture :
  forall (w : World) (currentSite : string) (windowWidth : R) (buffer : Buffer),
    puppeteer_launch w = Resolved tt ->
    browser_newPage w = Resolved tt ->
    page_setViewport w windowWidth 0 = Resolved tt ->
    page_goto w currentSite = Resolved tt ->
    page_screenshot w currentSite windowWidth 0 true = Resolved buffer ->
    browser_close w 0 = Resolved tt ->
    valid_image buffer ->
    eventHandler w (screenshot_body currentSite windowWidth) []
    = (Returned (mkResponse buffer true),
       [Launch; NewPage; SetViewport windowWidth 0; Goto currentSite;
        Screenshot true; Close]) /\
    eventHandler w (results_body currentSite windowWidth []) []
    = eventHandler w (screenshot_body currentSite windowWidth) [].
Proof.
  intros w u width buffer H1 H2 H3 H4 H5 H6 Hvalid.
  rewrite (@valid_body_runs_handler w _ _ (parse_screenshot_body u width)).
  rewrite (@valid_body_runs_handler w _ _ (parse_results_body u width [])).
  rewrite (@run_success w (mkRequest u width 10000 None) buffer) by assumption.
  rewrite (@run_success w (mkRequest u width 10000 (Some [])) buffer)
    by assumption.
  cbn [req_points req_width req_url].
  rewrite composite_without_points, composite_with_no_points by assumption.
  split; reflexivity.
Qed.

Lemma page_without_points_gets_the_capture_witness :
  eventHandler healthy_world (screenshot_body "https://example.test" 800) []
  = (Returned (mkResponse sample_screenshot true),
     [Launch; NewPage; SetViewport 800 0; Goto "https://example.test";
      Screenshot true; Close]).
Proof.
  apply (@page_without_points_gets_the_capture healthy_world
           "https://example.test" 800 sample_screenshot
           eq_refl eq_refl eq_refl eq_refl eq_refl eq_refl
           sample_screenshot_valid).
Defined.

(** ** The countdown of the page *)

(** ** The countdown of the page *)

Lemma tick_integer (n : Z) :
  (0 <= n <= 9007199254740992)%Z -> tick (IZR n) = IZR (Z.max 0 (n - 1)).
Proof.
  intros Hn. unfold tick. destruct (Rlt_dec 0 (IZR n)) as [Hp|Hp].
  - apply lt_IZR in Hp. rewrite <- (minus_IZR n 1), binary64_IZR by lia.
    f_equal. lia.
  - apply Rnot_lt_le, le_IZR in Hp. f_equal. lia.
Qed.

Lemma ticks_integer k :
  forall n : Z, (0 <= n <= 9007199254740992)%Z ->
    ticks k (IZR n) = IZR (Z.max 0 (n - Z.of_nat k)).
Proof.
  induction k as [|k IH]; intros n Hn; cbn [ticks].
  - f_equal. lia.
  - rewrite tick_integer, IH by lia. f_equal. lia.
Qed.

Lemma ticks_succ k : forall t, ticks (Datatypes.S k) t = tick (ticks k t).
Proof.
  induction k as [|k IH]; intros t; [reflexivity|].
  change (ticks (Datatypes.S (Datatypes.S k)) t)
    with (ticks (Datatypes.S k) (tick t)).
  rewrite IH. reflexivity.
Qed.

Lemma ticks_below k :
  forall (t : R) (j : Z), (0 <= j <= 9007199254740992)%Z -> t <= IZR j ->
    ticks k t <= IZR (Z.max 0 (j - Z.of_nat k)).
Proof.
  induction k as [|k IH]; intros t j Hj Ht; cbn [ticks].
  - replace (Z.max 0 (j - Z.of_nat 0)) with j by lia. exact Ht.
  - unfold tick. destruct (Rlt_dec 0 t) as [Hp|Hp].
    + assert (Hj1 : (1 <= j)%Z).
      { assert (H : (0 < j)%Z) by (apply lt_IZR; lra). lia. }
      replace (j - Z.of_nat (Datatypes.S k))%Z with (j - 1 - Z.of_nat k)%Z by lia.
      apply IH; [lia|]. apply binary64_below; [lia|].
      rewrite minus_IZR. lra.
    + apply Rle_trans with (IZR (Z.max 0 (0 - Z.of_nat k))).
      * apply IH; [lia | lra].
      * apply IZR_le. lia.
Qed.

Lemma ticks_above k : forall t, -1 <= t -> -1 <= ticks k t.
Proof.
  induction k as [|k IH]; intros t Ht; cbn [ticks]; [exact Ht|].
  apply IH. unfold tick. destruct (Rlt_dec 0 t); [|exact Ht].
  apply (@binary64_above (-1)); [lia | lra].
Qed.

(** 10^16 - 1 lies half way between the numbers 10^16 - 2 and 10^16, and
    the tie goes to 10^16. *)
Lemma binary64_tie : binary64 (10000000000000000 - 1) = 10000000000000000.
Proof.
  replace (10000000000000000 - 1) with 9999999999999999 by lra.
  assert (Hmag : mag 9999999999999999 = 54%Z).
  { apply mag_unique. change (54 - 1)%Z with 53%Z.
    rewrite (@bpow_pos_eval 53 9007199254740992) by (lia || reflexivity).
    rewrite (@bpow_pos_eval 54 18014398509481984) by (lia || reflexivity).
    rewrite Rabs_pos_eq; lra. }
  unfold binary64, round_to_format, cexp.
  destruct (Req_dec_T 9999999999999999 0) as [H|_]; [lra|].
  cbv zeta. rewrite Hmag. change (Z.max (54 - 53) (-1074)) with 1%Z.
  rewrite (@bpow_neg_eval 1 2) by (lia || reflexivity). rewrite bpow_1.
  assert (Hr : round_half_even (9999999999999999 * / 2) = 5000000000000000%Z).
  { unfold round_half_even.
    rewrite (@Zfloor_eq 4999999999999999 (9999999999999999 * / 2)) by lra.
    cbv zeta. destruct (Rlt_dec _ _); [lra|]. destruct (Rlt_dec _ _); [lra|].
    reflexivity. }
  rewrite Hr. lra.
Qed.

Lemma ticks_stuck k : ticks k 10000000000000000 = 10000000000000000.
Proof.
  induction k as [|k IH]; [reflexivity|]. cbn [ticks].
  unfold tick at 1. destruct (Rlt_dec 0 10000000000000000); [|lra].
  rewrite binary64_tie. exact IH.
Qed.

(** X23. The countdown, its subtraction rounded as the code rounds it.
    From an integer [n] between 0 and 2^53 the value after [k] ticks is
    [max 0 (n - k)]: it counts down by ones and stops at 0.  From any [T]
    in (0, 2^53] it has stopped once [k] reaches the ceiling of [T], at a
    value in [-1, 0].  From 10^16 it never moves, since 10^16 - 1 rounds
    back to 10^16: the value never reaches 0. *)
Theorem countdown_after_ticks :
  forall k : nat,
    (forall n : Z, (0 <= n <= 9007199254740992)%Z ->
       ticks k (IZR n) = IZR (Z.max 0 (n - Z.of_nat k))) /\
    (forall T : R, 0 < T <= 9007199254740992 -> (Zceil T <= Z.of_nat k)%Z ->
       -1 <= ticks k T <= 0 /\ ticks (Datatypes.S k) T = ticks k T) /\
    ticks k 10000000000000000 = 10000000000000000.
Proof.
  intros k. split; [apply ticks_integer|]. split; [|apply ticks_stuck].
  intros T [Hpos Hmax] Hk. pose proof (Zceil_bound T) as Hc.
  assert (Hc0 : (0 <= Zceil T)%Z) by (apply le_IZR; lra).
  assert (Hc1 : (Zceil T <= 9007199254740992)%Z).
  { assert (H : (Zceil T < 9007199254740992 + 1)%Z); [|lia].
    apply lt_IZR. rewrite plus_IZR. lra. }
  assert (Hle : ticks k T <= 0).
  { pose proof (@ticks_below k T (Zceil T) (conj Hc0 Hc1) ltac:(lra)) as H.
    replace (Z.max 0 (Zceil T - Z.of_nat k)) with 0%Z in H by lia. exact H. }
  split; [split; [apply ticks_above; lra | exact Hle]|].
  rewrite ticks_succ. unfold tick. destruct (Rlt_dec 0 (ticks k T)); [lra|].
  reflexivity.
Qed.

(** ** The statistics of the page *)

Lemma digits_no_dash d : no_dash (DecimalString.NilEmpty.string_of_uint d).
Proof. induction d; simpl; auto; split; auto; discriminate. Qed.

Lemma uint_string_shape d :
  no_dash (DecimalString.NilZero.string_of_uint d) /\
  DecimalString.NilZero.string_of_uint d <> EmptyString.
Proof.
  destruct d; simpl; split; try discriminate;
    repeat split; try discriminate; apply digits_no_dash.
Qed.

Lemma split_at_dash D :
  forall D' B B',
    no_dash D -> no_dash D' ->
    (D ++ String dash B)%string = (D' ++ String dash B')%string ->
    D = D' /\ B = B'.
Proof.
  induction D as [|c D IH]; intros [|c' D'] B B' Hd Hd' H; cbn in H.
  - injection H as <-. split; reflexivity.
  - injection H as Hc _. destruct Hd' as [Hn _]. congruence.
  - injection H as Hc _. destruct Hd as [Hn _]. congruence.
  - injection H as <- H. destruct Hd as [_ Hd], Hd' as [_ Hd'].
    destruct (IH _ _ _ Hd Hd' H) as [-> ->]. split; reflexivity.
Qed.

Lemma string_of_integer_injective n m :
  string_of_integer n = string_of_integer m -> n = m.
Proof.
  unfold string_of_integer. intros H.
  apply DecimalZ.to_int_inj.
  assert (Hnn : forall z, Z.to_int z <> Decimal.Pos Decimal.Nil /\
                          Z.to_int z <> Decimal.Neg Decimal.Nil).
  { intros [|p|p]; simpl; split; try discriminate; intros [= E];
      now apply DecimalPos.Unsigned.to_uint_nonnil in E. }
  destruct (Hnn n) as [Hn1 Hn2], (Hnn m) as [Hm1 Hm2].
  pose proof (@DecimalString.NilZero.isi _ Hn1 Hn2) as En.
  pose proof (@DecimalString.NilZero.isi _ Hm1 Hm2) as Em.
  rewrite H in En. congruence.
Qed.

(** An integer prints as digits, after a [-] when it is negative. *)
Lemma string_of_integer_shape n :
  exists D, no_dash D /\ D <> EmptyString /\
    (string_of_integer n = D \/ string_of_integer n = String dash D).
Proof.
  unfold string_of_integer. destruct n as [|p|p]; cbn [Z.to_int].
  - exists "0"%string. repeat split; try discriminate. now left.
  - exists (DecimalString.NilZero.string_of_uint (Pos.to_uint p)).
    destruct (uint_string_shape (Pos.to_uint p)). repeat split; auto.
  - exists (DecimalString.NilZero.string_of_uint (Pos.to_uint p)).
    destruct (uint_string_shape (Pos.to_uint p)). repeat split; auto.
Qed.

(** Two points have the same key exactly when they have the same pair of
    indices. *)
Lemma area_key_cell p q : area_key p = area_key q <-> cell p = cell q.
Proof.
  unfold area_key, cell. split.
  - set (a := Math_floor (binary64 (point_x p / 100))).
    set (b := Math_floor (binary64 (point_y p / 100))).
    set (a' := Math_floor (binary64 (point_x q / 100))).
    set (b' := Math_floor (binary64 (point_y q / 100))).
    change ("-" ++ string_of_integer b)%string
      with (String dash (string_of_integer b)).
    change ("-" ++ string_of_integer b')%string
      with (String dash (string_of_integer b')).
    destruct (string_of_integer_shape a) as (D & Hd & Hne & [Ea|Ea]);
      destruct (string_of_integer_shape a') as (D' & Hd' & Hne' & [Ea'|Ea']);
      rewrite Ea, Ea'; intros H.
    + destruct (split_at_dash _ _ _ _ Hd Hd' H) as [HD HB].
      assert (Es : string_of_integer a = string_of_integer a') by congruence.
      apply string_of_integer_injective in Es.
      apply string_of_integer_injective in HB. congruence.
    + exfalso. destruct D as [|c D]; [congruence|].
      cbn in H. injection H as Hc _. destruct Hd as [Hn _]. congruence.
    + exfalso. destruct D' as [|c D']; [congruence|].
      cbn in H. injection H as Hc _. destruct Hd' as [Hn _]. congruence.
    + cbn in H. injection H as H.
      destruct (split_at_dash _ _ _ _ Hd Hd' H) as [HD HB].
      assert (Es : string_of_integer a = string_of_integer a') by congruence.
      apply string_of_integer_injective in Es.
      apply string_of_integer_injective in HB. congruence.
  - intros [= -> ->]. reflexivity.
Qed.

Lemma nodup_length_le {A : Type} (dec : forall a b : A, {a = b} + {a <> b}) l :
  (List.length (nodup dec l) <= List.length l)%nat.
Proof.
  induction l as [|a l IH]; simpl; [lia|].
  destruct (in_dec dec a l); simpl; lia.
Qed.

Lemma nodup_length_equivalent {A B C : Type}
    (decB : forall a b : B, {a = b} + {a <> b})
    (decC : forall a b : C, {a = b} + {a <> b})
    (f : A -> B) (g : A -> C) l :
  (forall a b, f a = f b <-> g a = g b) ->
  List.length (nodup decB (map f l)) = List.length (nodup decC (map g l)).
Proof.
  intros Hfg. induction l as [|a l IH]; [reflexivity|].
  cbn [map nodup].
  assert (Hin : In (f a) (map f l) <-> In (g a) (map g l)).
  { rewrite !in_map_iff. split; intros (x & Hx & Hl); exists x;
      (split; [apply Hfg; exact Hx | exact Hl]). }
  destruct (in_dec decB (f a) (map f l)) as [Hi|Hi];
    destruct (in_dec decC (g a) (map g l)) as [Hj|Hj];
    cbn [List.length]; try rewrite IH; try reflexivity;
    exfalso; tauto.
Qed.

(** The number 10^19 is a binary64 number: 5^19 * 2^19. *)
Lemma binary64_ten_19 (sign : Z) :
  (Z.abs sign <= 1)%Z ->
  binary64 (IZR (sign * 10000000000000000000))
  = IZR (sign * 10000000000000000000).
Proof.
  intros Hs.
  replace (IZR (sign * 10000000000000000000))
    with (IZR (sign * 19073486328125) * bpow 19).
  - apply round_generic; lia.
  - rewrite (@bpow_pos_eval 19 524288) by (lia || reflexivity).
    rewrite <- mult_IZR. f_equal. lia.
Qed.

(** An index of a coordinate below 10^21 in magnitude is below 10^19 in
    magnitude: it prints in plain digits. *)
Lemma cell_index_prints v :
  - 1000000000000000000000 < v < 1000000000000000000000 ->
  (Z.abs (Math_floor (binary64 (v / 100))) <= 10000000000000000000)%Z.
Proof.
  intros Hv. unfold Math_floor.
  pose proof (binary64_ten_19 1 ltac:(lia)) as Hp.
  pose proof (binary64_ten_19 (-1) ltac:(lia)) as Hn.
  cbn [Z.mul Pos.mul] in Hp, Hn.
  assert (Hhi : binary64 (v / 100) <= 10000000000000000000)
    by (rewrite <- Hp; apply binary64_le; lra).
  assert (Hlo : -10000000000000000000 <= binary64 (v / 100))
    by (rewrite <- Hn; apply binary64_le; lra).
  apply Z.abs_le. split.
  - apply Zfloor_lub. exact Hlo.
  - apply le_IZR. pose proof (Zfloor_bound (binary64 (v / 100))). lra.
Qed.

(** The index of a coordinate up to 9 * 10^17 in magnitude is the floor of
    the exact quotient or, when the quotient rounds up to an integer, the
    next integer. *)
Lemma cell_index_bracket v :
  Rabs v <= 900000000000000000 ->
  (Math_floor (v / 100) <= Math_floor (binary64 (v / 100))
   <= Math_floor (v / 100) + 1)%Z.
Proof.
  intros Hv. unfold Math_floor.
  assert (Hb : -900000000000000000 <= v <= 900000000000000000)
    by (revert Hv; unfold Rabs; destruct (Rcase_abs v); lra).
  pose proof (Zfloor_bound (v / 100)) as Hf.
  set (k := Zfloor (v / 100)) in *.
  assert (Hk : (-9000000000000000 <= k <= 9000000000000000)%Z).
  { split.
    - apply Zfloor_lub. lra.
    - apply le_IZR. lra. }
  split.
  - apply Zfloor_lub. apply binary64_above; [lia | lra].
  - rewrite <- (ZfloorZ (k + 1)). apply Zfloor_le.
    apply binary64_below; [lia|]. rewrite plus_IZR. lra.
Qed.

(** X24. [stats.uniqueAreas] is the number of distinct pairs of indices
    among the recorded points, an index being the floor of the quotient by
    100 as the division of numbers rounds it: the text key never merges two
    different pairs, negative indices included.  It is at most
    [stats.totalPoints].  For coordinates below 10^21 in magnitude every
    index is below 10^19 in magnitude, so that it prints in plain digits;
    and for a coordinate up to 9 * 10^17 in magnitude the index is the
    floor of the exact quotient or the next integer. *)
Theorem uniqueAreas_counts_cells :
  forall results : list Point,
    Forall prints_in_decimal results ->
    uniqueAreas results = List.length (nodup cell_dec (map cell results)) /\
    (uniqueAreas results <= totalPoints results)%nat /\
    Forall (fun point =>
              (Z.abs (fst (cell point)) <= 10000000000000000000)%Z /\
              (Z.abs (snd (cell point)) <= 10000000000000000000)%Z) results /\
    (forall point,
       (Rabs (point_x point) <= 900000000000000000 ->
        (Math_floor (point_x point / 100) <= fst (cell point)
         <= Math_floor (point_x point / 100) + 1)%Z) /\
       (Rabs (point_y point) <= 900000000000000000 ->
        (Math_floor (point_y point / 100) <= snd (cell point)
         <= Math_floor (point_y point / 100) + 1)%Z)).
Proof.
  intros results Hprint. unfold uniqueAreas, totalPoints.
  split; [|split; [|split]].
  - apply nodup_length_equivalent. intros a b. apply area_key_cell.
  - rewrite <- (length_map area_key results). apply nodup_length_le.
  - eapply Forall_impl; [|exact Hprint].
    intros point [Hx Hy]. cbn [cell fst snd].
    split; now apply cell_index_prints.
  - intros point. cbn [cell fst snd].
    split; intros H; now apply cell_index_bracket.
Qed.

Lemma uniqueAreas_counts_cells_witness :
  uniqueAreas [mkPoint 150 250; mkPoint 160 260; mkPoint (-5) 250]
  = List.length
      (nodup cell_dec
         (map cell [mkPoint 150 250; mkPoint 160 260; mkPoint (-5) 250])).
Proof.
  apply (@uniqueAreas_counts_cells
           [mkPoint 150 250; mkPoint 160 260; mkPoint (-5) 250]).
  repeat constructor; cbn [point_x point_y]; lra.
Defined.
